(** * Forensica: the correlation and scoring engine

    A shallow embedding of the two analysis scripts of the repository,
    [rar.py] (class [ForensicMetadataAnalyzer] and [process_metadata]) and
    [wow.py] (the keyword / entity matcher), with the properties of the
    design document stated and settled against them.

    Conventions of the embedding.
    - Text is a [string] whose characters are read as Unicode code points
      below 256; the Python primitives used by the scripts ([str.lower],
      [in], [repr], the [re] classes) are given on that range.
    - A Python [dict] is an association list in insertion order, a [set] a
      duplicate-free list (its order is not specified by Python and no
      statement below depends on it).
    - A method of the analyzer is a computation in a state-and-exception
      monad: the state is the analyzer object, and a raised exception keeps
      the state as it was when it was raised. *)

From Stdlib Require Import String Ascii Bool Arith NArith ZArith QArith Lia List DecimalString.
From Stdlib Require Import Sorted Permutation.
Import ListNotations.
Open Scope string_scope.
Open Scope list_scope.
Open Scope nat_scope.

(* ================================================================== *)
(** * Python primitives *)
(* ================================================================== *)

Module Py.

(** Code point of a character. *)
Definition ord (c : ascii) : N := N_of_ascii c.

Definition in_range (lo hi n : N) : bool := ((lo <=? n) && (n <=? hi))%N.

(** [str.lower] on one character: A-Z, and the upper-case letters of the
    Latin-1 supplement (U+00C0-U+00DE without the multiplication sign). *)
Definition lower_char (c : ascii) : ascii :=
  let n := ord c in
  if in_range 65 90 n || (in_range 192 222 n && negb (n =? 215)%N)
  then ascii_of_N (n + 32) else c.

(** [s.lower()] *)
Fixpoint lower (s : string) : string :=
  match s with
  | EmptyString => EmptyString
  | String c s' => String (lower_char c) (lower s')
  end.

(** [sub in s] for two strings. *)
Fixpoint contains (sub s : string) : bool :=
  prefix sub s ||
  match s with
  | EmptyString => false
  | String _ s' => contains sub s'
  end.

(** [any(k in s for k in ks)] *)
Definition any_in (ks : list string) (s : string) : bool :=
  existsb (fun k => contains k s) ks.

(** [x in l] for a list of strings. *)
Definition mem (x : string) (l : list string) : bool :=
  existsb (String.eqb x) l.

Definition quote : ascii := "039"%char.
Definition dquote : ascii := "034"%char.
Definition backslash : ascii := "092"%char.

Definition chr (c : ascii) : string := String c EmptyString.

(** [str.isprintable] on one character. *)
Definition printable (c : ascii) : bool :=
  let n := ord c in
  in_range 32 126 n || ((161 <=? n)%N && negb (n =? 173)%N).

Definition hex_digit (n : N) : ascii :=
  match String.get (N.to_nat n) "0123456789abcdef" with
  | Some d => d
  | None => "0"%char
  end.

(** One character of [repr(s)], inside the quotes [q]. *)
Definition repr_char (q c : ascii) : string :=
  if Ascii.eqb c q || Ascii.eqb c backslash then String backslash (chr c)
  else if (ord c =? 9)%N then String backslash "t"
  else if (ord c =? 10)%N then String backslash "n"
  else if (ord c =? 13)%N then String backslash "r"
  else if printable c then chr c
  else String backslash
         (String "x" (String (hex_digit (ord c / 16)) (chr (hex_digit (ord c mod 16))))).

Fixpoint repr_body (q : ascii) (s : string) : string :=
  match s with
  | EmptyString => EmptyString
  | String c s' => repr_char q c ++ repr_body q s'
  end.

(** [repr(s)] of a string: double quotes when the text holds a single quote
    and no double quote, single quotes otherwise. *)
Definition repr (s : string) : string :=
  let q := if contains (chr quote) s && negb (contains (chr dquote) s)
           then dquote else quote in
  String q (repr_body q s ++ chr q).

(** [sep.join(l)] *)
Fixpoint join (sep : string) (l : list string) : string :=
  match l with
  | [] => EmptyString
  | [x] => x
  | x :: l' => x ++ sep ++ join sep l'
  end.

(** [str(l)] of a list of strings. *)
Definition str_list (l : list string) : string :=
  "[" ++ join ", " (map repr l) ++ "]".

(** [str(d)] of a dictionary from strings to strings. *)
Definition str_dict (d : list (string * string)) : string :=
  "{" ++ join ", " (map (fun kv => (repr (fst kv) ++ ": " ++ repr (snd kv))%string) d) ++ "}".

(** [d.get(k, default)] where the entry may be absent. *)
Definition get_default {A} (d : A) (o : option A) : A :=
  match o with
  | Some a => a
  | None => d
  end.

(** [enumerate(l)] *)
Definition enumerate {A} (l : list A) : list (nat * A) :=
  combine (seq 0 (List.length l)) l.

(** [sorted([x, y])] as a pair: code-point order, stable. *)
Definition sorted_pair (x y : string) : string * string :=
  if String.ltb y x then (y, x) else (x, y).

(** [list(set(l))]: the distinct elements (Python gives no order). *)
Fixpoint distinct (l : list string) : list string :=
  match l with
  | [] => []
  | x :: l' => if mem x l' then distinct l' else x :: distinct l'
  end.

End Py.

(* ================================================================== *)
(** * Python's [re]: a backtracking matcher *)
(* ================================================================== *)

Module Re.
Import Py.

(** The regular expressions the scripts use.  A repetition carries its
    bounds and whether it is greedy ([{lo,hi}], [?], [+], [*?]). *)
Inductive regex :=
| Eps
| Lit (c : ascii)
| Class (p : ascii -> bool)
| WordB
| Cat (r1 r2 : regex)
| Repeat (r : regex) (lo : nat) (hi : option nat) (greedy : bool).

(** [\d], [\w] and [\s] of a [str] pattern. *)
Definition is_digit (c : ascii) : bool := in_range 48 57 (ord c).

Definition is_word (c : ascii) : bool :=
  let n := ord c in
  in_range 48 57 n || in_range 65 90 n || (n =? 95)%N || in_range 97 122 n
  || (n =? 170)%N || (n =? 178)%N || (n =? 179)%N || (n =? 181)%N
  || (n =? 185)%N || (n =? 186)%N || in_range 188 190 n
  || (in_range 192 255 n && negb (n =? 215)%N && negb (n =? 247)%N).

Definition is_space (c : ascii) : bool :=
  let n := ord c in
  in_range 9 13 n || in_range 28 32 n || (n =? 133)%N || (n =? 160)%N.

Definition is_lower_az (c : ascii) : bool := in_range 97 122 (ord c).
Definition is_upper_az (c : ascii) : bool := in_range 65 90 (ord c).
Definition one_of (s : string) (c : ascii) : bool :=
  existsb (Ascii.eqb c) (list_ascii_of_string s).

(** Where the matcher stands: the character before it, the text after it,
    and how many characters the match has taken so far. *)
Record cursor := mkCursor {
  before : option ascii;
  after : string;
  consumed : nat
}.

Definition word_opt (o : option ascii) : bool :=
  match o with
  | Some c => is_word c
  | None => false
  end.

Definition next_char (s : string) : option ascii :=
  match s with
  | String c _ => Some c
  | EmptyString => None
  end.

(** [\b]: a word character on exactly one side. *)
Definition at_boundary (cur : cursor) : bool :=
  xorb (word_opt (before cur)) (word_opt (next_char (after cur))).

(** A literal against a character, with or without [re.IGNORECASE].  On
    the code points below 256 two characters match without regard to case
    exactly when their lower-case forms are equal; the further matches of
    [re.IGNORECASE] (U+017F for [s], U+212A for [k], U+0130 and U+0131 for
    [i]) involve a character above that range and are outside the texts of
    the embedding. *)
Definition lit_match (ic : bool) (a x : ascii) : bool :=
  if ic then Ascii.eqb (lower_char a) (lower_char x) else Ascii.eqb a x.

Definition orelse {A} (a b : option A) : option A :=
  match a with
  | Some x => Some x
  | None => b
  end.

(** Take one character satisfying [ok] and go on with [k]. *)
Definition take (ok : ascii -> bool) (k : cursor -> option nat) (cur : cursor)
  : option nat :=
  match after cur with
  | String x s => if ok x then k (mkCursor (Some x) s (S (consumed cur))) else None
  | EmptyString => None
  end.

(** The matcher, in continuation-passing style: alternatives are tried in
    the order of the [re] engine (a greedy repetition tries one more
    iteration first, a lazy one tries to stop first).  An unbounded
    repetition is tried up to once per remaining character: its bodies in
    the scripts always take a character. *)
Fixpoint exec (ic : bool) (r : regex) (k : cursor -> option nat) (cur : cursor)
  {struct r} : option nat :=
  match r with
  | Eps => k cur
  | Lit a => take (lit_match ic a) k cur
  | Class p => take p k cur
  | WordB => if at_boundary cur then k cur else None
  | Cat r1 r2 => exec ic r1 (exec ic r2 k) cur
  | Repeat r0 lo hi greedy =>
      let extra :=
        match hi with
        | Some h => h - lo
        | None => String.length (after cur)
        end in
      let may :=
        fix may (n : nat) (c : cursor) {struct n} : option nat :=
          match n with
          | O => k c
          | S n' =>
              if greedy then orelse (exec ic r0 (may n') c) (k c)
              else orelse (k c) (exec ic r0 (may n') c)
          end in
      let must :=
        fix must (n : nat) (c : cursor) {struct n} : option nat :=
          match n with
          | O => may extra c
          | S n' => exec ic r0 (must n') c
          end in
      must lo cur
  end.

(** Length of the match that starts at this position, if there is one. *)
Definition match_at (ic : bool) (r : regex) (prev : option ascii) (rest : string)
  : option nat :=
  exec ic r (fun c => Some (consumed c)) (mkCursor prev rest 0).

(** The left-to-right scan of [findall]: [skip] counts the characters of the
    last match still to step over.  (No pattern of the scripts matches the
    empty string; an empty match is recorded and the scan moves on.) *)
Fixpoint scan (ic : bool) (r : regex) (prev : option ascii) (rest : string)
  (skip : nat) {struct rest} : list string :=
  match skip with
  | S n =>
      match rest with
      | String c rest' => scan ic r (Some c) rest' n
      | EmptyString => []
      end
  | O =>
      match match_at ic r prev rest with
      | Some len =>
          substring 0 len rest ::
          match rest with
          | String c rest' => scan ic r (Some c) rest' (len - 1)
          | EmptyString => []
          end
      | None =>
          match rest with
          | String c rest' => scan ic r (Some c) rest' 0
          | EmptyString => []
          end
      end
  end.

(** [pattern.findall(text)] for a pattern without capturing groups. *)
Definition findall (ic : bool) (r : regex) (text : string) : list string :=
  scan ic r None text 0.

(** [re.compile] on the pattern syntax of the keyword table: literal
    characters, [\b], [\d], [\w], [\s], and a backslash before a
    punctuation character. *)
Fixpoint parse (pat : string) : regex :=
  match pat with
  | EmptyString => Eps
  | String c rest =>
      if Ascii.eqb c backslash then
        match rest with
        | EmptyString => Eps
        | String x rest' =>
            Cat (if Ascii.eqb x "b" then WordB
                 else if Ascii.eqb x "d" then Class is_digit
                 else if Ascii.eqb x "w" then Class is_word
                 else if Ascii.eqb x "s" then Class is_space
                 else Lit x)
                (parse rest')
        end
      else Cat (Lit c) (parse rest)
  end.

(** Shorthands for the hand-translated patterns. *)
Definition plus (p : ascii -> bool) : regex := Repeat (Class p) 1 None true.
Definition opt (r : regex) : regex := Repeat r 0 (Some 1) true.
Definition times (r : regex) (n : nat) : regex := Repeat r n (Some n) true.
Fixpoint lits (s : string) : regex :=
  match s with
  | EmptyString => Eps
  | String c s' => Cat (Lit c) (lits s')
  end.

End Re.

(* ================================================================== *)
(** * rar.py: the analyzer session *)
(* ================================================================== *)

Module Rar.
Import Py Re.

(** One metadata record.  [path] is looked up with [item['path']] and may be
    missing (the malformed record of the error taxonomy); [content] and
    [tags] are read with [item.get] and may be absent; [type] is mandatory.
    Content, when present, is a string or an object (a [dict], here with
    string fields, in the order of the document; the design names the field
    [text]). *)
Inductive content_value :=
| CStr (s : string)
| CDict (fields : list (string * string)).

Record record := mkRecord {
  path : option string;
  type : string;
  content : option content_value;
  tags : option (list string)
}.

(** Python dictionaries, in insertion order. *)
Definition dict (K V : Type) := list (K * V).

Fixpoint lookup {K V} (eqb : K -> K -> bool) (k : K) (d : dict K V) : option V :=
  match d with
  | [] => None
  | (k', v) :: d' => if eqb k k' then Some v else lookup eqb k d'
  end.

(** [d[k] = f(d[k])] on a [defaultdict] with default [dflt]: an existing key
    keeps its place, a new key goes last. *)
Fixpoint update {K V} (eqb : K -> K -> bool) (k : K) (dflt : V) (f : V -> V)
  (d : dict K V) : dict K V :=
  match d with
  | [] => [(k, f dflt)]
  | (k', v) :: d' =>
      if eqb k k' then (k', f v) :: d' else (k', v) :: update eqb k dflt f d'
  end.

(** [d[k].append(x)] on a [defaultdict(list)], [d[k] += 1] on a counter and
    [d[k] = v]. *)
Definition push {V} (k : string) (x : V) (d : dict string (list V)) : dict string (list V) :=
  update String.eqb k [] (fun l => l ++ [x]) d.
Definition incr {K} (eqb : K -> K -> bool) (k : K) (d : dict K nat) : dict K nat :=
  update eqb k 0 S d.
Definition assign {V} (k : string) (v : V) (d : dict string V) : dict string V :=
  update String.eqb k v (fun _ => v) d.

Definition pair_eqb (p q : string * string) : bool :=
  String.eqb (fst p) (fst q) && String.eqb (snd p) (snd q).

(** The relationship graph ([networkx.Graph]): nodes in insertion order with
    their attributes, and undirected edges without repetition. *)
Inductive node_attr :=
| FileNode (file_type : string) (is_threat : bool)
| TagNode.

Record graph := mkGraph {
  nodes : dict string node_attr;
  edges : list (string * string)
}.

(** The results kept in [self.correlations]. *)
Record correlations_t := mkCorrelations {
  shared_tags : dict string (list string);
  tag_cooccurrence : dict (string * string) nat
}.

(** The analyzer object.  [df] (the pandas frame) is not modelled. *)
Record analyzer := mkAnalyzer {
  data : option (list record);
  threat_items : list nat;
  safe_items : list nat;
  correlations : option correlations_t;   (* [None] is the empty dict *)
  tag_graph : option graph
}.

(** [ForensicMetadataAnalyzer()] *)
Definition fresh : analyzer := mkAnalyzer None [] [] None None.

(** ** Exceptions and the method monad *)

Inductive exn :=
| KeyError (key : string)
| IndexError
| TypeError
| AttributeError
| LibraryError.

Inductive outcome (A : Type) :=
| Return (a : A)
| Raise (e : exn).
Arguments Return {A} a.
Arguments Raise {A} e.

(** Exceptions alone, for the code that only works on local variables. *)
Definition obind {A B} (o : outcome A) (f : A -> outcome B) : outcome B :=
  match o with
  | Return a => f a
  | Raise e => Raise e
  end.

Notation "'try' x <- c1 ; c2" := (obind c1 (fun x => c2))
  (at level 61, x name, c1 at next level, right associativity).

(** A loop over [l] that updates the local state [acc] and may raise. *)
Fixpoint ofold {A S} (body : S -> A -> outcome S) (l : list A) (acc : S) : outcome S :=
  match l with
  | [] => Return acc
  | x :: l' => try acc' <- body acc x ; ofold body l' acc'
  end.

Definition M (A : Type) : Type := analyzer -> analyzer * outcome A.

Definition ret {A} (a : A) : M A := fun st => (st, Return a).
Definition raise {A} (e : exn) : M A := fun st => (st, Raise e).
Definition bind {A B} (m : M A) (f : A -> M B) : M B :=
  fun st =>
    match m st with
    | (st', Return a) => f a st'
    | (st', Raise e) => (st', Raise e)
    end.
Definition self : M analyzer := fun st => (st, Return st).
Definition modify (f : analyzer -> analyzer) : M unit := fun st => (f st, Return tt).
Definition lift {A} (o : outcome A) : M A := fun st => (st, o).

Notation "x <- c1 ;; c2" := (bind c1 (fun x => c2))
  (at level 61, c1 at next level, right associativity).
Notation "c1 ;; c2" := (bind c1 (fun _ => c2))
  (at level 61, right associativity).

(** [for x in l: body(x)] *)
Fixpoint for_each {A} (body : A -> M unit) (l : list A) : M unit :=
  match l with
  | [] => ret tt
  | x :: l' => body x ;; for_each body l'
  end.

(** [item['path']] *)
Definition item_path (item : record) : outcome string :=
  match path item with
  | Some p => Return p
  | None => Raise (KeyError "path")
  end.

(** [item.get('tags', [])] *)
Definition item_tags (item : record) : list string := get_default [] (tags item).

(** [self.data], which must be a sequence to be iterated. *)
Definition data_of (st : analyzer) : outcome (list record) :=
  match data st with
  | Some d => Return d
  | None => Raise TypeError
  end.

(** [self.data[idx]] *)
Definition data_at (st : analyzer) (idx : nat) : outcome record :=
  try d <- data_of st ;
  match nth_error d idx with
  | Some item => Return item
  | None => Raise IndexError
  end.

Definition set_data (d : list record) (st : analyzer) : analyzer :=
  mkAnalyzer (Some d) (threat_items st) (safe_items st) (correlations st) (tag_graph st).
Definition append_threat (idx : nat) (st : analyzer) : analyzer :=
  mkAnalyzer (data st) (threat_items st ++ [idx]) (safe_items st) (correlations st) (tag_graph st).
Definition append_safe (idx : nat) (st : analyzer) : analyzer :=
  mkAnalyzer (data st) (threat_items st) (safe_items st ++ [idx]) (correlations st) (tag_graph st).
Definition set_correlations (c : correlations_t) (st : analyzer) : analyzer :=
  mkAnalyzer (data st) (threat_items st) (safe_items st) (Some c) (tag_graph st).
Definition set_tag_graph (g : graph) (st : analyzer) : analyzer :=
  mkAnalyzer (data st) (threat_items st) (safe_items st) (correlations st) (Some g).

(** ** [_categorize_items] *)

Definition content_keywords : list string :=
  ["bomb"; "attack"; "explosive"; "threat"; "terrorist"].
Definition weapon_words : list string :=
  ["assault rifle"; "rifle"; "revolver"; "weapon"; "bulletproof"].

(** [item.get('content')] used as a condition: present and not empty (a
    string with a character, an object with a field). *)
Definition truthy_content (item : record) : bool :=
  match content item with
  | Some (CStr s) => negb (String.eqb s "")
  | Some (CDict []) => false
  | Some (CDict (_ :: _)) => true
  | None => false
  end.

(** [str(item.get('content', ''))]: the string itself, or the object as
    [str] prints a [dict]. *)
Definition content_str (item : record) : string :=
  match content item with
  | Some (CStr s) => s
  | Some (CDict fields) => str_dict fields
  | None => ""
  end.

Inductive label := Threat | Safe.

(** The [if / elif] chain of the loop body, for a record whose path was read. *)
Definition decide_label (p : string) (item : record) : label :=
  if contains "_threat" (lower p) || contains "threat" (lower (content_str item))
  then Threat
  else if contains "_safe" (lower p) then Safe
  else if truthy_content item && any_in content_keywords (lower (content_str item))
  then Threat
  else if any_in weapon_words (lower (str_list (item_tags item)))
  then Threat
  else Safe.

Definition categorize_item (entry : nat * record) : M unit :=
  let (idx, item) := entry in
  p <- lift (item_path item) ;;
  match decide_label p item with
  | Threat => modify (append_threat idx)
  | Safe => modify (append_safe idx)
  end.

Definition _categorize_items : M unit :=
  st <- self ;;
  d <- lift (data_of st) ;;
  for_each categorize_item (enumerate d).

(** [load_json_data], given the parsed record sequence. *)
Definition load_json_data (json_data : list record) : M unit :=
  modify (set_data json_data) ;;
  _categorize_items.

(** ** [analyze_threats] *)

Record threat_file := mkThreatFile {
  tf_path : string;
  tf_type : string;
  tf_tags : list string
}.

Record threat_analysis_t := mkThreatAnalysis {
  ta_count : nat;
  ta_types : dict string nat;
  ta_tags : dict string nat;
  ta_files : list threat_file
}.

Definition analyze_threats (st : analyzer) : outcome threat_analysis_t :=
  ofold
    (fun ta idx =>
       try item <- data_at st idx ;
       let types := incr String.eqb (type item) (ta_types ta) in
       let tgs := fold_left (fun c tag => incr String.eqb tag c) (item_tags item) (ta_tags ta) in
       try p <- item_path item ;
       Return (mkThreatAnalysis (ta_count ta) types tgs
                 (ta_files ta ++ [mkThreatFile p (type item) (item_tags item)])))
    (threat_items st)
    (mkThreatAnalysis (List.length (threat_items st)) [] [] []).

(** ** [find_tag_correlations] *)

(** The body of the first loop, on the pair [(tag_to_files, file_to_tags)]. *)
Definition index_step (acc : dict string (list string) * dict string (list string))
  (item : record)
  : outcome (dict string (list string) * dict string (list string)) :=
  try file_path <- item_path item ;
  Return
    (fold_left
       (fun tf tag => (push tag file_path (fst tf), push file_path tag (snd tf)))
       (item_tags item) acc).

(** The first loop: [tag_to_files] and [file_to_tags]. *)
Definition index_tags (d : list record)
  : outcome (dict string (list string) * dict string (list string)) :=
  ofold index_step d ([], []).

(** The pairs [(tags[i], tags[j])], [i < j], each sorted, in loop order. *)
Fixpoint tag_pairs (tags : list string) : list (string * string) :=
  match tags with
  | [] => []
  | t :: rest => map (sorted_pair t) rest ++ tag_pairs rest
  end.

Definition count_pairs (file_to_tags : dict string (list string))
  : dict (string * string) nat :=
  fold_left
    (fun cooc ft =>
       if 1 <? List.length (snd ft)
       then fold_left (fun c tag_pair => incr pair_eqb tag_pair c) (tag_pairs (snd ft)) cooc
       else cooc)
    file_to_tags [].

Definition find_tag_correlations : M correlations_t :=
  st <- self ;;
  d <- lift (data_of st) ;;
  idx <- lift (index_tags d) ;;
  let shared := filter (fun tf => 1 <? List.length (snd tf)) (fst idx) in
  let cooc := count_pairs (snd idx) in
  modify (set_correlations (mkCorrelations shared cooc)) ;;
  ret (mkCorrelations shared cooc).

(** ** [build_tag_graph] *)

Definition has_node (n : string) (g : graph) : bool :=
  match lookup String.eqb n (nodes g) with
  | Some _ => true
  | None => false
  end.

(** [G.add_node(n, **attr)]: a node already there keeps its place and takes
    the new attributes. *)
Definition add_node (n : string) (a : node_attr) (g : graph) : graph :=
  mkGraph (assign n a (nodes g)) (edges g).

Definition same_edge (u v : string) (e : string * string) : bool :=
  (String.eqb u (fst e) && String.eqb v (snd e))
  || (String.eqb v (fst e) && String.eqb u (snd e)).

(** [G.add_edge(u, v)] between two nodes of the graph. *)
Definition add_edge (u v : string) (g : graph) : graph :=
  if existsb (same_edge u v) (edges g) then g
  else mkGraph (nodes g) (edges g ++ [(u, v)]).

(** [idx in self.threat_items] *)
Definition mem_nat (n : nat) (l : list nat) : bool := existsb (Nat.eqb n) l.

(** The loop that builds the graph. *)
Definition make_graph (st : analyzer) (d : list record) : outcome graph :=
  ofold
    (fun G entry =>
       try file_path <- item_path (snd entry) ;
       let is_threat := mem_nat (fst entry) (threat_items st) in
       let G1 := add_node file_path (FileNode (type (snd entry)) is_threat) G in
       Return
         (fold_left
            (fun G tag =>
               let G' := if has_node tag G then G else add_node tag TagNode G in
               add_edge file_path tag G')
            (item_tags (snd entry)) G1))
    (enumerate d) (mkGraph [] []).

(** Degree of a node; a self-loop counts twice. *)
Definition degree (g : graph) (n : string) : nat :=
  fold_left
    (fun k e => k + (if String.eqb n (fst e) then 1 else 0)
                  + (if String.eqb n (snd e) then 1 else 0))
    (edges g) 0.

(** [networkx.degree_centrality]: 1 for every node of a graph with at most
    one node, and degree / (n - 1) otherwise (the quotient is kept exact). *)
Definition degree_centrality (g : graph) : dict string Q :=
  let n := List.length (nodes g) in
  if n <=? 1 then map (fun na => (fst na, 1%Q)) (nodes g)
  else map (fun na => (fst na, (Z.of_nat (degree g (fst na)) # Pos.of_nat (n - 1))%Q))
           (nodes g).

(** [sorted(items, key=lambda x: x[1], reverse=True)]: by decreasing value,
    equal values in their original order. *)
Fixpoint insert_desc (x : string * Q) (l : list (string * Q)) : list (string * Q) :=
  match l with
  | [] => [x]
  | y :: l' =>
      if Qle_bool (snd y) (snd x) then x :: y :: l'
      else y :: insert_desc x l'
  end.

Fixpoint sorted_desc (l : list (string * Q)) : list (string * Q) :=
  match l with
  | [] => []
  | x :: l' => insert_desc x (sorted_desc l')
  end.

Record graph_stats := mkGraphStats {
  gs_nodes : nat;
  gs_edges : nat;
  top_central_nodes : list (string * Q);
  communities : nat;
  largest_community_size : nat
}.

Section Networkx.

(** [networkx.community.greedy_modularity_communities], which the analyzer
    calls on its graph: a library routine, left open here.  It returns the
    communities or raises. *)
Variable greedy_modularity_communities : graph -> outcome (list (list string)).

Definition build_tag_graph : M (graph * graph_stats) :=
  st <- self ;;
  d <- lift (data_of st) ;;
  G <- lift (make_graph st d) ;;
  modify (set_tag_graph G) ;;
  let centrality := degree_centrality G in
  cs <- lift (greedy_modularity_communities G) ;;
  ret (G,
       mkGraphStats
         (List.length (nodes G))
         (List.length (edges G))
         (firstn 5 (sorted_desc centrality))
         (List.length cs)
         (match cs with
          | c :: _ => List.length c
          | [] => 0
          end)).

End Networkx.

(** ** [analyze_content] *)

(** An entry of [text_contents]: the path, the content as the record has
    it, and the threat mark. *)
Record text_entry := mkTextEntry {
  te_path : string;
  te_content : content_value;
  te_is_threat : bool
}.

(** An entry whose content is a string. *)
Record text_item := mkTextItem {
  ti_path : string;
  ti_content : string;
  ti_is_threat : bool
}.

(** [any(p == self.data[idx]['path'] for idx in self.threat_items)] *)
Fixpoint any_threat_path (st : analyzer) (p : string) (idxs : list nat) : outcome bool :=
  match idxs with
  | [] => Return false
  | idx :: idxs' =>
      try item <- data_at st idx ;
      try q <- item_path item ;
      if String.eqb p q then Return true else any_threat_path st p idxs'
  end.

(** The body of the first loop: a record with [type == 'file'] and a
    non-empty content is appended to [text_contents]. *)
Definition add_text_item (st : analyzer) (acc : list text_entry) (item : record)
  : outcome (list text_entry) :=
  if String.eqb (type item) "file" && truthy_content item then
    try p <- item_path item ;
    try t <- any_threat_path st p (threat_items st) ;
    Return (acc ++ [mkTextEntry p (get_default (CStr "") (content item)) t])
  else Return acc.

Definition text_contents (st : analyzer) (d : list record) : outcome (list text_entry) :=
  ofold (add_text_item st) d [].

(** [item['content'].lower()] is a method of strings: on an object the
    lookup of [lower] raises [AttributeError].  The entry is returned with
    its string; the lower-casing itself is done where the string is used. *)
Definition as_text (e : text_entry) : outcome text_item :=
  match te_content e with
  | CStr s => Return (mkTextItem (te_path e) s (te_is_threat e))
  | CDict _ => Raise AttributeError
  end.

Definition threat_keywords : list string :=
  ["bomb"; "attack"; "threat"; "explosive"; "rifle"; "planning"; "illegal"].

(** The tally of the keyword loop over entries whose contents are strings. *)
Definition keyword_occurrences_of (items : list text_item) : dict string (list string) :=
  fold_left
    (fun occ item =>
       fold_left
         (fun occ keyword =>
            if contains keyword (lower (ti_content item))
            then push keyword (ti_path item) occ else occ)
         threat_keywords occ)
    items [].

(** [\b\w+\b] *)
Definition WORD_RE : regex := Cat WordB (Cat (plus is_word) WordB).

(** [set(re.findall(r'\b\w+\b', content.lower()))] *)
Definition words (content : string) : list string :=
  distinct (findall false WORD_RE (lower content)).

Definition intersection (a b : list string) : list string :=
  filter (fun w => mem w b) a.
Definition union (a b : list string) : list string :=
  a ++ filter (fun w => negb (mem w a)) b.

Record similarity_edge := mkEdge {
  file1 : string;
  file2 : string;
  similarity : Q;
  common_words : list string
}.

(** [x > y] on the similarity values. *)
Definition Qgtb (x y : Q) : bool := negb (Qle_bool x y).

(** The body of the double loop for one pair of text items: the edge that is
    appended, if one is.  The quotient [overlap / len(union)] is kept exact. *)
Definition compare_pair (item1 item2 : text_item) : option similarity_edge :=
  let words1 := words (ti_content item1) in
  let words2 := words (ti_content item2) in
  match words1, words2 with
  | _ :: _, _ :: _ =>
      let overlap := List.length (intersection words1 words2) in
      let sim := (Z.of_nat overlap # Pos.of_nat (List.length (union words1 words2)))%Q in
      if Qgtb sim (1 # 10)
      then Some (mkEdge (ti_path item1) (ti_path item2) sim (intersection words1 words2))
      else None
  | _, _ => None
  end.

Definition opt_list {A} (o : option A) : list A :=
  match o with
  | Some a => [a]
  | None => []
  end.

(** [for i in range(n): for j in range(i+1, n): ...] over entries whose
    contents are strings. *)
Fixpoint content_similarity_of (items : list text_item) : list similarity_edge :=
  match items with
  | [] => []
  | item1 :: rest =>
      flat_map (fun item2 => opt_list (compare_pair item1 item2)) rest
      ++ content_similarity_of rest
  end.

Record content_analysis_t := mkContentAnalysis {
  keyword_occurrences : dict string (list string);
  content_similarity : list similarity_edge
}.

(** The keyword loop, on the entries as they were collected. *)
Definition keyword_step (occ : dict string (list string)) (e : text_entry)
  : outcome (dict string (list string)) :=
  try item <- as_text e ;
  Return (fold_left
            (fun occ keyword =>
               if contains keyword (lower (ti_content item))
               then push keyword (ti_path item) occ else occ)
            threat_keywords occ).

Definition keyword_loop (entries : list text_entry) : outcome (dict string (list string)) :=
  ofold keyword_step entries [].

(** The pair loop, on the entries as they were collected: the two contents
    are lower-cased, the first one first, before the pair is compared. *)
Definition compare_entries (e1 e2 : text_entry) : outcome (option similarity_edge) :=
  try item1 <- as_text e1 ;
  try item2 <- as_text e2 ;
  Return (compare_pair item1 item2).

Definition similarity_row (e1 : text_entry) (acc : list similarity_edge) (e2 : text_entry)
  : outcome (list similarity_edge) :=
  try e <- compare_entries e1 e2 ;
  Return (acc ++ opt_list e).

Fixpoint similarity_loop (entries : list text_entry) (acc : list similarity_edge)
  : outcome (list similarity_edge) :=
  match entries with
  | [] => Return acc
  | e1 :: rest =>
      try acc' <- ofold (similarity_row e1) rest acc ;
      similarity_loop rest acc'
  end.

Definition analyze_content : M content_analysis_t :=
  st <- self ;;
  d <- lift (data_of st) ;;
  entries <- lift (text_contents st d) ;;
  occ <- lift (keyword_loop entries) ;;
  sims <- lift (similarity_loop entries []) ;;
  ret (mkContentAnalysis occ sims).

(** ** [extract_date_patterns] *)

(** [(\d{4}-\d{2}-\d{2})] *)
Definition DATE_RE : regex :=
  Cat (times (Class is_digit) 4)
      (Cat (Lit "-") (Cat (times (Class is_digit) 2)
      (Cat (Lit "-") (times (Class is_digit) 2)))).

Fixpoint digits_value (s : string) (acc : nat) : nat :=
  match s with
  | EmptyString => acc
  | String c s' => digits_value s' (10 * acc + (N.to_nat (ord c) - 48))
  end.

Definition is_leap (y : nat) : bool :=
  ((y mod 4 =? 0) && negb (y mod 100 =? 0)) || (y mod 400 =? 0).

Definition days_in_month (y m : nat) : nat :=
  match m with
  | 2 => if is_leap y then 29 else 28
  | 4 | 6 | 9 | 11 => 30
  | _ => 31
  end.

(** [datetime.strptime(s, '%Y-%m-%d')] on a text of the form of [DATE_RE]:
    the date, or [None] for a [ValueError]. *)
Definition strptime (s : string) : option (nat * nat * nat) :=
  let y := digits_value (substring 0 4 s) 0 in
  let m := digits_value (substring 5 2 s) 0 in
  let d := digits_value (substring 8 2 s) 0 in
  if (1 <=? y) && (1 <=? m) && (m <=? 12) && (1 <=? d) && (d <=? days_in_month y m)
  then Some (y, m, d) else None.

Fixpoint zeros (n : nat) : string :=
  match n with
  | O => EmptyString
  | S n' => String "0" (zeros n')
  end.

Definition padded (width n : nat) : string :=
  let s := NilEmpty.string_of_uint (Nat.to_uint n) in
  (zeros (width - String.length s) ++ s)%string.

(** [date.strftime('%Y-%m-%d')]: the month and the day are padded to two
    digits; the year is written as the C library of Linux writes [%Y],
    without leading zeros (999-12-31 for the year 999). *)
Definition strftime (date : nat * nat * nat) : string :=
  let '(y, m, d) := date in
  (NilEmpty.string_of_uint (Nat.to_uint y) ++ "-" ++ padded 2 m ++ "-" ++ padded 2 d)%string.

Definition extract_date_patterns (st : analyzer) : outcome (dict string (list string)) :=
  try d <- data_of st ;
  try file_dates <-
    ofold
      (fun fd item =>
         try p <- item_path item ;
         match findall false DATE_RE p with
         | m0 :: _ =>
             match strptime m0 with
             | Some date => Return (assign p date fd)
             | None => Return fd
             end
         | [] => Return fd
         end)
      d [] ;
  Return (fold_left (fun groups fd => push (strftime (snd fd)) (fst fd) groups) file_dates []).

(** ** [generate_threat_report] *)

Record report := mkReport {
  summary_total_items : nat;
  summary_threat_items : nat;
  summary_weapon_related_items : nat;
  weapon_related_tags : list string;
  related_files : list string;
  key_content_keywords : dict string (list string);
  tag_connections : dict (string * string) nat;
  content_similarities : list similarity_edge;
  timeline : dict string (list string)
}.

Definition weapon_tag_words : list string := ["rifle"; "revolver"; "mask"; "bulletproof"].

(** [not self.tag_graph]: no graph yet, or a graph without nodes. *)
Definition no_graph (st : analyzer) : bool :=
  match tag_graph st with
  | None => true
  | Some g => match nodes g with [] => true | _ => false end
  end.

Section Pipeline.

Variable greedy_modularity_communities : graph -> outcome (list (list string)).

Definition generate_threat_report : M report :=
  st0 <- self ;;
  match correlations st0 with
  | None => find_tag_correlations ;; ret tt
  | Some _ => ret tt
  end ;;
  st1 <- self ;;
  (if no_graph st1
   then build_tag_graph greedy_modularity_communities ;; ret tt
   else ret tt) ;;
  content_analysis <- analyze_content ;;
  st <- self ;;
  date_patterns <- lift (extract_date_patterns st) ;;
  threat_analysis <- lift (analyze_threats st) ;;
  let weapon_related_tags :=
    map fst (filter (fun tc => any_in weapon_tag_words (lower (fst tc)))
                    (ta_tags threat_analysis)) in
  corr <- match correlations st with
          | Some c => ret c
          | None => raise (KeyError "shared_tags")
          end ;;
  let related_files :=
    fold_left
      (fun rf tag =>
         match lookup String.eqb tag (shared_tags corr) with
         | Some files => rf ++ files
         | None => rf
         end)
      weapon_related_tags [] in
  let related_files := distinct related_files in
  threat_paths <- lift
    (ofold (fun ps idx =>
              try item <- data_at st idx ;
              try p <- item_path item ;
              Return (ps ++ [p]))
           (threat_items st) []) ;;
  let threat_similarities :=
    filter (fun sim => mem (file1 sim) threat_paths || mem (file2 sim) threat_paths)
           (content_similarity content_analysis) in
  d <- lift (data_of st) ;;
  ret (mkReport
         (List.length d)
         (List.length (threat_items st))
         (List.length
            (filter (fun item => existsb (fun tag => mem tag weapon_related_tags)
                                         (item_tags item)) d))
         weapon_related_tags
         related_files
         (keyword_occurrences content_analysis)
         (tag_cooccurrence corr)
         threat_similarities
         date_patterns).

Record results := mkResults {
  threat_report : report;
  tag_correlations : correlations_t;
  content_analysis : content_analysis_t;
  network_stats : graph_stats
}.

(** [process_metadata], run on a fresh analyzer; the rendering of the graph
    to an image is left out. *)
Definition process_metadata (data : list record) : M results :=
  load_json_data data ;;
  tag_correlations <- find_tag_correlations ;;
  network_analysis <- build_tag_graph greedy_modularity_communities ;;
  content_analysis <- analyze_content ;;
  threat_report <- generate_threat_report ;;
  ret (mkResults threat_report tag_correlations content_analysis (snd network_analysis)).

End Pipeline.

End Rar.

(* ================================================================== *)
(** * rar.py: what [visualize_tag_network] hands to the drawing routine *)
(* ================================================================== *)

Module Viz.
Import Py Rar.

(** The colour and the size of a node, as the two loops over [G.nodes()]
    choose them. *)
Definition node_color (a : node_attr) : string :=
  match a with
  | TagNode => "lightblue"
  | FileNode _ true => "red"
  | FileNode _ false => "green"
  end.

Definition node_size (a : node_attr) : nat :=
  match a with
  | TagNode => 100
  | FileNode _ _ => 50
  end.

Section Render.

Variable greedy_modularity_communities : graph -> outcome (list (list string)).

(** [visualize_tag_network] up to the call of the drawing routine: the
    graph is built if the session has none, and the result is the list of
    colours and the list of sizes, in node order.  (A session without a
    graph after the build cannot occur; the branch raises.) *)
Definition visualize_tag_network : M (list string * list nat) :=
  st <- self ;;
  (if no_graph st
   then build_tag_graph greedy_modularity_communities ;; ret tt
   else ret tt) ;;
  st' <- self ;;
  match tag_graph st' with
  | Some G =>
      ret (map (fun na => node_color (snd na)) (nodes G),
           map (fun na => node_size (snd na)) (nodes G))
  | None => raise TypeError
  end.

End Render.

End Viz.

(* ================================================================== *)
(** * wow.py: the keyword / entity matcher *)
(* ================================================================== *)

Module Wow.
Import Py Re.

(** Threat categories and their trigger patterns.  The last two pattern
    strings of "Terrorism" are adjacent literals without a comma between
    them, which Python joins into one string. *)
Definition THREAT_KEYWORDS : list (string * list string) :=
  [ ("Financial fraud",
      ["\bbank card\b"; "\bapproval code\b"; "\bcash receipt\b";
       "\btotal\b"; "\bcash\b"; "\bchange\b"]);
    ("Identity theft",
      ["\baadhar\b"; "\bpan\b"; "\bpassport\b"; "\bssn\b"; "\bdl\b"]);
    ("Weapons/Violence",
      ["\bknife\b"; "\bgun\b"; "\brifle\b"; "\bgrenade\b"; "\bexplosive\b"]);
    ("Drugs/Illegal",
      ["\bcocaine\b"; "\bweed\b"; "\bheroin\b"; "\bmeth\b"]);
    ("Explicit content",
      ["\bxxx\b"; "\bnsfw\b"; "\b18\+\b"]);
    ("Terrorism",
      ["\bbomb\b"; "\battack\b"; "\bisis\b";
       ("\brecruitment\b" ++ "\brifle\b")%string]);
    ("Surveillance",
      ["\blocation\b"; "\brecording\b"; "\bcamera\b"; "\btracking\b"]);
    ("Encrypted/Hidden",
      ["\bencrypted\b"; "\bpassword-protected\b"; "\bstego\b"; "\bsteganography\b"]) ].

(** [[a-zA-Z0-9_.+-]], [[a-zA-Z0-9-]] and [[a-zA-Z0-9-.]] *)
Definition alnum_az (c : ascii) : bool := is_lower_az c || is_upper_az c || in_range 48 57 (ord c).
Definition email_local (c : ascii) : bool := alnum_az c || one_of "_.+-" c.
Definition email_host (c : ascii) : bool := alnum_az c || one_of "-" c.
Definition email_tail (c : ascii) : bool := alnum_az c || one_of "-." c.

(** [[a-zA-Z0-9_.+-]+@[a-zA-Z0-9-]+\.[a-zA-Z0-9-.]+] *)
Definition EMAIL_RE : regex :=
  Cat (plus email_local)
      (Cat (Lit "@") (Cat (plus email_host) (Cat (Lit ".") (plus email_tail)))).

(** [https?://[^\s]+] *)
Definition URL_RE : regex :=
  Cat (lits "http")
      (Cat (opt (Lit "s")) (Cat (lits "://") (plus (fun c => negb (is_space c))))).

(** [[-.\s]] *)
Definition phone_sep (c : ascii) : bool := one_of "-." c || is_space c.

(** [\b\d{3,4}[-.\s]?\d{3,4}[-.\s]?\d{4}\b] *)
Definition PHONE_RE : regex :=
  Cat WordB
      (Cat (Repeat (Class is_digit) 3 (Some 4) true)
      (Cat (opt (Class phone_sep))
      (Cat (Repeat (Class is_digit) 3 (Some 4) true)
      (Cat (opt (Class phone_sep))
      (Cat (times (Class is_digit) 4) WordB))))).

(** [\b(?:\d[ -]*?){13,16}\b] *)
Definition CREDIT_CARD_RE : regex :=
  Cat WordB
      (Cat (Repeat (Cat (Class is_digit) (Repeat (Class (one_of " -")) 0 None false))
                   13 (Some 16) true)
           WordB).

(** Keyword patterns, compiled with [re.IGNORECASE]. *)
Definition COMPILED_THREATS : list (string * list regex) :=
  map (fun cp => (fst cp, map parse (snd cp))) THREAT_KEYWORDS.

(** [cats.add(cat)] on the set of categories (kept in order of first match;
    Python does not fix the order of [list(cats)]). *)
Definition add (x : string) (s : list string) : list string :=
  if mem x s then s else s ++ [x].

(** [detect_keywords]: the three nested loops, threading [(cats, keys)]. *)
Definition detect_keywords (text : string) : list string * list string :=
  fold_left
    (fun acc cp =>
       fold_left
         (fun acc pat =>
            fold_left
              (fun ck m => (add (fst cp) (fst ck), snd ck ++ [m]))
              (findall true pat text) acc)
         (snd cp) acc)
    COMPILED_THREATS ([], []).

Record entity := mkEntity {
  ent_type : string;
  ent_value : string
}.

(** [detect_entities] *)
Definition detect_entities (text : string) : list entity :=
  fold_left
    (fun ents lr =>
       fold_left (fun ents m => ents ++ [mkEntity (fst lr) m])
                 (findall false (snd lr) text) ents)
    [("email", EMAIL_RE); ("url", URL_RE); ("phone", PHONE_RE);
     ("credit_card", CREDIT_CARD_RE)]
    [].

(** [compute_score] *)
Definition compute_score (num_keys num_ents : nat) : nat :=
  num_keys + 2 * num_ents.

(** The [content] of an input entry: absent, a text, or an object that may
    expose a [text] field. *)
Inductive content_t :=
| Absent
| Text (s : string)
| Object (text : option string).

Record entry := mkEntry {
  path : option string;
  file_path : option string;
  content : content_t
}.

Record prediction := mkPrediction {
  threat_detected : bool;
  score : nat;
  categories : list string;
  keywords : list string;
  summary : string
}.

Record result := mkResult {
  file : string;
  text : string;
  entities : list entity;
  predicted_threats : prediction
}.

(** [a or b] on optional strings: the first one present and not empty. *)
Definition or_else (a : option string) (b : string) : string :=
  match a with
  | Some s => if String.eqb s "" then b else s
  | None => b
  end.

(** The text the detectors run on. *)
Definition entry_text (e : entry) : string :=
  match content e with
  | Absent => ""
  | Text s => s
  | Object t => get_default "" t
  end.

Definition str_nat (n : nat) : string :=
  NilEmpty.string_of_uint (Nat.to_uint n).

(** The body of the loop of [analyze_json] for one entry. *)
Definition analyze_entry (e : entry) : result :=
  let file_path := or_else (path e) (or_else (file_path e) "unknown") in
  let text := entry_text e in
  let (cats, keys) := detect_keywords text in
  let ents := detect_entities text in
  let score := compute_score (List.length keys) (List.length ents) in
  let threat := 0 <? score in
  let summary :=
    if negb threat then "No threats detected."
    else ("Detected threats in categories: " ++ join ", " cats
          ++ " (score " ++ str_nat score ++ ").")%string in
  mkResult file_path text ents (mkPrediction threat score cats keys summary).

(** [analyze_json] between the read and the write of the files, on the list
    of entries (a document that is a single object counts as a list of one). *)
Definition analyze_json (data : list entry) : list result :=
  map analyze_entry data.

End Wow.

(* ================================================================== *)
(** * The statements of the design document, in the terms of the code *)
(* ================================================================== *)

Module Spec.
Import Py Rar.

Definition has_path (item : record) : bool :=
  match path item with
  | Some _ => true
  | None => false
  end.

(** The records that precede the first one without a path. *)
Fixpoint well_formed_prefix (recs : list record) : list record :=
  match recs with
  | [] => []
  | item :: recs' => if has_path item then item :: well_formed_prefix recs' else []
  end.

Definition label_eqb (a b : label) : bool :=
  match a, b with
  | Threat, Threat | Safe, Safe => true
  | _, _ => false
  end.

(** The label the categorizer gives to a record that has a path. *)
Definition label_of (item : record) : label :=
  decide_label (get_default "" (path item)) item.

(** The positions, counted from [k], of the records of [l] labelled [lbl]. *)
Fixpoint positions (lbl : label) (k : nat) (l : list record) : list nat :=
  match l with
  | [] => []
  | item :: l' =>
      if label_eqb (label_of item) lbl then k :: positions lbl (S k) l'
      else positions lbl (S k) l'
  end.



(** An analysis leaves the two index lists of the analyzer as they are,
    whether it returns or raises. *)
Definition keeps_partition {A} (m : M A) : Prop :=
  forall st,
    threat_items (fst (m st)) = threat_items st /\
    safe_items (fst (m st)) = safe_items st.

(** The analyzer after [load_json_data] on a fresh session. *)
Definition loaded (recs : list record) : analyzer :=
  fst (load_json_data recs fresh).


(** A file-type record with a non-empty content. *)
Definition is_text_record (item : record) : bool :=
  String.eqb (type item) "file" && truthy_content item.

(** A file-type record whose non-empty content is an object. *)
Definition is_object_record (item : record) : bool :=
  is_text_record item &&
  match content item with
  | Some (CDict _) => true
  | _ => false
  end.

(** The entry of [text_contents] that holds the string of a text item. *)
Definition entry_of (item : text_item) : text_entry :=
  mkTextEntry (ti_path item) (CStr (ti_content item)) (ti_is_threat item).



(** Two file records in the object form, with the same text. *)
Definition object_texts : list record :=
  [ mkRecord (Some "x.txt") "file" (Some (CDict [("text", "meet at the dock")])) None;
    mkRecord (Some "y.txt") "file" (Some (CDict [("text", "meet at the dock")])) None ].

(** Jaccard similarity of two texts: the size of the intersection of their
    word sets over the size of the union. *)
Definition jaccard (text1 text2 : string) : Q :=
  (Z.of_nat (List.length (intersection (words text1) (words text2)))
   # Pos.of_nat (List.length (union (words text1) (words text2))))%Q.

Definition nonempty {A} (l : list A) : bool :=
  match l with
  | [] => false
  | _ :: _ => true
  end.

(** How often the key [k] is counted by the double loop over the tag lists
    of the files, and on how many files two tags are found together. *)
Definition occurrences (k : string * string) (l : list (string * string)) : nat :=
  List.length (filter (pair_eqb k) l).

Definition all_pairs (file_to_tags : dict string (list string))
  : list (string * string) :=
  flat_map (fun ft => tag_pairs (snd ft)) file_to_tags.

Definition files_holding (a b : string) (file_to_tags : dict string (list string)) : nat :=
  List.length (filter (fun ft => mem a (snd ft) && mem b (snd ft)) file_to_tags).

(** The tags of the records that carry the path [p], in record order. *)
Definition on_path (p : string) (item : record) : bool :=
  match path item with
  | Some q => String.eqb p q
  | None => false
  end.

Definition tags_on (p : string) (recs : list record) : list string :=
  flat_map item_tags (filter (on_path p) recs).

(** A [defaultdict(list)] entry after more elements were appended. *)
Definition extended (o : option (list string)) (l : list string) : option (list string) :=
  match o with
  | Some x => Some (x ++ l)
  | None => if nonempty l then Some l else None
  end.

(** The analyzer after the categorizer has gone through the records [l],
    numbered from [k]. *)
Definition classified (k : nat) (l : list record) (st : analyzer) : analyzer :=
  mkAnalyzer (data st)
    (threat_items st ++ positions Threat k l)
    (safe_items st ++ positions Safe k l)
    (correlations st) (tag_graph st).

(** What the loop of the categorizer returns on [recs]. *)
Definition loop_outcome (recs : list record) : outcome unit :=
  if forallb has_path recs then Return tt else Raise (KeyError "path").

(** The two records of the worked example. *)
Definition two_records : list record :=
  [ mkRecord (Some "a_threat.txt") "file" (Some (CStr "planning an attack")) (Some ["rifle"; "mask"]);
    mkRecord (Some "b_safe.txt") "file" (Some (CStr "grocery list")) (Some ["food"]) ].


(** A record with a path followed by a record without one. *)
Definition second_malformed : list record :=
  [ mkRecord (Some "a_threat.txt") "file" None None;
    mkRecord None "file" None None ].

(** A single record without tags. *)
Definition one_record : list record :=
  [ mkRecord (Some "a.txt") "file" None None ].

(** The graph of the two records of the worked example. *)
Definition example_graph : graph :=
  mkGraph
    [ ("a_threat.txt", FileNode "file" true); ("rifle", TagNode); ("mask", TagNode);
      ("b_safe.txt", FileNode "file" false); ("food", TagNode) ]
    [ ("a_threat.txt", "rifle"); ("a_threat.txt", "mask"); ("b_safe.txt", "food") ].

(** One record whose tag list repeats a tag. *)
Definition repeated_tag : list record :=
  [ mkRecord (Some "f.txt") "file" None (Some ["a"; "b"; "a"]) ].


End Spec.

Module WowSpec.
Import Py Re Wow.

(** The pattern that the table holds for "recruitment" and "rifle": the two
    source literals joined. *)
Definition merged_pattern : string := ("\brecruitment\b" ++ "\brifle\b")%string.

(** The entities of one type found in a text. *)
Definition found (label : string) (r : regex) (text : string) : list entity :=
  map (mkEntity label) (findall false r text).

(** A sixteen-digit number written in four groups. *)
Definition card_text : string := "1234-5678-9012-3456".

End WowSpec.

Module MatchSpec.
Import Py Re Wow.

(** The least and the greatest number of characters a pattern can take
    ([None]: no bound). *)
Fixpoint min_len (r : regex) : nat :=
  match r with
  | Eps | WordB => 0
  | Lit _ | Class _ => 1
  | Cat r1 r2 => min_len r1 + min_len r2
  | Repeat r0 lo _ _ => lo * min_len r0
  end.

Fixpoint max_len (r : regex) : option nat :=
  match r with
  | Eps | WordB => Some 0
  | Lit _ | Class _ => Some 1
  | Cat r1 r2 =>
      match max_len r1, max_len r2 with
      | Some a, Some b => Some (a + b)
      | _, _ => None
      end
  | Repeat r0 lo hi _ =>
      match max_len r0, hi with
      | Some a, Some h => Some (Nat.max lo h * a)
      | _, _ => None
      end
  end.

(** The matcher went from [cur] to [cur'] over the text [s], whose length
    lies between [lo] and [hi]. *)
Definition reaches (lo : nat) (hi : option nat) (cur cur' : cursor) : Prop :=
  exists s : string,
    after cur = (s ++ after cur')%string /\
    consumed cur' = consumed cur + String.length s /\
    lo <= String.length s /\
    (forall M, hi = Some M -> String.length s <= M).

(** The literal text of a pattern made of characters and [\b] only. *)
Fixpoint lits_of (r : regex) : option string :=
  match r with
  | Eps => Some EmptyString
  | Cat (Lit a) r2 => option_map (String a) (lits_of r2)
  | Cat WordB r2 => lits_of r2
  | _ => None
  end.

(** The words of the keyword table, in lower case. *)
Definition vocabulary : list string :=
  flat_map
    (fun cp =>
       flat_map (fun pat => match lits_of (parse pat) with
                            | Some w => [lower w]
                            | None => []
                            end)
                (snd cp))
    THREAT_KEYWORDS.

(** The keyword matches of one category, pattern after pattern. *)
Definition matches_of (text : string) (cp : string * list regex) : list string :=
  flat_map (fun pat => findall true pat text) (snd cp).

(** The summed length of a list of strings. *)
Definition total_length (l : list string) : nat := list_sum (map String.length l).

End MatchSpec.

(* ================================================================== *)
(** * Further statements about the two scripts *)
(* ================================================================== *)

Module MoreSpec.
Import Py Re Rar Spec.

(** The paths appended to [tag_to_files[t]]: one per occurrence of the tag
    [t] in the tag list of a record, in record order. *)
Definition files_of (t : string) (recs : list record) : list string :=
  flat_map
    (fun item => map (fun _ => get_default "" (path item))
                     (filter (String.eqb t) (item_tags item)))
    recs.

(** A content in lower case: the string, or every field value of the
    object. *)
Definition lower_content (c : content_value) : content_value :=
  match c with
  | CStr s => CStr (lower s)
  | CDict fields => CDict (map (fun kv => (fst kv, lower (snd kv))) fields)
  end.

(** A record with its path and its content in lower case. *)
Definition lower_record (item : record) : record :=
  mkRecord (option_map lower (path item)) (type item)
           (option_map lower_content (content item)) (tags item).

(** The two loop bodies of [build_tag_graph]: one tag of a record, and one
    record. *)
Definition tag_step (file_path : string) (G : graph) (tag : string) : graph :=
  let G' := if has_node tag G then G else add_node tag TagNode G in
  add_edge file_path tag G'.

Definition graph_step (st : analyzer) (G : graph) (entry : nat * record)
  : outcome graph :=
  try file_path <- item_path (snd entry) ;
  let is_threat := mem_nat (fst entry) (threat_items st) in
  let G1 := add_node file_path (FileNode (type (snd entry)) is_threat) G in
  Return (fold_left (tag_step file_path) (item_tags (snd entry)) G1).

(** An undirected edge with its two ends in string order. *)
Definition normalize (e : string * string) : string * string :=
  sorted_pair (fst e) (snd e).

(** The names that become nodes (the path of each record, then its tags)
    and the (path, tag) memberships that become edges. *)
Definition names_of (recs : list record) : list string :=
  flat_map (fun item => get_default "" (path item) :: item_tags item) recs.

Definition memberships_of (recs : list record) : list (string * string) :=
  flat_map (fun item => map (pair (get_default "" (path item))) (item_tags item)) recs.

(** Sum of the degrees of the nodes of a graph. *)
Definition degree_sum (G : graph) : nat :=
  list_sum (map (fun na => degree G (fst na)) (nodes G)).

(** The graph holds the names [N] as nodes, each once, and the memberships
    [M] as edges, each once whatever the direction. *)
Definition holds (N : list string) (M : list (string * string)) (G : graph) : Prop :=
  NoDup (map fst (nodes G)) /\
  (forall n, has_node n G = true <-> In n N) /\
  (forall u v, In (u, v) (edges G) -> In (u, v) M) /\
  (forall u v, In (u, v) M -> existsb (same_edge u v) (edges G) = true) /\
  NoDup (map normalize (edges G)).

(** The loop body of [analyze_threats]. *)
Definition threat_step (st : analyzer) (ta : threat_analysis_t) (idx : nat)
  : outcome threat_analysis_t :=
  try item <- data_at st idx ;
  let types := incr String.eqb (type item) (ta_types ta) in
  let tgs := fold_left (fun c tag => incr String.eqb tag c) (item_tags item) (ta_tags ta) in
  try p <- item_path item ;
  Return (mkThreatAnalysis (ta_count ta) types tgs
            (ta_files ta ++ [mkThreatFile p (type item) (item_tags item)])).

(** The total of a counter. *)
Definition total {K} (c : dict K nat) : nat := list_sum (map snd c).

(** The records at the positions [idxs] of [d]. *)
Definition records_at (d : list record) (idxs : list nat) : list record :=
  flat_map (fun idx => match nth_error d idx with Some item => [item] | None => [] end) idxs.

(** A method that leaves the analyzer as it is, whether it returns or
    raises. *)
Definition reads_only {A} (m : M A) : Prop := forall st, fst (m st) = st.

(** The loop body of [extract_date_patterns], and the date read from a
    path: the first [YYYY-MM-DD] token, when it is a calendar date. *)
Definition date_step (fd : dict string (nat * nat * nat)) (item : record)
  : outcome (dict string (nat * nat * nat)) :=
  try p <- item_path item ;
  match findall false DATE_RE p with
  | m0 :: _ =>
      match strptime m0 with
      | Some date => Return (assign p date fd)
      | None => Return fd
      end
  | [] => Return fd
  end.

Definition date_of (p : string) : option (nat * nat * nat) :=
  match findall false DATE_RE p with
  | m0 :: _ => strptime m0
  | [] => None
  end.

(** What the graph builder knows about the attributes of its nodes after
    the entries [seen]: a tag node is no path of theirs, a file node carries
    the type and the threat flag of one of them, and their paths are nodes. *)
Definition attrs_ok (st : analyzer) (seen : list (nat * record)) (G : graph) : Prop :=
  (forall n, lookup String.eqb n (nodes G) = Some TagNode ->
             forall e, In e seen -> path (snd e) <> Some n) /\
  (forall n ft b, lookup String.eqb n (nodes G) = Some (FileNode ft b) ->
                  exists e, In e seen /\ path (snd e) = Some n /\
                            ft = type (snd e) /\
                            b = mem_nat (fst e) (threat_items st)) /\
  (forall e p, In e seen -> path (snd e) = Some p -> has_node p G = true).

(** How many ends of the edge [e] the node [n] is. *)
Definition ends (n : string) (e : string * string) : nat :=
  (if String.eqb n (fst e) then 1 else 0) + (if String.eqb n (snd e) then 1 else 0).

(** [x] ranks at least as high as [y]. *)
Definition above (x y : string * Q) : Prop := (snd y <= snd x)%Q.

(** A session that has run the pipeline on two records and then loaded
    one other record. *)
Definition stale_session : analyzer :=
  fst (load_json_data one_record
         (fst (process_metadata (fun _ => Return []) two_records fresh))).

(** Records with dated and undated file names. *)
Definition dated_records : list record :=
  [ mkRecord (Some "log_2024-02-29.txt") "file" None None;
    mkRecord (Some "log_2023-02-29.txt") "file" None None;
    mkRecord (Some "notes.txt") "file" None None;
    mkRecord (Some "log_2024-02-29.txt") "file" None None;
    mkRecord (Some "scan_0999-12-31.png") "image" None None ].

(** Equality of pairs of names is decidable. *)
Definition pair_dec (x y : string * string) : {x = y} + {x <> y}.
Proof. decide equality; apply string_dec. Defined.

(** A lower-case letter or a space: [repr] leaves such a character, and
    its upper-case form, as it is. *)
Definition plain (c : ascii) : bool :=
  in_range 97 122 (ord c) || (ord c =? 32)%N.

Fixpoint all_plain (s : string) : bool :=
  match s with
  | EmptyString => true
  | String c s' => plain c && all_plain s'
  end.

(** [w] occurs in [s]. *)
Definition occurs (w s : string) : Prop :=
  exists pre post, s = (pre ++ w ++ post)%string.

End MoreSpec.

(* ================================================================== *)
(** * Proofs: the categorizer *)
(* ================================================================== *)

Module RarFacts.
Import Py Rar Spec.

Lemma keeps_ret {A} (a : A) : keeps_partition (ret a).
Proof. intro st; split; reflexivity. Qed.

Lemma keeps_raise {A} (e : exn) : keeps_partition (@raise A e).
Proof. intro st; split; reflexivity. Qed.

Lemma keeps_lift {A} (o : outcome A) : keeps_partition (lift o).
Proof. intro st; split; reflexivity. Qed.

Lemma keeps_self : keeps_partition self.
Proof. intro st; split; reflexivity. Qed.

Lemma keeps_modify (f : analyzer -> analyzer) :
  (forall st, threat_items (f st) = threat_items st /\ safe_items (f st) = safe_items st) ->
  keeps_partition (modify f).
Proof. intros H st; exact (H st). Qed.

Lemma keeps_bind {A B} (m : M A) (f : A -> M B) :
  keeps_partition m -> (forall a, keeps_partition (f a)) -> keeps_partition (bind m f).
Proof.
  intros Hm Hf st. unfold bind.
  specialize (Hm st). destruct (m st) as [st' [a | e]]; simpl in *.
  - destruct (Hf a st') as [H1 H2]. destruct Hm as [H3 H4].
    split; congruence.
  - exact Hm.
Qed.

Lemma keeps_set_correlations c : keeps_partition (modify (set_correlations c)).
Proof. apply keeps_modify; intro st; split; reflexivity. Qed.

Lemma keeps_set_tag_graph g : keeps_partition (modify (set_tag_graph g)).
Proof. apply keeps_modify; intro st; split; reflexivity. Qed.

Create HintDb keeps.
#[local] Hint Resolve keeps_ret keeps_raise keeps_lift keeps_self
  keeps_set_correlations keeps_set_tag_graph : keeps.

Ltac keeps_tac :=
  repeat first
    [ apply keeps_bind; [ | intro ]
    | solve [ auto with keeps ]
    | match goal with
      | |- keeps_partition (match ?x with _ => _ end) => destruct x
      | |- keeps_partition (if ?x then _ else _) => destruct x
      end ].

Lemma keeps_find_tag_correlations : keeps_partition find_tag_correlations.
Proof. unfold find_tag_correlations. keeps_tac. Qed.

Lemma keeps_build_tag_graph gmc : keeps_partition (build_tag_graph gmc).
Proof. unfold build_tag_graph. keeps_tac. Qed.

Lemma keeps_analyze_content : keeps_partition analyze_content.
Proof. unfold analyze_content. keeps_tac. Qed.

#[local] Hint Resolve keeps_find_tag_correlations keeps_build_tag_graph
  keeps_analyze_content : keeps.

Lemma keeps_generate_threat_report gmc : keeps_partition (generate_threat_report gmc).
Proof. unfold generate_threat_report. keeps_tac. Qed.

(** ** The loop of [_categorize_items] *)

Lemma classified_nil k st : classified k [] st = st.
Proof.
  unfold classified; simpl. rewrite !app_nil_r. destruct st; reflexivity.
Qed.

Lemma categorize_item_run idx item st :
  categorize_item (idx, item) st
  = match path item with
    | Some p =>
        (match decide_label p item with
         | Threat => append_threat idx st
         | Safe => append_safe idx st
         end, Return tt)
    | None => (st, Raise (KeyError "path"))
    end.
Proof.
  unfold categorize_item, bind, lift, item_path.
  destruct (path item) as [p |]; [| reflexivity].
  destruct (decide_label p item); reflexivity.
Qed.

Lemma categorize_loop (recs : list record) : forall k st,
  for_each categorize_item (combine (seq k (List.length recs)) recs) st
  = (classified k (well_formed_prefix recs) st, loop_outcome recs).
Proof.
  induction recs as [| item recs IH]; intros k st.
  - simpl. rewrite classified_nil. reflexivity.
  - change (for_each categorize_item
              (combine (seq k (List.length (item :: recs))) (item :: recs)) st)
      with (bind (categorize_item (k, item))
              (fun _ => for_each categorize_item
                          (combine (seq (S k) (List.length recs)) recs)) st).
    unfold bind. rewrite categorize_item_run.
    assert (Hl : forall p, path item = Some p -> label_of item = decide_label p item).
    { intros p Hp. unfold label_of. rewrite Hp. reflexivity. }
    unfold loop_outcome. simpl. unfold has_path at 1 2.
    destruct (path item) as [p |] eqn:Hp.
    + rewrite IH. unfold loop_outcome. simpl andb.
      unfold classified at 2. simpl positions. rewrite (Hl p eq_refl).
      destruct (decide_label p item); unfold classified; simpl;
        rewrite <- !app_assoc; reflexivity.
    + rewrite classified_nil. reflexivity.
Qed.

Lemma load_json_data_run (recs : list record) (st : analyzer) :
  load_json_data recs st
  = (classified 0 (well_formed_prefix recs) (set_data recs st), loop_outcome recs).
Proof.
  unfold load_json_data, _categorize_items, bind, modify, self, lift. simpl.
  unfold enumerate. apply categorize_loop.
Qed.

Lemma well_formed_prefix_all recs :
  forallb has_path recs = true -> well_formed_prefix recs = recs.
Proof.
  induction recs as [| item recs IH]; simpl; intro H; [reflexivity |].
  apply andb_true_iff in H. destruct H as [H1 H2].
  rewrite H1, IH by assumption. reflexivity.
Qed.

Lemma well_formed_prefix_length recs :
  forallb has_path recs = false ->
  List.length (well_formed_prefix recs) < List.length recs.
Proof.
  induction recs as [| item recs IH]; simpl; intro H; [discriminate |].
  destruct (has_path item); simpl in *; [ apply IH in H | ]; lia.
Qed.

Lemma positions_range lbl l : forall k i,
  In i (positions lbl k l) -> k <= i < k + List.length l.
Proof.
  induction l as [| item l IH]; simpl; intros k i H; [contradiction |].
  destruct (label_eqb (label_of item) lbl).
  - destruct H as [<- | H]; [lia | apply IH in H; lia].
  - apply IH in H; lia.
Qed.

Lemma positions_cover l : forall k i,
  k <= i < k + List.length l ->
  In i (positions Threat k l) \/ In i (positions Safe k l).
Proof.
  induction l as [| item l IH]; simpl; intros k i H; [lia |].
  destruct (Nat.eq_dec i k) as [-> | Hne].
  - destruct (label_of item); simpl; auto.
  - destruct (IH (S k) i ltac:(lia)) as [H1 | H1];
      destruct (label_of item); simpl; auto.
Qed.

Lemma positions_disjoint l : forall k i,
  In i (positions Threat k l) -> ~ In i (positions Safe k l).
Proof.
  induction l as [| item l IH]; simpl; intros k i H; [contradiction |].
  destruct (label_of item); simpl in *.
  - destruct H as [<- | H].
    + intro H'. apply positions_range in H'. lia.
    + apply IH; assumption.
  - intros [<- | H'].
    + apply positions_range in H. lia.
    + revert H'. apply IH; assumption.
Qed.

Lemma positions_NoDup lbl l : forall k, NoDup (positions lbl k l).
Proof.
  induction l as [| item l IH]; simpl; intro k; [constructor |].
  destruct (label_eqb (label_of item) lbl); [| apply IH].
  constructor; [| apply IH].
  intro H. apply positions_range in H. lia.
Qed.

Lemma Forall_has_path recs :
  Forall (fun r => path r <> None) recs -> forallb has_path recs = true.
Proof.
  induction 1 as [| item recs H _ IH]; simpl; [reflexivity |].
  rewrite IH, andb_true_r. unfold has_path. destruct (path item); congruence.
Qed.

Lemma Exists_no_path recs :
  Exists (fun r => path r = None) recs -> forallb has_path recs = false.
Proof.
  induction 1 as [item recs H | item recs _ IH]; simpl.
  - unfold has_path. rewrite H. reflexivity.
  - rewrite IH. apply andb_false_r.
Qed.

(** C1.  A record sequence in which every record has a path, loaded into a
    fresh analyzer, is split by the categorizer into a threat index list and
    a safe index list that share no index, hold no index twice, and together
    hold exactly the indices of the sequence; and tag correlation, graph
    building, content analysis and report generation leave both lists as
    they are, whatever they return. *)
Theorem C1_partition_law (recs : list record) :
  Forall (fun r => path r <> None) recs ->
  let st := fst (load_json_data recs fresh) in
  snd (load_json_data recs fresh) = Return tt /\
  (forall i, In i (threat_items st) -> ~ In i (safe_items st)) /\
  (forall i, In i (threat_items st) \/ In i (safe_items st) <-> i < List.length recs) /\
  NoDup (threat_items st) /\ NoDup (safe_items st) /\
  keeps_partition find_tag_correlations /\
  (forall gmc, keeps_partition (build_tag_graph gmc)) /\
  keeps_partition analyze_content /\
  (forall gmc, keeps_partition (generate_threat_report gmc)).
Proof.
  intros Hall st. subst st.
  rewrite load_json_data_run. simpl.
  apply Forall_has_path in Hall.
  unfold loop_outcome. rewrite Hall, (well_formed_prefix_all _ Hall).
  repeat split.
  - apply positions_disjoint.
  - intros [H | H]; apply positions_range in H; lia.
  - intro H. apply positions_cover. lia.
  - apply positions_NoDup.
  - apply positions_NoDup.
  - apply keeps_find_tag_correlations.
  - apply keeps_find_tag_correlations.
  - apply keeps_build_tag_graph.
  - apply keeps_build_tag_graph.
  - apply keeps_analyze_content.
  - apply keeps_analyze_content.
  - apply keeps_generate_threat_report.
  - apply keeps_generate_threat_report.
Qed.

Lemma C1_partition_law_witness :
  Forall (fun r => path r <> None) two_records /\
  threat_items (fst (load_json_data two_records fresh)) = [0] /\
  safe_items (fst (load_json_data two_records fresh)) = [1] /\
  (forall i, In i (threat_items (fst (load_json_data two_records fresh)))
             \/ In i (safe_items (fst (load_json_data two_records fresh)))
             <-> i < 2).
Proof.
  assert (H : Forall (fun r => path r <> None) two_records)
    by (repeat constructor; discriminate).
  split; [exact H |].
  split; [reflexivity |]. split; [reflexivity |].
  exact (proj1 (proj2 (proj2 (C1_partition_law two_records H)))).
Defined.





(** C9, as stated, fails: when the second record has no path, the failed
    load leaves the first record classified. *)
Lemma C9_no_partial_classification_counterexample :
  ~ (forall recs : list record,
       Exists (fun r => path r = None) recs ->
       (exists e, snd (load_json_data recs fresh) = Raise e) /\
       threat_items (fst (load_json_data recs fresh)) = [] /\
       safe_items (fst (load_json_data recs fresh)) = []).
Proof.
  intro H.
  destruct (H second_malformed) as (_ & Ht & _).
  - apply Exists_cons_tl. apply Exists_cons_hd. reflexivity.
  - discriminate Ht.
Qed.

(** C9, amended.  On a record sequence that holds a record without a path,
    loading into a fresh analyzer raises [KeyError] for [path]; the records
    before the first such record have been classified by then (their
    indices are split between the two lists, each in one of them), and no
    index from that record on is in either list.  When the first record
    itself has no path both lists are empty. *)
Theorem C9_categorization_stops_at_malformed (recs : list record) :
  Exists (fun r => path r = None) recs ->
  let st := fst (load_json_data recs fresh) in
  let k := List.length (well_formed_prefix recs) in
  snd (load_json_data recs fresh) = Raise (KeyError "path") /\
  k < List.length recs /\
  nth_error (map path recs) k = Some None /\
  (forall i, In i (threat_items st) \/ In i (safe_items st) <-> i < k) /\
  (forall i, In i (threat_items st) -> ~ In i (safe_items st)) /\
  (k = 0 -> threat_items st = [] /\ safe_items st = []).
Proof.
  intros Hex st k. subst st k.
  rewrite load_json_data_run. simpl.
  apply Exists_no_path in Hex.
  unfold loop_outcome. rewrite Hex.
  split; [reflexivity |].
  split; [apply well_formed_prefix_length; assumption |].
  split.
  { revert Hex. induction recs as [| item recs IH]; simpl; intro Hex.
    - discriminate Hex.
    - unfold has_path in *. destruct (path item) eqn:Hp; simpl.
      + apply IH. exact Hex.
      + reflexivity. }
  split; [| split].
  - intro i. split.
    + intros [H | H]; apply positions_range in H; lia.
    + intro H. apply positions_cover. lia.
  - apply positions_disjoint.
  - intro H0. apply length_zero_iff_nil in H0. rewrite H0. split; reflexivity.
Qed.

Lemma C9_categorization_stops_at_malformed_witness :
  Exists (fun r => path r = None) second_malformed /\
  snd (load_json_data second_malformed fresh) = Raise (KeyError "path") /\
  threat_items (fst (load_json_data second_malformed fresh)) = [0].
Proof.
  assert (H : Exists (fun r => path r = None) second_malformed)
    by (apply Exists_cons_tl; apply Exists_cons_hd; reflexivity).
  split; [exact H |].
  split; [| reflexivity].
  exact (proj1 (C9_categorization_stops_at_malformed second_malformed H)).
Defined.

End RarFacts.

(* ================================================================== *)
(** * Proofs: the keyword / entity matcher *)
(* ================================================================== *)

Module WowFacts.
Import Py Re Wow WowSpec.

(** ** Patterns that cannot match *)

Lemma is_word_lower_char (c : ascii) : is_word (lower_char c) = is_word c.
Proof. destruct c as [[] [] [] [] [] [] [] []]; vm_compute; reflexivity. Qed.

Lemma lit_match_word (a x : ascii) :
  lit_match true a x = true -> is_word x = is_word a.
Proof.
  unfold lit_match. intro H. apply Ascii.eqb_eq in H.
  rewrite <- (is_word_lower_char x), <- H. apply is_word_lower_char.
Qed.

Lemma take_fails ok k cur :
  (forall c, k c = None) -> take ok k cur = None.
Proof.
  intro H. unfold take. destruct (after cur); [reflexivity |].
  destruct (ok a); [apply H | reflexivity].
Qed.

Lemma exec_lit_fails ic a r k :
  (forall c, exec ic r k c = None) -> forall c, exec ic (Cat (Lit a) r) k c = None.
Proof. intros H c. simpl. apply take_fails. exact H. Qed.

Lemma exec_wordb_fails ic r k :
  (forall c, exec ic r k c = None) -> forall c, exec ic (Cat WordB r) k c = None.
Proof. intros H c. simpl. destruct (at_boundary c); [apply H | reflexivity]. Qed.

Lemma scan_no_match ic r :
  (forall prev rest, match_at ic r prev rest = None) ->
  forall rest prev, scan ic r prev rest 0 = [].
Proof.
  intros H rest. induction rest as [| c rest IH]; intro prev; simpl; rewrite H.
  - reflexivity.
  - apply IH.
Qed.

Lemma merged_pattern_in_table :
  In ("Terrorism", ["\bbomb\b"; "\battack\b"; "\bisis\b"; merged_pattern]) THREAT_KEYWORDS.
Proof. unfold THREAT_KEYWORDS, merged_pattern. simpl. tauto. Qed.

Lemma merged_pattern_never_matches (text : string) :
  findall true (parse merged_pattern) text = [].
Proof.
  unfold findall. apply scan_no_match. intros prev rest. unfold match_at.
  generalize (mkCursor prev rest 0). generalize (fun c : cursor => Some (consumed c)).
  intros k.
  change (parse merged_pattern) with
    (Cat WordB (Cat (Lit "r") (Cat (Lit "e") (Cat (Lit "c") (Cat (Lit "r")
     (Cat (Lit "u") (Cat (Lit "i") (Cat (Lit "t") (Cat (Lit "m") (Cat (Lit "e")
     (Cat (Lit "n")
       (Cat (Lit "t") (Cat WordB (Cat WordB (Cat (Lit "r") (parse "ifle\b")))))))))))))))).
  apply exec_wordb_fails.
  do 10 apply exec_lit_fails.
  intro c. simpl. unfold take at 1.
  destruct (after c) as [| x s]; [reflexivity |].
  destruct (lit_match true "t" x) eqn:Hx; [| reflexivity].
  apply lit_match_word in Hx.
  unfold at_boundary. cbn [before after word_opt]. rewrite Hx.
  change (is_word "t") with true.
  destruct s as [| y s']; cbn [next_char word_opt xorb]; [reflexivity |].
  destruct (is_word y) eqn:Hy; cbn [xorb]; [reflexivity |].
  unfold take at 1. cbn [after].
  destruct (lit_match true "r" y) eqn:Hm; [| reflexivity].
  apply lit_match_word in Hm. rewrite Hy in Hm. discriminate Hm.
Qed.

(** ** The score *)

(** C3.  For every entry the matcher's score is the number of keyword
    matches plus twice the number of entities found in its text, and the
    entry is flagged exactly when the score is positive; an entry whose
    content is absent, is the empty text, or is an object with no text or an
    empty text, gets no keyword, no entity, score 0 and no flag. *)
Theorem C3_score (e : entry) :
  let r := analyze_entry e in
  let t := entry_text e in
  keywords (predicted_threats r) = snd (detect_keywords t) /\
  entities r = detect_entities t /\
  score (predicted_threats r)
  = List.length (snd (detect_keywords t)) + 2 * List.length (detect_entities t) /\
  (threat_detected (predicted_threats r) = true <-> 0 < score (predicted_threats r)) /\
  Forall
    (fun c =>
       let r0 := analyze_entry (mkEntry (path e) (file_path e) c) in
       text r0 = "" /\ keywords (predicted_threats r0) = [] /\ entities r0 = [] /\
       score (predicted_threats r0) = 0 /\
       threat_detected (predicted_threats r0) = false /\
       summary (predicted_threats r0) = "No threats detected.")
    [Absent; Text ""; Object None; Object (Some "")].
Proof.
  intros r t. subst r t. unfold analyze_entry.
  destruct (detect_keywords (entry_text e)) as [cats keys] eqn:Hk. simpl.
  split; [reflexivity |]. split; [reflexivity |]. split; [reflexivity |].
  split; [apply Nat.ltb_lt |].
  repeat constructor.
Qed.

(** C7.  The code does not do what the claim asks: on the text
    "recruitment" no keyword is matched and no category is triggered, and
    the entry is not flagged, although the pattern [\brecruitment\b] alone
    matches; the joined pattern of the table matches no text at all. *)
Theorem C7_recruitment_not_detected :
  detect_keywords "recruitment" = ([], []) /\
  threat_detected (predicted_threats
                     (analyze_entry (mkEntry None None (Text "recruitment")))) = false /\
  findall true (parse "\brecruitment\b") "recruitment" = ["recruitment"] /\
  (forall text, findall true (parse merged_pattern) text = []).
Proof.
  split; [vm_compute; reflexivity |].
  split; [vm_compute; reflexivity |].
  split; [vm_compute; reflexivity |].
  exact merged_pattern_never_matches.
Qed.

(** ** Entities *)

Lemma fold_append_entities label ms : forall ents,
  fold_left (fun ents m => ents ++ [mkEntity label m]) ms ents
  = ents ++ map (mkEntity label) ms.
Proof.
  induction ms as [| m ms IH]; intro ents; simpl.
  - symmetry. apply app_nil_r.
  - rewrite IH, <- app_assoc. reflexivity.
Qed.

Lemma detect_entities_all (text : string) :
  detect_entities text
  = found "email" EMAIL_RE text ++ found "url" URL_RE text
    ++ found "phone" PHONE_RE text ++ found "credit_card" CREDIT_CARD_RE text.
Proof.
  unfold detect_entities, found. simpl.
  rewrite !fold_append_entities. simpl. rewrite <- !app_assoc. reflexivity.
Qed.

(** C10.  On the text "1234-5678-9012-3456" the phone pattern reports the
    first twelve digits and the card pattern reports the whole number, so
    the same digits appear in two entities of different types and the score
    is 4 without any keyword; and for every text the entity list is the
    matches of the four patterns one after the other, nothing removed, so
    every match adds 2 to the score. *)
Theorem C10_overlapping_entities :
  detect_entities card_text
  = [mkEntity "phone" "1234-5678-9012"; mkEntity "credit_card" "1234-5678-9012-3456"] /\
  prefix "1234-5678-9012" card_text = true /\
  score (predicted_threats (analyze_entry (mkEntry None None (Text card_text)))) = 4 /\
  (forall text,
     detect_entities text
     = found "email" EMAIL_RE text ++ found "url" URL_RE text
       ++ found "phone" PHONE_RE text ++ found "credit_card" CREDIT_CARD_RE text) /\
  (forall text num_keys,
     compute_score num_keys (List.length (detect_entities text))
     = num_keys
       + 2 * List.length (findall false EMAIL_RE text)
       + 2 * List.length (findall false URL_RE text)
       + 2 * List.length (findall false PHONE_RE text)
       + 2 * List.length (findall false CREDIT_CARD_RE text)).
Proof.
  split; [vm_compute; reflexivity |].
  split; [reflexivity |].
  split; [vm_compute; reflexivity |].
  split; [exact detect_entities_all |].
  intros text num_keys. rewrite detect_entities_all.
  unfold compute_score, found. rewrite !length_app, !length_map. lia.
Qed.

End WowFacts.

(* ================================================================== *)
(** * Proofs: the relationship graph and the report *)
(* ================================================================== *)

Module GraphFacts.
Import Py Rar Spec RarFacts.

Lemma build_tag_graph_run gmc st d G :
  data st = Some d -> make_graph st d = Return G ->
  build_tag_graph gmc st
  = match gmc G with
    | Return cs =>
        (set_tag_graph G st,
         Return (G, mkGraphStats (List.length (nodes G)) (List.length (edges G))
                      (firstn 5 (sorted_desc (degree_centrality G)))
                      (List.length cs)
                      (match cs with c :: _ => List.length c | [] => 0 end)))
    | Raise e => (set_tag_graph G st, Raise e)
    end.
Proof.
  intros Hd HG. unfold build_tag_graph, bind, self, lift, modify, data_of.
  rewrite Hd, HG. simpl. destruct (gmc G); reflexivity.
Qed.

Lemma small_graph_centrality G :
  List.length (nodes G) < 2 ->
  firstn 5 (sorted_desc (degree_centrality G)) = map (fun na => (fst na, 1%Q)) (nodes G).
Proof.
  unfold degree_centrality. destruct (nodes G) as [| n1 [| n2 l]]; simpl; intro H.
  - reflexivity.
  - reflexivity.
  - lia.
Qed.

(** C8, as stated, fails: a single record without tags gives a graph with
    one node, and whatever the community detection returns the top
    centrality list holds that node. *)
Lemma C8_degenerate_graph_counterexample :
  (exists G, make_graph (loaded one_record) one_record = Return G
             /\ List.length (nodes G) = 1) /\
  ~ (exists gmc G stats,
       snd (build_tag_graph gmc (loaded one_record)) = Return (G, stats) /\
       communities stats = 0 /\ top_central_nodes stats = []).
Proof.
  split.
  - eexists. split; reflexivity.
  - intros (gmc & G & stats & Hrun & _ & Htop).
    rewrite (build_tag_graph_run gmc (loaded one_record) one_record
               (mkGraph [("a.txt", FileNode "file" false)] []) eq_refl eq_refl) in Hrun.
    destruct (gmc _) as [cs | e]; simpl in Hrun; [| discriminate Hrun].
    injection Hrun as _ Hs. subst stats. simpl in Htop. discriminate Htop.
Qed.

(** C8, amended.  When the graph of the record set has fewer than two
    nodes, the builder stores the graph and hands it to the community
    detection; if that returns, the builder returns statistics whose
    community count is the number of communities returned and whose top
    centrality list holds every node of the graph with centrality 1 (no
    entry for the empty graph, one entry for a one-node graph); if it
    raises, the builder raises the same error. *)
Theorem C8_degenerate_graph gmc (st : analyzer) (d : list record) (G : graph) :
  data st = Some d -> make_graph st d = Return G -> List.length (nodes G) < 2 ->
  match gmc G with
  | Return cs =>
      exists stats,
        build_tag_graph gmc st = (set_tag_graph G st, Return (G, stats)) /\
        gs_nodes stats = List.length (nodes G) /\
        communities stats = List.length cs /\
        top_central_nodes stats = map (fun na => (fst na, 1%Q)) (nodes G) /\
        List.length (top_central_nodes stats) = List.length (nodes G)
  | Raise e => build_tag_graph gmc st = (set_tag_graph G st, Raise e)
  end.
Proof.
  intros Hd HG Hn. rewrite (build_tag_graph_run gmc st d G Hd HG).
  destruct (gmc G) as [cs | e]; [| reflexivity].
  eexists. split; [reflexivity |].
  cbn [gs_nodes communities top_central_nodes].
  rewrite (small_graph_centrality G Hn), length_map. repeat split; reflexivity.
Qed.

Lemma C8_degenerate_graph_witness :
  data (loaded one_record) = Some one_record /\
  (exists stats,
     snd (build_tag_graph (fun _ => Return [["a.txt"]]) (loaded one_record))
     = Return (mkGraph [("a.txt", FileNode "file" false)] [], stats) /\
     communities stats = 1 /\
     top_central_nodes stats = [("a.txt", 1%Q)]).
Proof.
  split; [reflexivity |].
  destruct (C8_degenerate_graph (fun _ => Return [["a.txt"]]) (loaded one_record)
              one_record (mkGraph [("a.txt", FileNode "file" false)] [])
              eq_refl eq_refl (Nat.lt_succ_diag_r 1))
    as (stats & Hrun & _ & Hc & Ht & _).
  exists stats. rewrite Hrun. repeat split; assumption.
Defined.

(** ** The two-record example *)

Lemma example_pipeline gmc :
  process_metadata gmc two_records fresh
  = match gmc example_graph with
    | Return cs =>
        let st := set_tag_graph example_graph
                    (set_correlations (mkCorrelations [] [(("mask", "rifle"), 1)])
                       (loaded two_records)) in
        (st,
         Return
           (mkResults
              (mkReport 2 1 1 ["rifle"; "mask"] []
                 [("attack", ["a_threat.txt"]); ("planning", ["a_threat.txt"])]
                 [(("mask", "rifle"), 1)] [] [])
              (mkCorrelations [] [(("mask", "rifle"), 1)])
              (mkContentAnalysis
                 [("attack", ["a_threat.txt"]); ("planning", ["a_threat.txt"])] [])
              (mkGraphStats 5 3
                 (firstn 5 (sorted_desc (degree_centrality example_graph)))
                 (List.length cs)
                 (match cs with c :: _ => List.length c | [] => 0 end))))
    | Raise e =>
        (set_tag_graph example_graph
           (set_correlations (mkCorrelations [] [(("mask", "rifle"), 1)])
              (loaded two_records)),
         Raise e)
    end.
Proof.
  unfold process_metadata.
  unfold bind at 1.
  replace (load_json_data two_records fresh)
    with (loaded two_records, @Return unit tt) by (vm_compute; reflexivity).
  unfold bind at 1.
  replace (find_tag_correlations (loaded two_records))
    with (set_correlations (mkCorrelations [] [(("mask", "rifle"), 1)]) (loaded two_records),
          Return (mkCorrelations [] [(("mask", "rifle"), 1)]))
    by (vm_compute; reflexivity).
  unfold bind at 1.
  rewrite (build_tag_graph_run gmc _ two_records example_graph)
    by (vm_compute; reflexivity).
  destruct (gmc example_graph) as [cs | e]; [| reflexivity].
  vm_compute. reflexivity.
Qed.

(** C6, as stated, fails: on the two records no run of the pipeline gives
    [related_files = ["a_threat.txt"]]; no tag is shared, so no file is
    related. *)
Lemma C6_example_counterexample :
  ~ (exists gmc st r,
       process_metadata gmc two_records fresh = (st, Return r) /\
       threat_items st = [0] /\ safe_items st = [1] /\
       shared_tags (tag_correlations r) = [] /\
       weapon_related_tags (threat_report r) = ["rifle"; "mask"] /\
       related_files (threat_report r) = ["a_threat.txt"]).
Proof.
  intros (gmc & st & r & Hrun & _ & _ & _ & _ & Hrel).
  rewrite example_pipeline in Hrun.
  destruct (gmc example_graph) as [cs | e]; [| discriminate Hrun].
  injection Hrun as _ Hr. subst r. discriminate Hrel.
Qed.

(** C6, amended.  On the two records the pipeline gives threat indices [0],
    safe indices [1], no shared tag, the weapon-related tags "rifle" and
    "mask", and no related file, whenever the community detection returns
    on the graph of the example; when it raises, the pipeline raises with
    the same two index lists. *)
Theorem C6_example gmc :
  let run := process_metadata gmc two_records fresh in
  threat_items (fst run) = [0] /\ safe_items (fst run) = [1] /\
  match gmc example_graph with
  | Return _ =>
      exists r, snd run = Return r /\
        shared_tags (tag_correlations r) = [] /\
        weapon_related_tags (threat_report r) = ["rifle"; "mask"] /\
        related_files (threat_report r) = []
  | Raise e => snd run = Raise e
  end.
Proof.
  intro run. subst run. rewrite example_pipeline.
  destruct (gmc example_graph) as [cs | e].
  - split; [reflexivity |]. split; [reflexivity |].
    eexists. split; [reflexivity |]. repeat split; reflexivity.
  - repeat split; reflexivity.
Qed.

End GraphFacts.

(* ================================================================== *)
(** * Proofs: content similarity *)
(* ================================================================== *)

Module ContentFacts.
Import Py Rar Spec RarFacts.

Lemma loaded_data recs : data (loaded recs) = Some recs.
Proof. unfold loaded. rewrite load_json_data_run. reflexivity. Qed.

Lemma loaded_threat_items recs :
  threat_items (loaded recs) = positions Threat 0 (well_formed_prefix recs).
Proof. unfold loaded. rewrite load_json_data_run. reflexivity. Qed.

Lemma any_threat_path_returns st d p :
  data st = Some d -> forallb has_path d = true ->
  forall idxs, (forall i, In i idxs -> i < List.length d) ->
  exists b, any_threat_path st p idxs = Return b.
Proof.
  intros Hd Hall idxs. induction idxs as [| idx idxs IH]; intro Hin; simpl.
  - eexists; reflexivity.
  - unfold data_at, data_of. rewrite Hd. simpl.
    destruct (nth_error d idx) as [item |] eqn:Hn.
    + simpl. assert (Hp : has_path item = true).
      { rewrite forallb_forall in Hall. apply Hall. eapply nth_error_In; eassumption. }
      unfold has_path in Hp. unfold item_path.
      destruct (path item) as [q |]; [| discriminate Hp]. simpl.
      destruct (String.eqb p q); [eexists; reflexivity |].
      apply IH. intros i Hi. apply Hin. right. exact Hi.
    + apply nth_error_None in Hn. specialize (Hin idx (or_introl eq_refl)). lia.
Qed.

Lemma text_contents_returns st :
  (forall p, exists b, any_threat_path st p (threat_items st) = Return b) ->
  forall l acc, forallb has_path l = true ->
  exists entries,
    ofold (add_text_item st) l acc = Return (acc ++ entries) /\
    map te_path entries = map (fun r => get_default "" (path r)) (filter is_text_record l) /\
    map te_content entries
    = map (fun r => get_default (CStr "") (content r)) (filter is_text_record l).
Proof.
  intros Hany l. induction l as [| item l IH]; intros acc Hall.
  - exists []. simpl. rewrite app_nil_r. repeat split; reflexivity.
  - simpl in Hall. apply andb_true_iff in Hall. destruct Hall as [Hp Hall].
    cbn [ofold filter]. unfold add_text_item at 1.
    change (String.eqb (type item) "file" && truthy_content item)
      with (is_text_record item).
    destruct (is_text_record item).
    + unfold has_path in Hp. unfold item_path.
      destruct (path item) as [p |] eqn:Hpath; [| discriminate Hp].
      cbn [obind]. destruct (Hany p) as [b Hb]. rewrite Hb. cbn [obind].
      destruct (IH (acc ++ [mkTextEntry p (get_default (CStr "") (content item)) b]) Hall)
        as (entries & Hrun & Hpaths & Hcontents).
      exists (mkTextEntry p (get_default (CStr "") (content item)) b :: entries).
      rewrite Hrun, <- app_assoc. cbn [map app te_path te_content].
      rewrite Hpaths, Hcontents, Hpath.
      repeat split; reflexivity.
    + cbn [obind]. apply IH. exact Hall.
Qed.

(** ** The two loops over the entries *)

Lemma keyword_loop_strings items : forall acc,
  ofold keyword_step (map entry_of items) acc
  = Return (fold_left
              (fun occ item =>
                 fold_left
                   (fun occ keyword =>
                      if contains keyword (lower (ti_content item))
                      then push keyword (ti_path item) occ else occ)
                   threat_keywords occ)
              items acc).
Proof.
  induction items as [| item items IH]; intro acc; [reflexivity |].
  cbn [map ofold fold_left]. unfold keyword_step at 1.
  unfold as_text, entry_of at 1. cbn [te_content te_path te_is_threat obind ti_content ti_path].
  apply IH.
Qed.

Lemma similarity_row_strings item1 rest : forall acc,
  ofold (similarity_row (entry_of item1)) (map entry_of rest) acc
  = Return (acc ++ flat_map (fun item2 => opt_list (compare_pair item1 item2)) rest).
Proof.
  induction rest as [| item2 rest IH]; intro acc.
  - cbn [map ofold flat_map]. rewrite app_nil_r. reflexivity.
  - cbn [map ofold flat_map]. unfold similarity_row at 1, compare_entries, as_text, entry_of.
    cbn [te_content te_path te_is_threat obind].
    destruct item1 as [p1 c1 t1], item2 as [p2 c2 t2].
    cbn [ti_path ti_content ti_is_threat].
    change (mkTextEntry p1 (CStr c1) t1) with (entry_of (mkTextItem p1 c1 t1)).
    rewrite IH, <- app_assoc. reflexivity.
Qed.

Lemma similarity_loop_strings items : forall acc,
  similarity_loop (map entry_of items) acc = Return (acc ++ content_similarity_of items).
Proof.
  induction items as [| item1 rest IH]; intro acc.
  - cbn [map similarity_loop content_similarity_of]. rewrite app_nil_r. reflexivity.
  - cbn [map similarity_loop content_similarity_of].
    rewrite similarity_row_strings. cbn [obind]. rewrite IH, <- app_assoc. reflexivity.
Qed.

Lemma keyword_loop_object entries :
  (exists e fields, In e entries /\ te_content e = CDict fields) ->
  forall acc, ofold keyword_step entries acc = Raise AttributeError.
Proof.
  induction entries as [| e entries IH]; intros (e0 & fields & Hin & Hc) acc.
  - destruct Hin.
  - cbn [ofold]. unfold keyword_step at 1, as_text.
    destruct (te_content e) as [s | f] eqn:He.
    + cbn [obind]. apply IH. destruct Hin as [-> | Hin]; [congruence |].
      exists e0, fields. split; assumption.
    + reflexivity.
Qed.

Lemma entries_strings entries :
  (forall e, In e entries -> exists s, te_content e = CStr s) ->
  exists items, entries = map entry_of items.
Proof.
  induction entries as [| e entries IH]; intro H.
  - exists []. reflexivity.
  - destruct (H e (or_introl eq_refl)) as (s & Hs).
    destruct IH as (items & ->); [intros e' He'; apply H; right; exact He' |].
    exists (mkTextItem (te_path e) s (te_is_threat e) :: items).
    cbn [map]. f_equal. unfold entry_of. cbn [ti_path ti_content ti_is_threat].
    rewrite <- Hs. destruct e; reflexivity.
Qed.

(** The contents collected are objects exactly for the object records. *)
Lemma object_entries (l : list record) :
  existsb is_object_record l = true <->
  exists c fields,
    In c (map (fun r => get_default (CStr "") (content r)) (filter is_text_record l)) /\
    c = CDict fields.
Proof.
  rewrite existsb_exists. split.
  - intros (r & Hin & Hobj). unfold is_object_record in Hobj.
    apply andb_true_iff in Hobj. destruct Hobj as [Ht Hc].
    destruct (content r) as [[s | fields] |] eqn:Hr; try discriminate Hc.
    exists (CDict fields), fields. split; [| reflexivity].
    apply in_map_iff. exists r. rewrite Hr. split; [reflexivity |].
    apply filter_In. split; assumption.
  - intros (c & fields & Hin & ->). apply in_map_iff in Hin.
    destruct Hin as (r & Hr & Hin). apply filter_In in Hin. destruct Hin as [Hin Ht].
    exists r. split; [exact Hin |]. unfold is_object_record. rewrite Ht.
    destruct (content r) as [[s | f] |]; cbn [get_default] in Hr; try discriminate Hr.
    reflexivity.
Qed.

(** What [analyze_content] does once the entries are known. *)
Lemma analyze_content_entries st d entries :
  data st = Some d -> text_contents st d = Return entries ->
  analyze_content st
  = (st, match keyword_loop entries with
         | Return occ =>
             match similarity_loop entries [] with
             | Return sims => Return (mkContentAnalysis occ sims)
             | Raise e => Raise e
             end
         | Raise e => Raise e
         end).
Proof.
  intros Hd Htc. unfold analyze_content, bind, self, lift, data_of, ret.
  rewrite Hd, Htc.
  destruct (keyword_loop entries); [| reflexivity].
  destruct (similarity_loop entries []); reflexivity.
Qed.

Lemma analyze_content_strings st d items :
  data st = Some d -> text_contents st d = Return (map entry_of items) ->
  analyze_content st
  = (st, Return (mkContentAnalysis (keyword_occurrences_of items)
                                   (content_similarity_of items))).
Proof.
  intros Hd Htc. rewrite (analyze_content_entries st d _ Hd Htc).
  unfold keyword_loop. rewrite keyword_loop_strings, similarity_loop_strings.
  reflexivity.
Qed.

Lemma analyze_content_object st d entries :
  data st = Some d -> text_contents st d = Return entries ->
  (exists e fields, In e entries /\ te_content e = CDict fields) ->
  analyze_content st = (st, Raise AttributeError).
Proof.
  intros Hd Htc Hobj. rewrite (analyze_content_entries st d _ Hd Htc).
  unfold keyword_loop. rewrite (keyword_loop_object entries Hobj). reflexivity.
Qed.



Lemma Qgtb_lt x y : Qgtb x y = true <-> (y < x)%Q.
Proof.
  unfold Qgtb. rewrite negb_true_iff. split.
  - intro H. apply Qnot_le_lt. intro Hle. apply Qle_bool_iff in Hle. congruence.
  - intro H. destruct (Qle_bool x y) eqn:Hb; [| reflexivity].
    apply Qle_bool_iff in Hb. apply Qlt_not_le in H. contradiction.
Qed.



Lemma compare_pair_spec a b :
  compare_pair a b
  = if nonempty (words (ti_content a)) && nonempty (words (ti_content b))
       && Qgtb (jaccard (ti_content a) (ti_content b)) (1 # 10)
    then Some (mkEdge (ti_path a) (ti_path b)
                 (jaccard (ti_content a) (ti_content b))
                 (intersection (words (ti_content a)) (words (ti_content b))))
    else None.
Proof.
  unfold compare_pair, jaccard.
  destruct (words (ti_content a)) as [| w1 ws1]; [reflexivity |].
  destruct (words (ti_content b)) as [| w2 ws2]; reflexivity.
Qed.





End ContentFacts.

(* ================================================================== *)
(** * Proofs: tag correlations *)
(* ================================================================== *)

Module DictFacts.
Import Py Rar Spec.

Section Keys.

Context {K V : Type} (eqb : K -> K -> bool).
Hypothesis eqb_spec : forall x y, reflect (x = y) (eqb x y).

Lemma lookup_update k k' dflt (f : V -> V) d :
  lookup eqb k (update eqb k' dflt f d)
  = if eqb k k' then Some (f (get_default dflt (lookup eqb k' d)))
    else lookup eqb k d.
Proof.
  induction d as [| [k0 v] d IH]; simpl.
  - destruct (eqb k k'); reflexivity.
  - destruct (eqb_spec k' k0) as [-> | Hne]; simpl.
    + destruct (eqb k k0); reflexivity.
    + rewrite IH. destruct (eqb_spec k k0) as [-> | Hne'].
      * destruct (eqb_spec k0 k'); [congruence | reflexivity].
      * reflexivity.
Qed.

Lemma keys_update k dflt (f : V -> V) d :
  map fst (update eqb k dflt f d)
  = match lookup eqb k d with
    | Some _ => map fst d
    | None => map fst d ++ [k]
    end.
Proof.
  induction d as [| [k0 v] d IH]; simpl; [reflexivity |].
  destruct (eqb k k0); simpl; [reflexivity |].
  rewrite IH. destruct (lookup eqb k d); reflexivity.
Qed.

Lemma lookup_None_keys k (d : dict K V) :
  lookup eqb k d = None -> ~ In k (map fst d).
Proof.
  induction d as [| [k0 v] d IH]; simpl; intro H.
  - intros [].
  - intros [H1 | H1].
    + subst k0. destruct (eqb_spec k k); [discriminate H | congruence].
    + destruct (eqb k k0); [discriminate H | exact (IH H H1)].
Qed.

Lemma NoDup_update k dflt (f : V -> V) d :
  NoDup (map fst d) -> NoDup (map fst (update eqb k dflt f d)).
Proof.
  intro H. rewrite keys_update.
  destruct (lookup eqb k d) eqn:Hl; [exact H |].
  apply NoDup_app; [exact H | repeat constructor; intros [] | ].
  intros x Hx [<- | []]. revert Hx. apply lookup_None_keys. exact Hl.
Qed.

End Keys.

Lemma pair_eqb_spec (p q : string * string) : reflect (p = q) (pair_eqb p q).
Proof.
  destruct p as [a b], q as [c d]. unfold pair_eqb. simpl.
  destruct (String.eqb_spec a c) as [-> | H1];
    destruct (String.eqb_spec b d) as [-> | H2]; constructor; congruence.
Qed.

End DictFacts.

Module CorrelationFacts.
Import Py Rar Spec RarFacts ContentFacts DictFacts.

(** ** The order of strings *)

Lemma ltb_irrefl x : String.ltb x x = false.
Proof.
  unfold String.ltb. destruct (String.compare x x) eqn:H; try reflexivity.
  pose proof (String.compare_antisym x x) as Ha. rewrite H in Ha. discriminate Ha.
Qed.

Lemma ltb_asym x y : String.ltb x y = true -> String.ltb y x = false.
Proof.
  unfold String.ltb. rewrite (String.compare_antisym x y).
  destruct (String.compare y x); simpl; congruence.
Qed.

Lemma ltb_connected x y : x <> y -> String.ltb x y = false -> String.ltb y x = true.
Proof.
  unfold String.ltb. rewrite (String.compare_antisym x y). intro Hne.
  destruct (String.compare y x) eqn:H; simpl; try congruence.
  apply String.compare_eq_iff in H. congruence.
Qed.

Lemma ltb_leb x y : String.ltb x y = true -> String.leb x y = true.
Proof. unfold String.ltb, String.leb. destruct (String.compare x y); congruence. Qed.

Lemma not_ltb_leb x y : String.ltb y x = false -> String.leb x y = true.
Proof.
  unfold String.ltb, String.leb. rewrite (String.compare_antisym x y).
  destruct (String.compare y x); simpl; congruence.
Qed.

Lemma sorted_pair_ordered x y : String.leb (fst (sorted_pair x y)) (snd (sorted_pair x y)) = true.
Proof.
  unfold sorted_pair. destruct (String.ltb y x) eqn:H; simpl.
  - apply ltb_leb. exact H.
  - apply not_ltb_leb. exact H.
Qed.

(** When [t] and [u] differ, their sorted pair is [(a, b)] exactly when
    [a < b] and the two tags are [a] and [b]. *)
Lemma sorted_pair_eqb a b t u :
  u <> t ->
  pair_eqb (a, b) (sorted_pair t u)
  = String.ltb a b
    && ((String.eqb t a && String.eqb u b) || (String.eqb t b && String.eqb u a)).
Proof.
  intro Hne. unfold sorted_pair.
  destruct (String.ltb u t) eqn:Hlt; unfold pair_eqb; cbn [fst snd];
    rewrite ?(String.eqb_sym a u), ?(String.eqb_sym b t),
            ?(String.eqb_sym a t), ?(String.eqb_sym b u);
    destruct (String.eqb_spec t a) as [Eta | Nta];
    destruct (String.eqb_spec u b) as [Eub | Nub];
    destruct (String.eqb_spec t b) as [Etb | Ntb];
    destruct (String.eqb_spec u a) as [Eua | Nua];
    subst; cbn [andb orb];
    rewrite ?andb_false_r, ?andb_true_r;
    try reflexivity; try congruence;
    first [ rewrite Hlt; reflexivity
          | rewrite (ltb_asym _ _ Hlt); reflexivity
          | rewrite ltb_irrefl; reflexivity
          | symmetry; apply ltb_connected; congruence
          | idtac ].
Qed.

(** ** Counting the pairs of one tag list *)

Lemma mem_In x l : mem x l = true <-> In x l.
Proof.
  unfold mem. rewrite existsb_exists. split.
  - intros (y & Hy & He). apply String.eqb_eq in He. subst y. exact Hy.
  - intro H. exists x. split; [exact H | apply String.eqb_refl].
Qed.

Lemma mem_not_In x l : ~ In x l -> mem x l = false.
Proof.
  intro H. destruct (mem x l) eqn:Hm; [| reflexivity].
  apply mem_In in Hm. contradiction.
Qed.

Lemma occurrences_app k l1 l2 :
  occurrences k (l1 ++ l2) = occurrences k l1 + occurrences k l2.
Proof. unfold occurrences. rewrite filter_app, length_app. reflexivity. Qed.

Lemma count_eq_NoDup c l :
  NoDup l ->
  List.length (filter (fun u => String.eqb u c) l) = if mem c l then 1 else 0.
Proof.
  induction 1 as [| x l Hx Hnd IH]; simpl; [reflexivity |].
  rewrite (String.eqb_sym c x).
  destruct (String.eqb_spec x c) as [-> | Hne]; simpl.
  - rewrite IH, (mem_not_In _ _ Hx). reflexivity.
  - exact IH.
Qed.

Lemma count_none {A} (l : list A) : List.length (filter (fun _ => false) l) = 0.
Proof. induction l; simpl; auto. Qed.

Lemma count_in_row a b t rest :
  NoDup rest -> ~ In t rest ->
  occurrences (a, b) (map (sorted_pair t) rest)
  = if String.ltb a b
       && ((String.eqb t a && mem b rest) || (String.eqb t b && mem a rest))
    then 1 else 0.
Proof.
  intros Hnd Ht. unfold occurrences.
  assert (Hlen : forall (f : string * string -> bool) l,
             List.length (filter f (map (sorted_pair t) l))
             = List.length (filter (fun u => f (sorted_pair t u)) l)).
  { intros f l. induction l as [| u l IH]; simpl; [reflexivity |].
    destruct (f (sorted_pair t u)); simpl; rewrite IH; reflexivity. }
  rewrite Hlen.
  rewrite (filter_ext_in _
             (fun u => String.ltb a b
                       && ((String.eqb t a && String.eqb u b)
                           || (String.eqb t b && String.eqb u a)))).
  2:{ intros u Hu. apply sorted_pair_eqb. intros ->. contradiction. }
  destruct (String.ltb a b) eqn:Hlt; cbn [andb]; [| apply count_none].
  destruct (String.eqb_spec t a) as [-> | Hta]; cbn [andb orb].
  - destruct (String.eqb_spec a b) as [-> | Hab].
    + rewrite ltb_irrefl in Hlt. discriminate Hlt.
    + rewrite (filter_ext _ (fun u => String.eqb u b)).
      2:{ intro u. cbn [andb]. apply orb_false_r. }
      rewrite orb_false_r. apply count_eq_NoDup. exact Hnd.
  - destruct (String.eqb t b); cbn [andb orb].
    + apply count_eq_NoDup. exact Hnd.
    + apply count_none.
Qed.

Lemma tag_pairs_count a b tags :
  NoDup tags ->
  occurrences (a, b) (tag_pairs tags)
  = if String.ltb a b && mem a tags && mem b tags then 1 else 0.
Proof.
  induction 1 as [| t rest Ht Hnd IH].
  - simpl. rewrite andb_false_r. reflexivity.
  - cbn [tag_pairs].
    rewrite occurrences_app, (count_in_row a b t rest Hnd Ht), IH.
    change (mem a (t :: rest)) with (String.eqb a t || mem a rest).
    change (mem b (t :: rest)) with (String.eqb b t || mem b rest).
    rewrite (String.eqb_sym a t), (String.eqb_sym b t).
    destruct (String.ltb a b) eqn:Hlt; cbn [andb]; [| reflexivity].
    destruct (String.eqb_spec t a) as [Eta | Nta];
      destruct (String.eqb_spec t b) as [Etb | Ntb]; cbn [andb orb].
    + subst a b. rewrite ltb_irrefl in Hlt. discriminate Hlt.
    + subst a. rewrite (mem_not_In _ _ Ht). cbn [andb]. rewrite orb_false_r.
      destruct (mem b rest); reflexivity.
    + subst b. rewrite (mem_not_In _ _ Ht). rewrite andb_false_r.
      destruct (mem a rest); reflexivity.
    + destruct (mem a rest), (mem b rest); reflexivity.
Qed.

Lemma tag_pairs_length tags :
  2 * List.length (tag_pairs tags) = List.length tags * (List.length tags - 1).
Proof.
  induction tags as [| t rest IH]; simpl; [reflexivity |].
  rewrite length_app, length_map, Nat.sub_0_r.
  destruct rest as [| u rest']; simpl in *; nia.
Qed.

Lemma tag_pairs_ordered k tags :
  In k (tag_pairs tags) -> String.leb (fst k) (snd k) = true.
Proof.
  induction tags as [| t rest IH]; simpl; [contradiction |].
  rewrite in_app_iff, in_map_iff. intros [(u & <- & _) | H].
  - apply sorted_pair_ordered.
  - apply IH. exact H.
Qed.

Lemma occurrences_In k l : 0 < occurrences k l -> In k l.
Proof.
  unfold occurrences. induction l as [| x l IH]; simpl; [lia |].
  destruct (pair_eqb_spec k x) as [-> | Hne]; simpl; intro H.
  - left. reflexivity.
  - right. apply IH. exact H.
Qed.

(** ** The co-occurrence counter *)

Lemma tag_pairs_short tags : List.length tags <= 1 -> tag_pairs tags = [].
Proof.
  destruct tags as [| t [| u rest]]; simpl; intro H; try reflexivity. lia.
Qed.

Lemma count_pairs_fold file_to_tags : forall cooc,
  fold_left
    (fun cooc ft =>
       if 1 <? List.length (snd ft)
       then fold_left (fun c tag_pair => incr pair_eqb tag_pair c) (tag_pairs (snd ft)) cooc
       else cooc)
    file_to_tags cooc
  = fold_left (fun c tag_pair => incr pair_eqb tag_pair c) (all_pairs file_to_tags) cooc.
Proof.
  induction file_to_tags as [| ft l IH]; intro cooc; [reflexivity |].
  unfold all_pairs. cbn [fold_left flat_map]. rewrite fold_left_app.
  fold (all_pairs l). rewrite <- IH. f_equal.
  destruct (Nat.ltb_spec 1 (List.length (snd ft))) as [H | H]; [reflexivity |].
  rewrite tag_pairs_short by lia. reflexivity.
Qed.

Lemma lookup_fold_incr k keys : forall d,
  lookup pair_eqb k (fold_left (fun c tag_pair => incr pair_eqb tag_pair c) keys d)
  = match occurrences k keys with
    | 0 => lookup pair_eqb k d
    | S n => Some (S n + get_default 0 (lookup pair_eqb k d))
    end.
Proof.
  induction keys as [| k' keys IH]; intro d; [reflexivity |].
  cbn [fold_left]. rewrite IH. unfold incr.
  rewrite (lookup_update pair_eqb pair_eqb_spec).
  unfold occurrences. cbn [filter].
  destruct (pair_eqb_spec k k') as [<- | Hne]; cbn [List.length].
  - destruct (List.length (filter (pair_eqb k) keys)); simpl; f_equal; lia.
  - reflexivity.
Qed.

Lemma NoDup_fold_incr keys : forall d : dict (string * string) nat,
  NoDup (map fst d) ->
  NoDup (map fst (fold_left (fun c tag_pair => incr pair_eqb tag_pair c) keys d)).
Proof.
  induction keys as [| k keys IH]; intros d H; [exact H |].
  cbn [fold_left]. apply IH. apply (NoDup_update pair_eqb pair_eqb_spec). exact H.
Qed.

Lemma lookup_count_pairs k file_to_tags :
  lookup pair_eqb k (count_pairs file_to_tags)
  = match occurrences k (all_pairs file_to_tags) with
    | 0 => None
    | S n => Some (S n)
    end.
Proof.
  unfold count_pairs. rewrite count_pairs_fold, lookup_fold_incr. simpl.
  destruct (occurrences k (all_pairs file_to_tags)); [reflexivity |].
  f_equal. lia.
Qed.

Lemma all_pairs_ordered k file_to_tags :
  In k (all_pairs file_to_tags) -> String.leb (fst k) (snd k) = true.
Proof.
  unfold all_pairs. rewrite in_flat_map. intros (ft & _ & H).
  eapply tag_pairs_ordered. exact H.
Qed.

Lemma occurrences_not_In k l : ~ In k l -> occurrences k l = 0.
Proof.
  intro H. destruct (occurrences k l) eqn:Ho; [reflexivity |].
  exfalso. apply H. apply occurrences_In. lia.
Qed.

Lemma occurrences_all_pairs a b file_to_tags :
  (forall ft, In ft file_to_tags -> NoDup (snd ft)) ->
  occurrences (a, b) (all_pairs file_to_tags)
  = if String.ltb a b then files_holding a b file_to_tags else 0.
Proof.
  induction file_to_tags as [| ft l IH]; intro Hnd.
  - simpl. destruct (String.ltb a b); reflexivity.
  - unfold all_pairs, files_holding. cbn [flat_map filter].
    fold (all_pairs l). rewrite occurrences_app, IH.
    2:{ intros ft' H. apply Hnd. right. exact H. }
    rewrite tag_pairs_count by (apply Hnd; left; reflexivity).
    unfold files_holding.
    destruct (String.ltb a b); cbn [andb]; [| reflexivity].
    destruct (mem a (snd ft) && mem b (snd ft)); reflexivity.
Qed.

(** ** The two indexes *)

Lemma extended_nil o : extended o [] = o.
Proof. destruct o; simpl; [rewrite app_nil_r |]; reflexivity. Qed.

Lemma extended_app o l1 l2 : extended (extended o l1) l2 = extended o (l1 ++ l2).
Proof.
  destruct o as [x |]; simpl.
  - rewrite app_assoc. reflexivity.
  - destruct l1; reflexivity.
Qed.

Lemma index_step_snd (file_path : string) ts :
  forall acc : dict string (list string) * dict string (list string),
  snd (fold_left
         (fun tf tag => (push tag file_path (fst tf), push file_path tag (snd tf)))
         ts acc)
  = fold_left (fun d tag => push file_path tag d) ts (snd acc).
Proof.
  induction ts as [| t ts IH]; intro acc; [reflexivity |].
  cbn [fold_left]. rewrite IH. reflexivity.
Qed.

Lemma lookup_push_all p file_path ts : forall d : dict string (list string),
  lookup String.eqb p (fold_left (fun d tag => push file_path tag d) ts d)
  = if String.eqb p file_path then extended (lookup String.eqb p d) ts
    else lookup String.eqb p d.
Proof.
  induction ts as [| t ts IH]; intro d.
  - simpl. rewrite extended_nil. destruct (String.eqb p file_path); reflexivity.
  - cbn [fold_left]. rewrite IH. unfold push.
    rewrite (lookup_update String.eqb String.eqb_spec).
    destruct (String.eqb_spec p file_path) as [-> | Hne]; [| reflexivity].
    destruct (lookup String.eqb file_path d) as [x |]; simpl.
    + rewrite <- app_assoc. reflexivity.
    + reflexivity.
Qed.

Lemma NoDup_push_all file_path ts : forall d : dict string (list string),
  NoDup (map fst d) ->
  NoDup (map fst (fold_left (fun d tag => push file_path tag d) ts d)).
Proof.
  induction ts as [| t ts IH]; intros d H; [exact H |].
  cbn [fold_left]. apply IH. apply (NoDup_update String.eqb String.eqb_spec). exact H.
Qed.

Lemma index_tags_loop l : forall acc,
  forallb has_path l = true -> NoDup (map fst (snd acc)) ->
  exists acc',
    ofold index_step l acc = Return acc' /\
    NoDup (map fst (snd acc')) /\
    forall p, lookup String.eqb p (snd acc')
              = extended (lookup String.eqb p (snd acc)) (tags_on p l).
Proof.
  induction l as [| item l IH]; intros acc Hall Hnd.
  - exists acc. split; [reflexivity |]. split; [exact Hnd |].
    intro p. unfold tags_on. simpl. symmetry. apply extended_nil.
  - simpl in Hall. apply andb_true_iff in Hall. destruct Hall as [Hp Hall].
    unfold has_path in Hp. destruct (path item) as [fp |] eqn:Hpath; [| discriminate Hp].
    cbn [ofold]. unfold index_step at 1. unfold item_path. rewrite Hpath. cbn [obind].
    set (acc1 := fold_left
                   (fun tf tag => (push tag fp (fst tf), push fp tag (snd tf)))
                   (item_tags item) acc).
    assert (Hs : snd acc1 = fold_left (fun d tag => push fp tag d) (item_tags item) (snd acc))
      by apply index_step_snd.
    unfold dict in *.
    assert (Hnd1 : NoDup (map fst (snd acc1)))
      by (rewrite Hs; apply NoDup_push_all; exact Hnd).
    destruct (IH acc1 Hall Hnd1) as (acc' & Hrun & Hnd' & Hlook).
    exists acc'. split; [exact Hrun |]. split; [exact Hnd' |].
    intro p. rewrite Hlook, Hs, lookup_push_all.
    unfold tags_on. cbn [filter]. unfold on_path at 2. rewrite Hpath.
    destruct (String.eqb p fp); cbn [flat_map].
    + apply extended_app.
    + reflexivity.
Qed.

Lemma index_tags_run recs :
  forallb has_path recs = true ->
  exists tag_to_files file_to_tags,
    index_tags recs = Return (tag_to_files, file_to_tags) /\
    NoDup (map fst file_to_tags) /\
    forall p, lookup String.eqb p file_to_tags
              = if nonempty (tags_on p recs) then Some (tags_on p recs) else None.
Proof.
  intro Hall.
  destruct (index_tags_loop recs ([], []) Hall) as ([tf ft] & Hrun & Hnd & Hlook).
  { constructor. }
  exists tf, ft. split; [exact Hrun |]. split; [exact Hnd |].
  intro p. rewrite Hlook. reflexivity.
Qed.

Lemma find_tag_correlations_run st d tag_to_files file_to_tags :
  data st = Some d -> index_tags d = Return (tag_to_files, file_to_tags) ->
  find_tag_correlations st
  = (set_correlations
       (mkCorrelations (filter (fun tf => 1 <? List.length (snd tf)) tag_to_files)
                       (count_pairs file_to_tags)) st,
     Return
       (mkCorrelations (filter (fun tf => 1 <? List.length (snd tf)) tag_to_files)
                       (count_pairs file_to_tags))).
Proof.
  intros Hd Hi. unfold find_tag_correlations, bind, self, lift, modify, data_of.
  rewrite Hd. cbn [obind]. rewrite Hi. reflexivity.
Qed.

(** C4, as stated, fails: on one record with the tags a, b, a the map holds
    the pair (a, a), and counts the pair (a, b) twice for the one file. *)
Lemma C4_cooccurrence_counterexample :
  ~ (forall recs : list record,
       Forall (fun r => path r <> None) recs ->
       forall tag_to_files file_to_tags st corr,
         index_tags recs = Return (tag_to_files, file_to_tags) ->
         find_tag_correlations (loaded recs) = (st, Return corr) ->
         forall a b n,
           lookup pair_eqb (a, b) (tag_cooccurrence corr) = Some n ->
           a <> b /\ n = files_holding a b file_to_tags).
Proof.
  intro H.
  assert (Hp : Forall (fun r => path r <> None) repeated_tag)
    by (repeat constructor; discriminate).
  destruct (H repeated_tag Hp _ _ _ _ eq_refl eq_refl "a" "a" 1 eq_refl) as [Hne _].
  apply Hne. reflexivity.
Qed.

(** C4, amended.  On a loaded record set (every record with a path) the tag
    correlation returns.  Its file index has one entry per path that carries
    a tag, holding the tags of the records of that path in order.  The
    co-occurrence map has no key twice, every key [(a, b)] has [a <= b] in
    string order, so that [(a, b)] and [(b, a)] are never both keys for
    different tags, and the count of a key is the number of positions
    [i < j] of a file's tag list whose sorted tags are that key, summed over
    the files; a file with [k] tag entries is counted [k (k - 1) / 2] times
    in all.  When no file's tag list repeats a tag, the two tags of a key
    differ and the count is the number of files that hold both tags. *)
Theorem C4_cooccurrence (recs : list record) :
  Forall (fun r => path r <> None) recs ->
  exists tag_to_files file_to_tags,
    index_tags recs = Return (tag_to_files, file_to_tags) /\
    snd (find_tag_correlations (loaded recs))
    = Return (mkCorrelations
                (filter (fun tf => 1 <? List.length (snd tf)) tag_to_files)
                (count_pairs file_to_tags)) /\
    NoDup (map fst file_to_tags) /\
    (forall p, lookup String.eqb p file_to_tags
               = if nonempty (tags_on p recs) then Some (tags_on p recs) else None) /\
    NoDup (map fst (count_pairs file_to_tags)) /\
    (forall k, lookup pair_eqb k (count_pairs file_to_tags)
               = match occurrences k (all_pairs file_to_tags) with
                 | 0 => None
                 | S n => Some (S n)
                 end) /\
    (forall a b n,
       lookup pair_eqb (a, b) (count_pairs file_to_tags) = Some n ->
       String.leb a b = true /\
       (a <> b -> lookup pair_eqb (b, a) (count_pairs file_to_tags) = None)) /\
    (forall tags, 2 * List.length (tag_pairs tags)
                  = List.length tags * (List.length tags - 1)) /\
    ((forall ft, In ft file_to_tags -> NoDup (snd ft)) ->
     forall a b n,
       lookup pair_eqb (a, b) (count_pairs file_to_tags) = Some n ->
       a <> b /\ n = files_holding a b file_to_tags).
Proof.
  intro Hall. apply Forall_has_path in Hall.
  destruct (index_tags_run recs Hall) as (tf & ftt & Hidx & Hnd & Hlook).
  exists tf, ftt.
  split; [exact Hidx |].
  split.
  { rewrite (find_tag_correlations_run _ recs tf ftt (loaded_data recs) Hidx).
    reflexivity. }
  split; [exact Hnd |]. split; [exact Hlook |].
  split.
  { unfold count_pairs. rewrite count_pairs_fold. apply NoDup_fold_incr. constructor. }
  split; [intro k; apply lookup_count_pairs |].
  split.
  { intros a b n Hn. rewrite lookup_count_pairs in Hn.
    destruct (occurrences (a, b) (all_pairs ftt)) eqn:Ho; [discriminate Hn |].
    assert (Hin : In (a, b) (all_pairs ftt)) by (apply occurrences_In; lia).
    apply all_pairs_ordered in Hin. simpl in Hin.
    split; [exact Hin |].
    intro Hne. rewrite lookup_count_pairs, occurrences_not_In; [reflexivity |].
    intro Hin'. apply all_pairs_ordered in Hin'. simpl in Hin'.
    apply Hne. apply String.leb_antisym; assumption. }
  split; [exact tag_pairs_length |].
  intros Hdistinct a b n Hn.
  rewrite lookup_count_pairs, (occurrences_all_pairs a b ftt Hdistinct) in Hn.
  destruct (String.ltb a b) eqn:Hlt; [| discriminate Hn].
  split.
  - intros ->. rewrite ltb_irrefl in Hlt. discriminate Hlt.
  - destruct (files_holding a b ftt); [discriminate Hn |]. congruence.
Qed.

Lemma C4_cooccurrence_witness :
  Forall (fun r => path r <> None) two_records /\
  snd (find_tag_correlations (loaded two_records))
  = Return (mkCorrelations [] [(("mask", "rifle"), 1)]) /\
  (exists tag_to_files file_to_tags,
     index_tags two_records = Return (tag_to_files, file_to_tags) /\
     NoDup (map fst file_to_tags)).
Proof.
  assert (H : Forall (fun r => path r <> None) two_records)
    by (repeat constructor; discriminate).
  split; [exact H |]. split; [reflexivity |].
  destruct (C4_cooccurrence two_records H) as (tf & ftt & Hidx & _ & Hnd & _).
  exists tf, ftt. split; assumption.
Defined.

End CorrelationFacts.

(* ================================================================== *)
(** * Further properties: loading and the categorizer *)
(* ================================================================== *)

Module LoadFacts.
Import Py Rar Spec MoreSpec RarFacts.

Lemma lower_char_idempotent (c : ascii) : lower_char (lower_char c) = lower_char c.
Proof. destruct c as [[] [] [] [] [] [] [] []]; vm_compute; reflexivity. Qed.

Lemma lower_idempotent (s : string) : lower (lower s) = lower s.
Proof.
  induction s as [| c s IH]; simpl; [reflexivity |].
  rewrite lower_char_idempotent, IH. reflexivity.
Qed.

(** [load_json_data] does not reset the two index lists: on a session that
    was loaded before, the indices of the new records are appended after
    the old ones, while [data] is replaced. *)
Theorem load_json_data_appends (recs1 recs2 : list record) :
  Forall (fun r => path r <> None) recs1 ->
  Forall (fun r => path r <> None) recs2 ->
  let st := fst (load_json_data recs2 (loaded recs1)) in
  snd (load_json_data recs2 (loaded recs1)) = Return tt /\
  data st = Some recs2 /\
  threat_items st = threat_items (loaded recs1) ++ threat_items (loaded recs2) /\
  safe_items st = safe_items (loaded recs1) ++ safe_items (loaded recs2) /\
  List.length (threat_items st) + List.length (safe_items st)
  = List.length recs1 + List.length recs2.
Proof.
  intros H1 H2 st. subst st.
  apply Forall_has_path in H1. apply Forall_has_path in H2.
  unfold loaded. rewrite !load_json_data_run. simpl.
  unfold loop_outcome. rewrite H2.
  rewrite (well_formed_prefix_all _ H1), (well_formed_prefix_all _ H2).
  repeat split.
  rewrite !length_app.
  assert (Hlen : forall l k,
             List.length (positions Threat k l) + List.length (positions Safe k l)
             = List.length l).
  { induction l as [| item l IH]; intro k; simpl; [reflexivity |].
    specialize (IH (S k)). destruct (label_of item); simpl; lia. }
  pose proof (Hlen recs1 0). pose proof (Hlen recs2 0). lia.
Qed.

Lemma load_json_data_appends_witness :
  Forall (fun r => path r <> None) two_records /\
  threat_items (fst (load_json_data two_records (loaded two_records))) = [0; 0] /\
  safe_items (fst (load_json_data two_records (loaded two_records))) = [1; 1].
Proof.
  assert (H : Forall (fun r => path r <> None) two_records)
    by (repeat constructor; discriminate).
  split; [exact H |].
  destruct (load_json_data_appends two_records two_records H H)
    as (_ & _ & Ht & Hs & _).
  rewrite Ht, Hs. split; reflexivity.
Defined.

(** ** Lower case and [repr] *)

Lemma lower_app (a b : string) : lower (a ++ b) = (lower a ++ lower b)%string.
Proof. induction a as [| x a IH]; cbn [append lower]; [| rewrite IH]; reflexivity. Qed.

Lemma lower_join (sep : string) (l : list string) :
  lower (join sep l) = join (lower sep) (map lower l).
Proof.
  induction l as [| x l IH]; [reflexivity |].
  destruct l as [| y l]; [reflexivity |].
  change (join sep (x :: y :: l)) with (x ++ sep ++ join sep (y :: l))%string.
  rewrite !lower_app, IH. reflexivity.
Qed.

Lemma quote_lower (x : ascii) :
  (lower_char x = quote <-> x = quote) /\ (lower_char x = dquote <-> x = dquote).
Proof.
  destruct x as [[] [] [] [] [] [] [] []]; vm_compute;
    (split; split; intro H; first [reflexivity | discriminate H]).
Qed.

Lemma contains_quote_lower (c : ascii) (s : string) :
  c = quote \/ c = dquote ->
  contains (chr c) (lower s) = contains (chr c) s.
Proof.
  intro Hc. induction s as [| x s IH]; [reflexivity |].
  cbn [lower contains]. rewrite IH. f_equal.
  unfold chr. cbn [prefix].
  assert (He : forall t, prefix EmptyString t = true) by (intros []; reflexivity).
  rewrite !He.
  destruct (Ascii.ascii_dec c (lower_char x)) as [E1 | N1],
           (Ascii.ascii_dec c x) as [E2 | N2]; try reflexivity; exfalso.
  - apply N2. symmetry. destruct Hc; subst c; apply (quote_lower x); symmetry; exact E1.
  - apply N1. symmetry. destruct Hc; subst c; apply (quote_lower x); symmetry; exact E2.
Qed.

Lemma repr_char_lower (c : ascii) :
  lower (repr_char quote (lower_char c)) = lower (repr_char quote c) /\
  lower (repr_char dquote (lower_char c)) = lower (repr_char dquote c).
Proof. destruct c as [[] [] [] [] [] [] [] []]; vm_compute; split; reflexivity. Qed.

Lemma repr_body_lower (q : ascii) (s : string) :
  q = quote \/ q = dquote ->
  lower (repr_body q (lower s)) = lower (repr_body q s).
Proof.
  intro Hq. induction s as [| c s IH]; [reflexivity |].
  cbn [lower repr_body]. rewrite !lower_app, IH. f_equal.
  destruct Hq; subst q; apply (repr_char_lower c).
Qed.

(** Lower-casing a string before [repr] changes the letter case of the
    result only. *)
Lemma lower_repr (s : string) : lower (repr (lower s)) = lower (repr s).
Proof.
  unfold repr.
  rewrite (contains_quote_lower quote s) by (left; reflexivity).
  rewrite (contains_quote_lower dquote s) by (right; reflexivity).
  set (q := if contains (chr quote) s && negb (contains (chr dquote) s)
            then dquote else quote).
  assert (Hq : q = quote \/ q = dquote).
  { unfold q. destruct (_ && _); [right | left]; reflexivity. }
  cbn [lower]. rewrite !lower_app, (repr_body_lower q s Hq). reflexivity.
Qed.

Lemma lower_str_dict (fields : list (string * string)) :
  lower (str_dict (map (fun kv => (fst kv, lower (snd kv))) fields))
  = lower (str_dict fields).
Proof.
  unfold str_dict. rewrite !lower_app, !lower_join. do 3 f_equal.
  rewrite !map_map. apply map_ext. intros [k v]. cbn [fst snd].
  rewrite !lower_app, lower_repr. reflexivity.
Qed.

(** The label of a record does not depend on the letter case of its path
    and of its content. *)
Theorem decide_label_case_insensitive (p : string) (item : record) :
  decide_label (lower p) (lower_record item) = decide_label p item.
Proof.
  assert (Hs : lower (content_str (lower_record item)) = lower (content_str item)).
  { unfold content_str, lower_record. cbn [content].
    destruct (content item) as [[c | fields] |]; cbn [option_map lower_content].
    - apply lower_idempotent.
    - apply lower_str_dict.
    - reflexivity. }
  assert (Ht : truthy_content (lower_record item) = truthy_content item).
  { unfold truthy_content, lower_record. cbn [content].
    destruct (content item) as [[c | [| kv fields]] |]; cbn [option_map lower_content map];
      try reflexivity.
    destruct c; reflexivity. }
  unfold decide_label. rewrite Hs, Ht, lower_idempotent. reflexivity.
Qed.

End LoadFacts.

(* ================================================================== *)
(** * Further properties: the tag index *)
(* ================================================================== *)

Module IndexFacts.
Import Py Rar Spec MoreSpec RarFacts ContentFacts DictFacts CorrelationFacts.

Lemma index_step_fst (file_path : string) ts :
  forall acc : dict string (list string) * dict string (list string),
  fst (fold_left
         (fun tf tag => (push tag file_path (fst tf), push file_path tag (snd tf)))
         ts acc)
  = fold_left (fun d tag => push tag file_path d) ts (fst acc).
Proof.
  induction ts as [| t ts IH]; intro acc; [reflexivity |].
  cbn [fold_left]. rewrite IH. reflexivity.
Qed.

Lemma lookup_push_tags t file_path ts : forall d : dict string (list string),
  lookup String.eqb t (fold_left (fun d tag => push tag file_path d) ts d)
  = extended (lookup String.eqb t d)
             (map (fun _ => file_path) (filter (String.eqb t) ts)).
Proof.
  induction ts as [| t0 ts IH]; intro d.
  - simpl. symmetry. apply extended_nil.
  - cbn [fold_left filter]. rewrite IH. unfold push.
    rewrite (lookup_update String.eqb String.eqb_spec).
    destruct (String.eqb_spec t t0) as [<- | Hne]; [| reflexivity].
    destruct (lookup String.eqb t d) as [x |]; simpl.
    + rewrite <- app_assoc. reflexivity.
    + reflexivity.
Qed.

Lemma NoDup_push_tags file_path ts : forall d : dict string (list string),
  NoDup (map fst d) ->
  NoDup (map fst (fold_left (fun d tag => push tag file_path d) ts d)).
Proof.
  induction ts as [| t ts IH]; intros d H; [exact H |].
  cbn [fold_left]. apply IH. apply (NoDup_update String.eqb String.eqb_spec). exact H.
Qed.

Lemma index_tags_loop_fst l : forall acc,
  forallb has_path l = true -> NoDup (map fst (fst acc)) ->
  exists acc',
    ofold index_step l acc = Return acc' /\
    NoDup (map fst (fst acc')) /\
    forall t, lookup String.eqb t (fst acc')
              = extended (lookup String.eqb t (fst acc)) (files_of t l).
Proof.
  induction l as [| item l IH]; intros acc Hall Hnd.
  - exists acc. split; [reflexivity |]. split; [exact Hnd |].
    intro t. simpl. symmetry. apply extended_nil.
  - simpl in Hall. apply andb_true_iff in Hall. destruct Hall as [Hp Hall].
    unfold has_path in Hp. destruct (path item) as [fp |] eqn:Hpath; [| discriminate Hp].
    cbn [ofold]. unfold index_step at 1. unfold item_path. rewrite Hpath. cbn [obind].
    set (acc1 := fold_left
                   (fun tf tag => (push tag fp (fst tf), push fp tag (snd tf)))
                   (item_tags item) acc).
    assert (Hs : fst acc1 = fold_left (fun d tag => push tag fp d) (item_tags item) (fst acc))
      by apply index_step_fst.
    unfold dict in *.
    assert (Hnd1 : NoDup (map fst (fst acc1)))
      by (rewrite Hs; apply NoDup_push_tags; exact Hnd).
    destruct (IH acc1 Hall Hnd1) as (acc' & Hrun & Hnd' & Hlook).
    exists acc'. split; [exact Hrun |]. split; [exact Hnd' |].
    intro t. rewrite Hlook, Hs, lookup_push_tags.
    unfold files_of. cbn [flat_map]. rewrite Hpath. cbn [get_default].
    apply extended_app.
Qed.

Lemma index_tags_run_both recs :
  forallb has_path recs = true ->
  exists tag_to_files file_to_tags,
    index_tags recs = Return (tag_to_files, file_to_tags) /\
    NoDup (map fst tag_to_files) /\ NoDup (map fst file_to_tags) /\
    (forall t, lookup String.eqb t tag_to_files
               = if nonempty (files_of t recs) then Some (files_of t recs) else None) /\
    (forall p, lookup String.eqb p file_to_tags
               = if nonempty (tags_on p recs) then Some (tags_on p recs) else None).
Proof.
  intro Hall.
  destruct (index_tags_run recs Hall) as (tf & ftt & Hrun & Hnd & Hlook).
  destruct (index_tags_loop_fst recs ([], []) Hall (NoDup_nil _))
    as ([tf' ftt'] & Hrun' & Hnd' & Hlook').
  unfold index_tags in Hrun. rewrite Hrun in Hrun'. injection Hrun' as <- <-.
  exists tf, ftt.
  split; [exact Hrun |]. split; [exact Hnd' |]. split; [exact Hnd |].
  split; [exact Hlook' | exact Hlook].
Qed.

Lemma index_tags_raises l : forall acc,
  forallb has_path l = false -> ofold index_step l acc = Raise (KeyError "path").
Proof.
  induction l as [| item l IH]; intros acc H; simpl in H; [discriminate H |].
  cbn [ofold]. unfold index_step at 1, item_path. unfold has_path in H.
  destruct (path item) as [fp |]; simpl in *; [apply IH; exact H | reflexivity].
Qed.

Lemma In_files_of t p recs :
  forallb has_path recs = true ->
  In p (files_of t recs) <->
  exists item, In item recs /\ path item = Some p /\ In t (item_tags item).
Proof.
  intro Hall. unfold files_of. rewrite in_flat_map. split.
  - intros (item & Hin & Hp). exists item. split; [exact Hin |].
    apply in_map_iff in Hp. destruct Hp as (t' & Hp & Ht).
    apply filter_In in Ht. destruct Ht as [Ht He]. apply String.eqb_eq in He. subst t'.
    rewrite forallb_forall in Hall. specialize (Hall item Hin). unfold has_path in Hall.
    destruct (path item) as [q |]; [| discriminate Hall]. simpl in Hp. subst q.
    split; [reflexivity | exact Ht].
  - intros (item & Hin & Hp & Ht). exists item. split; [exact Hin |].
    apply in_map_iff. exists t. rewrite Hp. split; [reflexivity |].
    apply filter_In. split; [exact Ht | apply String.eqb_refl].
Qed.

Lemma In_tags_on t p recs :
  In t (tags_on p recs) <->
  exists item, In item recs /\ path item = Some p /\ In t (item_tags item).
Proof.
  unfold tags_on. rewrite in_flat_map. split.
  - intros (item & Hin & Ht). apply filter_In in Hin. destruct Hin as [Hin Hp].
    exists item. split; [exact Hin |]. split; [| exact Ht].
    unfold on_path in Hp. destruct (path item) as [q |]; [| discriminate Hp].
    apply String.eqb_eq in Hp. subst q. reflexivity.
  - intros (item & Hin & Hp & Ht). exists item. split; [| exact Ht].
    apply filter_In. split; [exact Hin |]. unfold on_path. rewrite Hp.
    apply String.eqb_refl.
Qed.

Lemma lookup_nonempty_In {A} (x : A) (l : list A) :
  (exists l', (if nonempty l then Some l else None) = Some l' /\ In x l') <-> In x l.
Proof.
  split.
  - intros (l' & H & Hin). destruct l; simpl in H; [discriminate H |].
    injection H as <-. exact Hin.
  - intro Hin. exists l. destruct l; [contradiction |]. split; [reflexivity | exact Hin].
Qed.

(** The two indexes built by [find_tag_correlations] agree: the path [p] is
    listed under the tag [t] exactly when [t] is listed under [p], and that
    is when some record with the path [p] carries the tag [t]. *)
Theorem tag_index_consistent (recs : list record) :
  Forall (fun r => path r <> None) recs ->
  exists tag_to_files file_to_tags,
    index_tags recs = Return (tag_to_files, file_to_tags) /\
    forall t p,
      ((exists files, lookup String.eqb t tag_to_files = Some files /\ In p files) <->
       (exists tags, lookup String.eqb p file_to_tags = Some tags /\ In t tags)) /\
      ((exists tags, lookup String.eqb p file_to_tags = Some tags /\ In t tags) <->
       (exists item, In item recs /\ path item = Some p /\ In t (item_tags item))).
Proof.
  intro Hall. apply Forall_has_path in Hall.
  destruct (index_tags_run_both recs Hall) as (tf & ftt & Hrun & _ & _ & Htf & Hftt).
  exists tf, ftt. split; [exact Hrun |].
  intros t p. rewrite Htf, Hftt, !lookup_nonempty_In.
  rewrite (In_files_of t p recs Hall), In_tags_on. split; reflexivity.
Qed.

Lemma tag_index_consistent_witness :
  Forall (fun r => path r <> None) two_records /\
  exists tag_to_files file_to_tags,
    index_tags two_records = Return (tag_to_files, file_to_tags) /\
    lookup String.eqb "mask" tag_to_files = Some ["a_threat.txt"] /\
    lookup String.eqb "a_threat.txt" file_to_tags = Some ["rifle"; "mask"].
Proof.
  assert (H : Forall (fun r => path r <> None) two_records)
    by (repeat constructor; discriminate).
  split; [exact H |].
  destruct (tag_index_consistent two_records H) as (tf & ftt & Hrun & _).
  exists tf, ftt. split; [exact Hrun |].
  injection Hrun as <- <-. split; reflexivity.
Defined.

Lemma lookup_filter {V} (f : string * V -> bool) k (d : dict string V) :
  NoDup (map fst d) ->
  lookup String.eqb k (filter f d)
  = match lookup String.eqb k d with
    | Some v => if f (k, v) then Some v else None
    | None => None
    end.
Proof.
  induction d as [| [k0 v] d IH]; simpl; intro Hnd; [reflexivity |].
  apply NoDup_cons_iff in Hnd. destruct Hnd as [Hk0 Hnd].
  destruct (String.eqb_spec k k0) as [-> | Hne].
  - destruct (f (k0, v)) eqn:Hf; simpl.
    + rewrite String.eqb_refl. reflexivity.
    + rewrite IH by exact Hnd.
      destruct (lookup String.eqb k0 d) as [v' |] eqn:Hl; [| reflexivity].
      exfalso. apply Hk0.
      clear - Hl. induction d as [| [k1 v1] d IH]; simpl in *; [discriminate Hl |].
      destruct (String.eqb_spec k0 k1) as [-> | Hne]; [left; reflexivity | right; auto].
  - destruct (f (k0, v)); simpl.
    + destruct (String.eqb_spec k k0); [contradiction | apply IH; exact Hnd].
    + apply IH. exact Hnd.
Qed.

(** [shared_tags] holds a tag exactly when the tag occurs at least twice in
    the tag lists of the records, with one path per occurrence: two records
    with the tag, or one record that lists it twice. *)
Theorem shared_tags_occurrences (recs : list record) :
  Forall (fun r => path r <> None) recs ->
  exists corr,
    snd (find_tag_correlations (loaded recs)) = Return corr /\
    NoDup (map fst (shared_tags corr)) /\
    forall t,
      lookup String.eqb t (shared_tags corr)
      = if 2 <=? List.length (files_of t recs) then Some (files_of t recs) else None.
Proof.
  intro Hall. apply Forall_has_path in Hall.
  destruct (index_tags_run_both recs Hall) as (tf & ftt & Hrun & Hnd & _ & Htf & _).
  eexists. split.
  { rewrite (find_tag_correlations_run _ recs tf ftt (loaded_data recs) Hrun).
    reflexivity. }
  cbn [shared_tags]. split.
  { apply NoDup_map_inv with (f := fun x => x). rewrite map_id.
    clear - Hnd. induction tf as [| [k v] tf IH]; simpl; [constructor |].
    simpl in Hnd. apply NoDup_cons_iff in Hnd. destruct Hnd as [Hk Hnd].
    destruct (1 <? List.length v); simpl; [| apply IH; exact Hnd].
    constructor; [| apply IH; exact Hnd].
    intro Hin. apply Hk. apply in_map_iff in Hin. destruct Hin as ([k' v'] & <- & Hin).
    apply filter_In in Hin. apply in_map_iff. exists (k', v'). tauto. }
  intro t. rewrite (lookup_filter _ t tf Hnd), Htf.
  destruct (files_of t recs) as [| p1 [| p2 l]]; reflexivity.
Qed.

Lemma shared_tags_occurrences_witness :
  Forall (fun r => path r <> None) repeated_tag /\
  exists corr,
    snd (find_tag_correlations (loaded repeated_tag)) = Return corr /\
    shared_tags corr = [("a", ["f.txt"; "f.txt"])].
Proof.
  assert (H : Forall (fun r => path r <> None) repeated_tag)
    by (repeat constructor; discriminate).
  split; [exact H |].
  destruct (shared_tags_occurrences repeated_tag H) as (corr & Hrun & _).
  exists corr. split; [exact Hrun |].
  injection Hrun as <-. reflexivity.
Defined.

(** [find_tag_correlations] either returns and stores its result, or raises
    and leaves the analyzer as it was: [TypeError] when no data was loaded,
    [KeyError] when a record has no path. *)
Theorem find_tag_correlations_outcome (st : analyzer) :
  match data st with
  | None => find_tag_correlations st = (st, Raise TypeError)
  | Some d =>
      if forallb has_path d
      then exists corr,
             find_tag_correlations st = (set_correlations corr st, Return corr)
      else find_tag_correlations st = (st, Raise (KeyError "path"))
  end.
Proof.
  destruct (data st) as [d |] eqn:Hd.
  - destruct (forallb has_path d) eqn:Hall.
    + destruct (index_tags_run d Hall) as (tf & ftt & Hrun & _).
      eexists. apply (find_tag_correlations_run st d tf ftt Hd Hrun).
    + unfold find_tag_correlations, bind, self, lift, data_of. rewrite Hd. cbn [obind].
      unfold index_tags. rewrite (index_tags_raises d _ Hall). reflexivity.
  - unfold find_tag_correlations, bind, self, lift, data_of. rewrite Hd. reflexivity.
Qed.

End IndexFacts.

(* ================================================================== *)
(** * Further properties: the relationship graph *)
(* ================================================================== *)

Module GraphShape.
Import Py Rar Spec MoreSpec RarFacts ContentFacts DictFacts CorrelationFacts.

Lemma make_graph_steps st d :
  make_graph st d = ofold (graph_step st) (enumerate d) (mkGraph [] []).
Proof. reflexivity. Qed.

Lemma sorted_pair_sym u v : sorted_pair u v = sorted_pair v u.
Proof.
  destruct (String.eqb_spec u v) as [-> | Hne]; [reflexivity |].
  unfold sorted_pair.
  destruct (String.ltb v u) eqn:H1.
  - rewrite (ltb_asym _ _ H1). reflexivity.
  - rewrite (ltb_connected v u) by congruence. reflexivity.
Qed.

Lemma sorted_pair_inj u v a b :
  sorted_pair u v = sorted_pair a b -> (u = a /\ v = b) \/ (u = b /\ v = a).
Proof.
  unfold sorted_pair.
  destruct (String.ltb v u), (String.ltb b a); intro H; injection H as H1 H2; auto.
Qed.

Lemma same_edge_normalize u v e :
  same_edge u v e = true <-> normalize (u, v) = normalize e.
Proof.
  destruct e as [a b]. unfold same_edge, normalize. simpl. split.
  - intro H. apply orb_true_iff in H.
    destruct H as [H | H]; apply andb_true_iff in H; destruct H as [H1 H2];
      apply String.eqb_eq in H1; apply String.eqb_eq in H2; subst.
    + reflexivity.
    + apply sorted_pair_sym.
  - intro H. apply sorted_pair_inj in H. destruct H as [[-> ->] | [-> ->]];
      rewrite !String.eqb_refl; simpl; [reflexivity | apply orb_true_r].
Qed.

Lemma has_node_add_node n m a G :
  has_node n (add_node m a G) = String.eqb n m || has_node n G.
Proof.
  unfold has_node, add_node, assign. simpl.
  rewrite (lookup_update String.eqb String.eqb_spec).
  destruct (String.eqb n m); reflexivity.
Qed.

Lemma holds_add_node N M G n a :
  holds N M G -> holds (N ++ [n]) M (add_node n a G).
Proof.
  intros (H1 & H2 & H3 & H4 & H5). repeat split; try assumption.
  - unfold add_node, assign. simpl.
    apply (NoDup_update String.eqb String.eqb_spec). exact H1.
  - rewrite has_node_add_node, in_app_iff. intro H.
    apply orb_true_iff in H. destruct H as [H | H].
    + apply String.eqb_eq in H. subst. right. left. reflexivity.
    + left. apply H2. exact H.
  - rewrite has_node_add_node, in_app_iff. intros [H | [<- | []]].
    + apply H2 in H. rewrite H. apply orb_true_r.
    + rewrite String.eqb_refl. reflexivity.
Qed.

Lemma holds_known_node N M G n :
  holds N M G -> has_node n G = true -> holds (N ++ [n]) M G.
Proof.
  intros (H1 & H2 & H3 & H4 & H5) Hn. repeat split; try assumption.
  - intro H. apply in_app_iff. left. apply H2. exact H.
  - rewrite in_app_iff. intros [H | [<- | []]]; [apply H2; exact H | exact Hn].
Qed.

Lemma holds_add_edge N M G u v :
  holds N M G -> holds N (M ++ [(u, v)]) (add_edge u v G).
Proof.
  intros (H1 & H2 & H3 & H4 & H5). unfold add_edge.
  destruct (existsb (same_edge u v) (edges G)) eqn:He.
  - repeat split; try assumption.
    + apply H2.
    + apply H2.
    + intros a b H. apply in_app_iff. left. apply H3. exact H.
    + intros a b H. apply in_app_iff in H. destruct H as [H | [H | []]].
      * apply H4. exact H.
      * injection H as <- <-. exact He.
  - unfold holds. cbn [nodes edges]. repeat split; try assumption.
    + apply H2.
    + apply H2.
    + intros a b H. apply in_app_iff in H. apply in_app_iff.
      destruct H as [H | H]; [left; apply H3; exact H | right; exact H].
    + intros a b H. rewrite existsb_app. apply in_app_iff in H.
      destruct H as [H | [H | []]].
      * rewrite (H4 a b H). reflexivity.
      * injection H as <- <-. simpl. unfold same_edge. simpl.
        rewrite !String.eqb_refl. simpl. apply orb_true_r.
    + rewrite map_app. simpl. apply NoDup_app.
      * exact H5.
      * repeat constructor. intros [].
      * intros x Hx [<- | []]. apply in_map_iff in Hx. destruct Hx as (e & Hn & Hin).
        assert (Hs : same_edge u v e = true) by (apply same_edge_normalize; congruence).
        assert (Hex : existsb (same_edge u v) (edges G) = true)
          by (apply existsb_exists; exists e; split; assumption).
        congruence.
Qed.

Lemma holds_tag_step N M G fp t :
  holds N M G -> holds (N ++ [t]) (M ++ [(fp, t)]) (tag_step fp G t).
Proof.
  intro H. unfold tag_step. apply holds_add_edge.
  destruct (has_node t G) eqn:Ht.
  - apply holds_known_node; assumption.
  - apply holds_add_node. exact H.
Qed.

Lemma holds_tags fp ts : forall N M G,
  holds N M G ->
  holds (N ++ ts) (M ++ map (pair fp) ts) (fold_left (tag_step fp) ts G).
Proof.
  induction ts as [| t ts IH]; intros N M G H; simpl.
  - rewrite !app_nil_r. exact H.
  - replace (N ++ t :: ts) with ((N ++ [t]) ++ ts) by (rewrite <- app_assoc; reflexivity).
    replace (M ++ (fp, t) :: map (pair fp) ts) with ((M ++ [(fp, t)]) ++ map (pair fp) ts)
      by (rewrite <- app_assoc; reflexivity).
    apply IH. apply holds_tag_step. exact H.
Qed.

Lemma graph_loop st (l : list (nat * record)) : forall N M G,
  forallb has_path (map snd l) = true -> holds N M G ->
  exists G',
    ofold (graph_step st) l G = Return G' /\
    holds (N ++ names_of (map snd l)) (M ++ memberships_of (map snd l)) G'.
Proof.
  induction l as [| [idx item] l IH]; intros N M G Hall H.
  - exists G. simpl. rewrite !app_nil_r. split; [reflexivity | exact H].
  - simpl in Hall. apply andb_true_iff in Hall. destruct Hall as [Hp Hall].
    unfold has_path in Hp. destruct (path item) as [fp |] eqn:Hpath; [| discriminate Hp].
    cbn [ofold]. unfold graph_step at 1. cbn [fst snd]. unfold item_path.
    rewrite Hpath. cbn [obind].
    unfold names_of, memberships_of. cbn [map flat_map snd]. rewrite Hpath.
    cbn [get_default].
    fold (names_of (map snd l)). fold (memberships_of (map snd l)).
    replace (N ++ (fp :: item_tags item) ++ names_of (map snd l))
      with (((N ++ [fp]) ++ item_tags item) ++ names_of (map snd l))
      by (rewrite <- !app_assoc; reflexivity).
    rewrite (app_assoc M).
    apply IH; [exact Hall |].
    apply holds_tags. apply holds_add_node. exact H.
Qed.

Lemma enumerate_snd {A} (l : list A) : map snd (enumerate l) = l.
Proof.
  unfold enumerate. generalize 0. induction l as [| x l IH]; intro k; simpl;
    [reflexivity | rewrite IH; reflexivity].
Qed.

Lemma holds_empty : holds [] [] (mkGraph [] []).
Proof.
  repeat split; simpl; try constructor; try contradiction; try discriminate.
Qed.

Lemma make_graph_holds st d :
  forallb has_path d = true ->
  exists G, make_graph st d = Return G /\ holds (names_of d) (memberships_of d) G.
Proof.
  intro Hall. rewrite make_graph_steps.
  destruct (graph_loop st (enumerate d) [] [] (mkGraph [] [])) as (G & Hrun & Hok).
  - rewrite enumerate_snd. exact Hall.
  - exact holds_empty.
  - exists G. rewrite enumerate_snd in Hok. split; assumption.
Qed.

(** The graph built from records that all have a path: its nodes are the
    paths and the tags of the records, each name once; every edge joins the
    path of a record to one of its tags, every such membership has its
    edge, and no two edges join the same two nodes. *)
Theorem make_graph_shape (st : analyzer) (d : list record) :
  Forall (fun r => path r <> None) d ->
  exists G,
    make_graph st d = Return G /\
    NoDup (map fst (nodes G)) /\
    (forall n, has_node n G = true <->
               exists item, In item d /\ (path item = Some n \/ In n (item_tags item))) /\
    (forall u v, In (u, v) (edges G) ->
                 has_node u G = true /\ has_node v G = true /\
                 exists item, In item d /\ path item = Some u /\ In v (item_tags item)) /\
    (forall item p t, In item d -> path item = Some p -> In t (item_tags item) ->
                      existsb (same_edge p t) (edges G) = true) /\
    NoDup (map normalize (edges G)).
Proof.
  intro Hall. apply Forall_has_path in Hall.
  destruct (make_graph_holds st d Hall) as (G & Hrun & H1 & H2 & H3 & H4 & H5).
  assert (Hname : forall n, In n (names_of d) <->
            exists item, In item d /\ (path item = Some n \/ In n (item_tags item))).
  { intro n. unfold names_of. rewrite in_flat_map. split.
    - intros (item & Hin & Hn). exists item. split; [exact Hin |].
      rewrite forallb_forall in Hall. specialize (Hall item Hin). unfold has_path in Hall.
      destruct (path item) as [q |]; [| discriminate Hall].
      destruct Hn as [<- | Hn]; [left; reflexivity | right; exact Hn].
    - intros (item & Hin & [Hp | Ht]); exists item; split; try exact Hin.
      + rewrite Hp. left. reflexivity.
      + right. exact Ht. }
  assert (Hmem : forall u v, In (u, v) (memberships_of d) <->
            exists item, In item d /\ path item = Some u /\ In v (item_tags item)).
  { intros u v. unfold memberships_of. rewrite in_flat_map. split.
    - intros (item & Hin & Hm). exists item. split; [exact Hin |].
      apply in_map_iff in Hm. destruct Hm as (t & He & Ht). injection He as Hu <-.
      rewrite forallb_forall in Hall. specialize (Hall item Hin). unfold has_path in Hall.
      destruct (path item) as [q |]; [| discriminate Hall]. simpl in Hu. subst q.
      split; [reflexivity | exact Ht].
    - intros (item & Hin & Hp & Ht). exists item. split; [exact Hin |].
      rewrite Hp. apply in_map. exact Ht. }
  exists G. split; [exact Hrun |]. split; [exact H1 |].
  split; [intro n; rewrite H2; apply Hname |].
  split.
  { intros u v He. apply H3, Hmem in He. destruct He as (item & Hin & Hp & Ht).
    split; [apply H2, Hname; exists item; auto |].
    split; [apply H2, Hname; exists item; auto |].
    exists item. auto. }
  split; [| exact H5].
  intros item p t Hin Hp Ht. apply H4, Hmem. exists item. auto.
Qed.

Lemma make_graph_shape_witness :
  Forall (fun r => path r <> None) two_records /\
  exists G, make_graph (loaded two_records) two_records = Return G /\
            map fst (nodes G) = ["a_threat.txt"; "rifle"; "mask"; "b_safe.txt"; "food"].
Proof.
  assert (H : Forall (fun r => path r <> None) two_records)
    by (repeat constructor; discriminate).
  split; [exact H |].
  destruct (make_graph_shape (loaded two_records) two_records H) as (G & Hrun & _).
  exists G. split; [exact Hrun |]. injection Hrun as <-. reflexivity.
Defined.

End GraphShape.

(* ================================================================== *)
(** * Further properties: degrees and the centrality ranking *)
(* ================================================================== *)

Module DegreeFacts.
Import Py Rar Spec MoreSpec RarFacts ContentFacts DictFacts CorrelationFacts GraphShape.

Lemma degree_fold n es : forall k,
  fold_left
    (fun k e => k + (if String.eqb n (fst e) then 1 else 0)
                  + (if String.eqb n (snd e) then 1 else 0))
    es k
  = k + list_sum (map (ends n) es).
Proof.
  induction es as [| e es IH]; intro k; simpl; [lia |].
  rewrite IH. unfold ends. lia.
Qed.

Lemma degree_ends G n : degree G n = list_sum (map (ends n) (edges G)).
Proof. unfold degree. rewrite degree_fold. reflexivity. Qed.

Lemma list_sum_add {A} (f g : A -> nat) l :
  list_sum (map (fun x => f x + g x) l) = list_sum (map f l) + list_sum (map g l).
Proof. induction l as [| x l IH]; simpl; [reflexivity | rewrite IH; lia]. Qed.

Lemma count_key (x : string) (keys : list string) :
  NoDup keys -> In x keys ->
  list_sum (map (fun n => if String.eqb n x then 1 else 0) keys) = 1.
Proof.
  induction 1 as [| k keys Hk Hnd IH]; simpl; intro Hin; [contradiction |].
  destruct (String.eqb_spec k x) as [-> | Hne].
  - assert (Hz : list_sum (map (fun n => if String.eqb n x then 1 else 0) keys) = 0).
    { clear - Hk. induction keys as [| k keys IH]; simpl; [reflexivity |].
      destruct (String.eqb_spec k x) as [-> | Hne]; [exfalso; apply Hk; left; reflexivity |].
      apply IH. intro H. apply Hk. right. exact H. }
    rewrite Hz. reflexivity.
  - destruct Hin as [-> | Hin]; [contradiction |]. apply IH. exact Hin.
Qed.

Lemma has_node_In n G : has_node n G = true <-> In n (map fst (nodes G)).
Proof.
  unfold has_node. induction (nodes G) as [| [k a] l IH]; simpl.
  - split; [discriminate | contradiction].
  - destruct (String.eqb_spec n k) as [-> | Hne].
    + split; auto.
    + rewrite IH. split; [auto | intros [H | H]; [congruence | exact H]].
Qed.

Lemma ends_sum keys es :
  NoDup keys ->
  (forall e, In e es -> In (fst e) keys /\ In (snd e) keys) ->
  list_sum (map (fun n => list_sum (map (ends n) es)) keys) = 2 * List.length es.
Proof.
  intros Hnd. induction es as [| e es IH]; intro Hin.
  - simpl. clear. induction keys as [| k keys IH]; simpl; [reflexivity | exact IH].
  - cbn [map list_sum List.length].
    rewrite (list_sum_add (fun n => ends n e) (fun n => list_sum (map (ends n) es))).
    rewrite IH by (intros e' H; apply Hin; right; exact H).
    unfold ends at 1.
    rewrite (list_sum_add (fun n => if String.eqb n (fst e) then 1 else 0)
                          (fun n => if String.eqb n (snd e) then 1 else 0)).
    destruct (Hin e (or_introl eq_refl)) as [H1 H2].
    rewrite !count_key by assumption. lia.
Qed.

Lemma memberships_names u v d :
  In (u, v) (memberships_of d) -> In u (names_of d) /\ In v (names_of d).
Proof.
  unfold memberships_of, names_of. rewrite !in_flat_map.
  intros (item & Hin & Hm). apply in_map_iff in Hm. destruct Hm as (t & He & Ht).
  injection He as <- <-.
  split; exists item; split; try exact Hin; [left; reflexivity | right; exact Ht].
Qed.

(** In the graph built from records that all have a path, the degrees of
    the nodes add up to twice the number of edges (an edge from a name to
    itself counts twice for that node). *)
Theorem degree_sum_twice_edges (st : analyzer) (d : list record) :
  Forall (fun r => path r <> None) d ->
  exists G, make_graph st d = Return G /\
            degree_sum G = 2 * List.length (edges G).
Proof.
  intro Hall. apply Forall_has_path in Hall.
  destruct (make_graph_holds st d Hall) as (G & Hrun & H1 & H2 & H3 & H4 & H5).
  exists G. split; [exact Hrun |].
  unfold degree_sum.
  rewrite (map_ext _ (fun na => list_sum (map (ends (fst na)) (edges G))))
    by (intro na; apply degree_ends).
  rewrite <- (map_map fst (fun n => list_sum (map (ends n) (edges G)))).
  apply ends_sum; [exact H1 |].
  intros [u v] He. simpl.
  apply H3, memberships_names in He. destruct He as [Hu Hv].
  split; apply has_node_In, H2; assumption.
Qed.

Lemma degree_sum_twice_edges_witness :
  Forall (fun r => path r <> None) two_records /\
  exists G, make_graph (loaded two_records) two_records = Return G /\
            degree_sum G = 6.
Proof.
  assert (H : Forall (fun r => path r <> None) two_records)
    by (repeat constructor; discriminate).
  split; [exact H |].
  destruct (degree_sum_twice_edges (loaded two_records) two_records H) as (G & Hrun & Hs).
  exists G. split; [exact Hrun |]. rewrite Hs. injection Hrun as <-. reflexivity.
Defined.

(** ** The ranking *)

Lemma insert_desc_perm x l : Permutation (insert_desc x l) (x :: l).
Proof.
  induction l as [| y l IH]; simpl; [reflexivity |].
  destruct (Qle_bool (snd y) (snd x)); [reflexivity |].
  rewrite IH. apply perm_swap.
Qed.

Lemma sorted_desc_perm l : Permutation (sorted_desc l) l.
Proof.
  induction l as [| x l IH]; simpl; [reflexivity |].
  rewrite insert_desc_perm, IH. reflexivity.
Qed.

Lemma insert_desc_sorted x l :
  StronglySorted above l -> StronglySorted above (insert_desc x l).
Proof.
  induction 1 as [| y l Hs IH Hy]; simpl.
  - constructor; constructor.
  - destruct (Qle_bool (snd y) (snd x)) eqn:Hle.
    + apply Qle_bool_iff in Hle. constructor.
      * constructor; assumption.
      * constructor; [exact Hle |].
        rewrite Forall_forall in *. intros z Hz. unfold above in *.
        eapply Qle_trans; [apply Hy; exact Hz | exact Hle].
    + constructor; [exact IH |].
      rewrite Forall_forall in *. intros z Hz.
      apply (Permutation_in _ (insert_desc_perm x l)) in Hz.
      destruct Hz as [<- | Hz]; [| apply Hy; exact Hz].
      unfold above. apply Qlt_le_weak. apply Qnot_le_lt. intro H.
      apply Qle_bool_iff in H. congruence.
Qed.

Lemma sorted_desc_sorted l : StronglySorted above (sorted_desc l).
Proof.
  induction l as [| x l IH]; simpl; [constructor | apply insert_desc_sorted; exact IH].
Qed.

Lemma sorted_split (l : list (string * Q)) n :
  StronglySorted above l ->
  StronglySorted above (firstn n l) /\
  forall x y, In x (firstn n l) -> In y (skipn n l) -> above x y.
Proof.
  intro H. revert n. induction H as [| z l Hs IH Hz]; intro n.
  - rewrite firstn_nil, skipn_nil. split; [constructor | intros x y []].
  - destruct n as [| n]; simpl.
    + split; [constructor | intros x y []].
    + destruct (IH n) as [IH1 IH2]. split.
      * constructor; [exact IH1 |].
        rewrite Forall_forall in *. intros y Hy. apply Hz.
        rewrite <- (firstn_skipn n l). apply in_app_iff. left. exact Hy.
      * intros x y [<- | Hx] Hy.
        -- rewrite Forall_forall in Hz. apply Hz.
           rewrite <- (firstn_skipn n l). apply in_app_iff. right. exact Hy.
        -- apply IH2; assumption.
Qed.

(** Whenever [build_tag_graph] returns, its [top_central_nodes] are the
    five best entries of the degree centrality (all of them for a graph
    with fewer nodes), by decreasing centrality: no node left out has a
    higher centrality than a node listed. *)
Theorem top_central_nodes_ranked gmc (st st' : analyzer) (G : graph) (stats : graph_stats) :
  build_tag_graph gmc st = (st', Return (G, stats)) ->
  List.length (top_central_nodes stats) = Nat.min 5 (List.length (nodes G)) /\
  StronglySorted (fun x y => (snd y <= snd x)%Q) (top_central_nodes stats) /\
  exists rest,
    Permutation (top_central_nodes stats ++ rest) (degree_centrality G) /\
    forall x y, In x (top_central_nodes stats) -> In y rest -> (snd y <= snd x)%Q.
Proof.
  intro Hrun.
  destruct (data st) as [d |] eqn:Hd.
  2:{ unfold build_tag_graph, bind, self, lift, data_of in Hrun.
      rewrite Hd in Hrun. discriminate Hrun. }
  destruct (make_graph st d) as [G0 | e] eqn:HG.
  2:{ unfold build_tag_graph, bind, self, lift, data_of in Hrun.
      rewrite Hd in Hrun. cbn [obind] in Hrun. rewrite HG in Hrun. discriminate Hrun. }
  rewrite (GraphFacts.build_tag_graph_run gmc st d G0 Hd HG) in Hrun.
  destruct (gmc G0) as [cs | e]; [| discriminate Hrun].
  assert (HG0 : G = G0) by congruence.
  assert (Hstats : top_central_nodes stats
                   = firstn 5 (sorted_desc (degree_centrality G0))).
  { assert (E : forall a b : analyzer * outcome (graph * graph_stats),
               a = b -> forall x y, snd a = Return x -> snd b = Return y -> snd x = snd y)
      by (intros a b -> x y Hx Hy; congruence).
    symmetry. exact (f_equal top_central_nodes (E _ _ Hrun _ _ eq_refl eq_refl)). }
  subst G. rewrite Hstats. clear Hrun Hstats.
  pose proof (sorted_desc_sorted (degree_centrality G0)) as Hs.
  destruct (sorted_split _ 5 Hs) as [H1 H2].
  split.
  { rewrite length_firstn, (Permutation_length (sorted_desc_perm _)).
    unfold degree_centrality. destruct (List.length (nodes G0) <=? 1);
      rewrite length_map; reflexivity. }
  split; [exact H1 |].
  exists (skipn 5 (sorted_desc (degree_centrality G0))). split.
  - rewrite firstn_skipn. apply sorted_desc_perm.
  - exact H2.
Qed.

Lemma top_central_nodes_ranked_witness :
  (exists st' G stats,
     build_tag_graph (fun _ => Return []) (loaded two_records) = (st', Return (G, stats)) /\
     List.length (top_central_nodes stats) = 5).
Proof.
  pose proof (GraphFacts.build_tag_graph_run (fun _ => Return []) (loaded two_records)
                two_records example_graph eq_refl eq_refl) as Hrun.
  cbv beta iota in Hrun.
  eexists _, _, _. split; [exact Hrun |].
  exact (proj1 (top_central_nodes_ranked _ _ _ _ _ Hrun)).
Defined.

End DegreeFacts.

(* ================================================================== *)
(** * Further properties: the session *)
(* ================================================================== *)

Module SessionFacts.
Import Py Rar Spec MoreSpec RarFacts ContentFacts DictFacts CorrelationFacts GraphShape.

Lemma analyze_threats_steps st :
  analyze_threats st
  = ofold (threat_step st) (threat_items st)
      (mkThreatAnalysis (List.length (threat_items st)) [] [] []).
Proof. reflexivity. Qed.

Lemma total_incr {K} (eqb : K -> K -> bool) k (c : dict K nat) :
  total (incr eqb k c) = S (total c).
Proof.
  unfold total, incr. induction c as [| [k0 v] c IH]; simpl; [reflexivity |].
  destruct (eqb k k0); simpl; [reflexivity | rewrite IH; lia].
Qed.

Lemma total_incr_all (tags : list string) : forall c : dict string nat,
  total (fold_left (fun c tag => incr String.eqb tag c) tags c)
  = total c + List.length tags.
Proof.
  induction tags as [| t tags IH]; intro c; simpl; [lia |].
  rewrite IH, total_incr. lia.
Qed.

Lemma threat_step_in_range st d idx ta :
  data st = Some d -> forallb has_path d = true -> idx < List.length d ->
  exists item p,
    nth_error d idx = Some item /\ path item = Some p /\
    threat_step st ta idx
    = Return (mkThreatAnalysis (ta_count ta)
                (incr String.eqb (type item) (ta_types ta))
                (fold_left (fun c tag => incr String.eqb tag c) (item_tags item) (ta_tags ta))
                (ta_files ta ++ [mkThreatFile p (type item) (item_tags item)])).
Proof.
  intros Hd Hall Hlt.
  destruct (nth_error d idx) as [item |] eqn:Hn.
  2:{ apply nth_error_None in Hn. lia. }
  assert (Hp : has_path item = true).
  { rewrite forallb_forall in Hall. apply Hall. eapply nth_error_In; eassumption. }
  unfold has_path in Hp. destruct (path item) as [p |] eqn:Hpath; [| discriminate Hp].
  exists item, p. split; [reflexivity |]. split; [exact Hpath |].
  unfold threat_step, data_at, data_of, item_path. rewrite Hd. cbn [obind].
  rewrite Hn. cbn [obind]. rewrite Hpath. reflexivity.
Qed.

Lemma threat_step_out_of_range st d idx ta :
  data st = Some d -> List.length d <= idx -> threat_step st ta idx = Raise IndexError.
Proof.
  intros Hd Hle. unfold threat_step, data_at, data_of. rewrite Hd. cbn [obind].
  destruct (nth_error d idx) eqn:Hn; [| reflexivity].
  assert (idx < List.length d) by (apply nth_error_Some; congruence). lia.
Qed.

Lemma threat_loop st d :
  data st = Some d -> forallb has_path d = true ->
  forall idxs ta, (forall i, In i idxs -> i < List.length d) ->
  exists ta',
    ofold (threat_step st) idxs ta = Return ta' /\
    ta_count ta' = ta_count ta /\
    total (ta_types ta') = total (ta_types ta) + List.length idxs /\
    total (ta_tags ta')
    = total (ta_tags ta) + List.length (flat_map item_tags (records_at d idxs)) /\
    map tf_path (ta_files ta')
    = map tf_path (ta_files ta)
      ++ map (fun r => get_default "" (path r)) (records_at d idxs).
Proof.
  intros Hd Hall idxs. induction idxs as [| idx idxs IH]; intros ta Hin.
  - exists ta. simpl. rewrite app_nil_r. repeat split; lia.
  - destruct (threat_step_in_range st d idx ta Hd Hall (Hin idx (or_introl eq_refl)))
      as (item & p & Hn & Hp & Hstep).
    cbn [ofold]. rewrite Hstep. cbn [obind].
    destruct (IH (mkThreatAnalysis (ta_count ta)
                    (incr String.eqb (type item) (ta_types ta))
                    (fold_left (fun c tag => incr String.eqb tag c) (item_tags item) (ta_tags ta))
                    (ta_files ta ++ [mkThreatFile p (type item) (item_tags item)])))
      as (ta' & Hrun & Hc & Hty & Htg & Hf).
    { intros i Hi. apply Hin. right. exact Hi. }
    exists ta'. split; [exact Hrun |]. cbn [ta_count ta_types ta_tags ta_files] in *.
    unfold records_at in *. cbn [flat_map]. rewrite Hn. cbn [app flat_map map List.length].
    rewrite Hp. cbn [get_default].
    rewrite Hc, Hty, Htg, Hf, total_incr, total_incr_all, map_app, !length_app.
    cbn [map tf_path]. rewrite <- app_assoc.
    repeat split; try reflexivity; lia.
Qed.

(** On a loaded record set [analyze_threats] returns, and its tallies add
    up: the count is the number of threat indices, the type counter totals
    that count, the tag counter totals the tag entries of the threat
    records, and the file list holds the paths of the threat records in
    index order. *)
Theorem analyze_threats_totals (recs : list record) :
  Forall (fun r => path r <> None) recs ->
  exists ta,
    analyze_threats (loaded recs) = Return ta /\
    ta_count ta = List.length (threat_items (loaded recs)) /\
    total (ta_types ta) = ta_count ta /\
    total (ta_tags ta)
    = List.length (flat_map item_tags (records_at recs (threat_items (loaded recs)))) /\
    map tf_path (ta_files ta)
    = map (fun r => get_default "" (path r))
          (records_at recs (threat_items (loaded recs))).
Proof.
  intro Hall. apply Forall_has_path in Hall.
  rewrite analyze_threats_steps.
  destruct (threat_loop (loaded recs) recs (loaded_data recs) Hall
              (threat_items (loaded recs))
              (mkThreatAnalysis (List.length (threat_items (loaded recs))) [] [] []))
    as (ta & Hrun & Hc & Hty & Htg & Hf).
  { intros i Hi. rewrite loaded_threat_items, (well_formed_prefix_all _ Hall) in Hi.
    apply positions_range in Hi. lia. }
  exists ta. split; [exact Hrun |]. cbn in Hc, Hty, Htg, Hf.
  rewrite Hc, Hty, Htg, Hf. repeat split; reflexivity.
Qed.

Lemma analyze_threats_totals_witness :
  Forall (fun r => path r <> None) two_records /\
  exists ta, analyze_threats (loaded two_records) = Return ta /\
             ta_tags ta = [("rifle", 1); ("mask", 1)].
Proof.
  assert (H : Forall (fun r => path r <> None) two_records)
    by (repeat constructor; discriminate).
  split; [exact H |].
  destruct (analyze_threats_totals two_records H) as (ta & Hrun & _).
  exists ta. split; [exact Hrun |]. injection Hrun as <-. reflexivity.
Defined.

Lemma threat_loop_raises st d :
  data st = Some d -> forallb has_path d = true ->
  forall idxs ta, Exists (fun i => List.length d <= i) idxs ->
  ofold (threat_step st) idxs ta = Raise IndexError.
Proof.
  intros Hd Hall idxs. induction idxs as [| idx idxs IH]; intros ta Hex.
  - inversion Hex.
  - cbn [ofold]. destruct (Nat.lt_ge_cases idx (List.length d)) as [Hlt | Hge].
    + destruct (threat_step_in_range st d idx ta Hd Hall Hlt) as (item & p & _ & _ & Hstep).
      rewrite Hstep. cbn [obind]. apply IH.
      inversion Hex as [? ? H | ? ? H]; subst; [lia | exact H].
    + rewrite (threat_step_out_of_range st d idx ta Hd Hge). reflexivity.
Qed.

(** After a second [load_json_data] with fewer records on the same session,
    a threat index kept from the first load may lie beyond the new data:
    [analyze_threats] then raises [IndexError]. *)
Theorem analyze_threats_stale_index (recs1 recs2 : list record) :
  Forall (fun r => path r <> None) recs1 ->
  Forall (fun r => path r <> None) recs2 ->
  (exists i, In i (threat_items (loaded recs1)) /\ List.length recs2 <= i) ->
  analyze_threats (fst (load_json_data recs2 (loaded recs1))) = Raise IndexError.
Proof.
  intros H1 H2 (i & Hi & Hle).
  apply Forall_has_path in H1. pose proof (Forall_has_path _ H2) as H2'.
  rewrite analyze_threats_steps.
  apply (threat_loop_raises _ recs2).
  - rewrite load_json_data_run. reflexivity.
  - exact H2'.
  - rewrite load_json_data_run. cbn [fst classified threat_items set_data].
    apply Exists_exists. exists i. split; [| exact Hle].
    apply in_app_iff. left. exact Hi.
Qed.

Lemma analyze_threats_stale_index_witness :
  Forall (fun r => path r <> None) (rev two_records) /\
  Forall (fun r => path r <> None) one_record /\
  threat_items (loaded (rev two_records)) = [1] /\
  analyze_threats (fst (load_json_data one_record (loaded (rev two_records))))
  = Raise IndexError.
Proof.
  assert (H1 : Forall (fun r => path r <> None) (rev two_records))
    by (repeat constructor; discriminate).
  assert (H2 : Forall (fun r => path r <> None) one_record)
    by (repeat constructor; discriminate).
  split; [exact H1 |]. split; [exact H2 |]. split; [reflexivity |].
  apply (analyze_threats_stale_index (rev two_records) one_record H1 H2).
  exists 1. split; [left; reflexivity | simpl; lia].
Defined.

End SessionFacts.

(* ================================================================== *)
(** * Further properties: the graph builder and the report *)
(* ================================================================== *)

Module ReportFacts.
Import Py Rar Spec MoreSpec RarFacts ContentFacts DictFacts CorrelationFacts GraphShape.

Lemma graph_loop_raises st (l : list (nat * record)) : forall G,
  forallb has_path (map snd l) = false ->
  ofold (graph_step st) l G = Raise (KeyError "path").
Proof.
  induction l as [| [idx item] l IH]; intros G H; simpl in H; [discriminate H |].
  cbn [ofold]. unfold graph_step at 1, item_path. cbn [fst snd]. unfold has_path in H.
  destruct (path item) as [fp |]; simpl in *; [apply IH; exact H | reflexivity].
Qed.

(** [build_tag_graph] raises [TypeError] without data and [KeyError] when a
    record has no path, and then leaves the analyzer as it was.  Otherwise
    it stores the graph before it asks for the communities: the graph is
    kept in the session even when the community detection raises, and the
    builder raises exactly when the detection does. *)
Theorem build_tag_graph_outcome gmc (st : analyzer) :
  match data st with
  | None => build_tag_graph gmc st = (st, Raise TypeError)
  | Some d =>
      if forallb has_path d
      then exists G,
             make_graph st d = Return G /\
             fst (build_tag_graph gmc st) = set_tag_graph G st /\
             match gmc G with
             | Return cs =>
                 exists stats,
                   snd (build_tag_graph gmc st) = Return (G, stats) /\
                   gs_nodes stats = List.length (nodes G) /\
                   gs_edges stats = List.length (edges G) /\
                   communities stats = List.length cs
             | Raise e => snd (build_tag_graph gmc st) = Raise e
             end
      else build_tag_graph gmc st = (st, Raise (KeyError "path"))
  end.
Proof.
  destruct (data st) as [d |] eqn:Hd.
  - destruct (forallb has_path d) eqn:Hall.
    + destruct (make_graph_holds st d Hall) as (G & HG & _).
      exists G. split; [exact HG |].
      rewrite (GraphFacts.build_tag_graph_run gmc st d G Hd HG).
      destruct (gmc G) as [cs | e].
      * split; [reflexivity |]. eexists. split; [reflexivity |].
        repeat split; reflexivity.
      * split; reflexivity.
    + unfold build_tag_graph, bind, self, lift, data_of. rewrite Hd. cbn [obind].
      rewrite make_graph_steps, graph_loop_raises; [reflexivity |].
      rewrite enumerate_snd. exact Hall.
  - unfold build_tag_graph, bind, self, lift, data_of. rewrite Hd. reflexivity.
Qed.

(** ** The cached results *)

Lemma bind_self {A} (f : analyzer -> M A) st : bind self f st = f st st.
Proof. reflexivity. Qed.

Lemma bind_ret {A B} (a : A) (f : A -> M B) st : bind (ret a) f st = f a st.
Proof. reflexivity. Qed.

Lemma reads_ret {A} (a : A) : reads_only (ret a).
Proof. intro st; reflexivity. Qed.

Lemma reads_raise {A} (e : exn) : reads_only (@raise A e).
Proof. intro st; reflexivity. Qed.

Lemma reads_lift {A} (o : outcome A) : reads_only (lift o).
Proof. intro st; reflexivity. Qed.

Lemma reads_self : reads_only self.
Proof. intro st; reflexivity. Qed.

Lemma reads_bind {A B} (m : M A) (f : A -> M B) :
  reads_only m -> (forall a, reads_only (f a)) -> reads_only (bind m f).
Proof.
  intros Hm Hf st. unfold bind. specialize (Hm st).
  destruct (m st) as [st' [a | e]]; simpl in *; subst st'; [apply Hf | reflexivity].
Qed.

Lemma reads_analyze_content : reads_only analyze_content.
Proof.
  unfold analyze_content.
  repeat first [ apply reads_bind; [| intro] | apply reads_self | apply reads_lift
               | apply reads_ret ].
Qed.

Ltac reads_tac :=
  repeat first
    [ apply reads_bind; [ | intro ]
    | apply reads_self | apply reads_lift | apply reads_ret | apply reads_raise
    | apply reads_analyze_content
    | match goal with
      | |- reads_only (match ?x with _ => _ end) => destruct x
      end ].

Lemma cached_report gmc st c g :
  correlations st = Some c -> tag_graph st = Some g -> nodes g <> [] ->
  generate_threat_report gmc st
  = bind analyze_content
      (fun ca =>
         bind self (fun st' =>
         bind (lift (extract_date_patterns st')) (fun dates =>
         bind (lift (analyze_threats st')) (fun ta =>
         bind (match correlations st' with
               | Some c' => ret c'
               | None => raise (KeyError "shared_tags")
               end) (fun corr =>
         bind (lift (ofold (fun ps idx =>
                              try item <- data_at st' idx ;
                              try p <- item_path item ;
                              Return (ps ++ [p]))
                           (threat_items st') [])) (fun threat_paths =>
         bind (lift (data_of st')) (fun d =>
         ret (mkReport
                (List.length d)
                (List.length (threat_items st'))
                (List.length
                   (filter
                      (fun item =>
                         existsb
                           (fun tag =>
                              mem tag
                                (map fst (filter (fun tc => any_in weapon_tag_words (lower (fst tc)))
                                                 (ta_tags ta))))
                           (item_tags item)) d))
                (map fst (filter (fun tc => any_in weapon_tag_words (lower (fst tc)))
                                 (ta_tags ta)))
                (distinct
                   (fold_left
                      (fun rf tag =>
                         match lookup String.eqb tag (shared_tags corr) with
                         | Some files => rf ++ files
                         | None => rf
                         end)
                      (map fst (filter (fun tc => any_in weapon_tag_words (lower (fst tc)))
                                       (ta_tags ta)))
                      []))
                (keyword_occurrences ca)
                (tag_cooccurrence corr)
                (filter (fun sim => mem (file1 sim) threat_paths
                                    || mem (file2 sim) threat_paths)
                        (content_similarity ca))
                dates))))))))
      st.
Proof.
  intros Hc Hg Hn. unfold generate_threat_report.
  rewrite bind_self. rewrite Hc. rewrite bind_ret. rewrite bind_self.
  unfold no_graph. rewrite Hg. destruct (nodes g); [contradiction |].
  rewrite bind_ret. reflexivity.
Qed.

(** Once the session holds correlations and a graph with a node, a report
    recomputes neither: it leaves the analyzer as it is, never calls the
    community detection, and reports the stored co-occurrence map, whatever
    the data now is. *)
Theorem report_uses_cache (st : analyzer) (c : correlations_t) (g : graph) :
  correlations st = Some c -> tag_graph st = Some g -> nodes g <> [] ->
  forall gmc,
    fst (generate_threat_report gmc st) = st /\
    generate_threat_report gmc st = generate_threat_report (fun _ => Raise LibraryError) st /\
    forall r, snd (generate_threat_report gmc st) = Return r ->
              tag_connections r = tag_cooccurrence c.
Proof.
  intros Hc Hg Hn gmc. rewrite !(cached_report _ st c g Hc Hg Hn).
  split; [| split; [reflexivity |]].
  - revert st Hc Hg. clear. intros st _ _.
    match goal with |- fst (?m st) = st => assert (H : reads_only m) end.
    { reads_tac. }
    apply H.
  - intros r Hr. unfold bind at 1 in Hr.
    pose proof (reads_analyze_content st) as Hst.
    destruct (analyze_content st) as [st' [ca | e]]; simpl in Hst; subst st';
      [| discriminate Hr].
    rewrite bind_self in Hr. unfold bind, lift in Hr.
    destruct (extract_date_patterns st); [| discriminate Hr].
    destruct (analyze_threats st); [| discriminate Hr].
    rewrite Hc in Hr. unfold ret in Hr.
    destruct (ofold _ (threat_items st) []); [| discriminate Hr].
    destruct (data_of st); [| discriminate Hr].
    injection Hr as <-. reflexivity.
Qed.

Lemma report_uses_cache_witness :
  data stale_session = Some one_record /\
  correlations stale_session = Some (mkCorrelations [] [(("mask", "rifle"), 1)]) /\
  (exists r, snd (generate_threat_report (fun _ => Raise LibraryError) stale_session)
             = Return r /\
             tag_connections r = [(("mask", "rifle"), 1)]).
Proof.
  split; [reflexivity |]. split; [reflexivity |].
  eexists. split; [vm_compute; reflexivity |].
  refine (proj2 (proj2 (report_uses_cache stale_session
                          (mkCorrelations [] [(("mask", "rifle"), 1)]) example_graph
                          eq_refl eq_refl _ (fun _ => Raise LibraryError))) _ _).
  - discriminate.
  - vm_compute. reflexivity.
Defined.

End ReportFacts.

(* ================================================================== *)
(** * Further properties: reports on an empty record set, similarity *)
(* ================================================================== *)

Module SimilarityFacts.
Import Py Rar Spec MoreSpec RarFacts ContentFacts DictFacts CorrelationFacts.

(** On an empty record set the graph has no node, and a graph without nodes
    counts as no graph: after [build_tag_graph] has run, every report still
    runs the community detection again, and raises when it raises. *)
Theorem report_on_empty_data gmc (st : analyzer) :
  data st = Some [] -> threat_items st = [] ->
  tag_graph (fst (build_tag_graph gmc st)) = Some (mkGraph [] []) /\
  no_graph (fst (build_tag_graph gmc st)) = true /\
  forall gmc' e,
    gmc' (mkGraph [] []) = Raise e ->
    snd (generate_threat_report gmc' (fst (build_tag_graph gmc st))) = Raise e.
Proof.
  intros Hd Ht.
  rewrite (GraphFacts.build_tag_graph_run gmc st [] (mkGraph [] []) Hd eq_refl).
  assert (Hst : fst (match gmc (mkGraph [] []) with
                     | Return cs =>
                         (set_tag_graph (mkGraph [] []) st,
                          Return (mkGraph [] [],
                                  mkGraphStats (List.length (nodes (mkGraph [] [])))
                                    (List.length (edges (mkGraph [] [])))
                                    (firstn 5 (sorted_desc (degree_centrality (mkGraph [] []))))
                                    (List.length cs)
                                    (match cs with c :: _ => List.length c | [] => 0 end)))
                     | Raise e => (set_tag_graph (mkGraph [] []) st, Raise e)
                     end) = set_tag_graph (mkGraph [] []) st)
    by (destruct (gmc (mkGraph [] [])); reflexivity).
  rewrite Hst. split; [reflexivity |]. split; [reflexivity |].
  intros gmc' e He.
  unfold generate_threat_report. rewrite ReportFacts.bind_self.
  cbn [correlations set_tag_graph].
  destruct (correlations st) as [c |] eqn:Hc.
  - rewrite ReportFacts.bind_ret, ReportFacts.bind_self.
    cbn [no_graph tag_graph set_tag_graph nodes].
    unfold bind at 1. unfold bind at 1.
    rewrite (GraphFacts.build_tag_graph_run gmc' _ [] (mkGraph [] []))
      by (try exact Hd; reflexivity).
    rewrite He. reflexivity.
  - unfold bind at 1. unfold bind at 1.
    rewrite (CorrelationFacts.find_tag_correlations_run _ [] [] []) by (try exact Hd; reflexivity).
    unfold ret at 1. cbv beta iota. rewrite ReportFacts.bind_self.
    cbn [no_graph tag_graph set_tag_graph set_correlations nodes].
    unfold bind at 1. unfold bind at 1.
    rewrite (GraphFacts.build_tag_graph_run gmc' _ [] (mkGraph [] []))
      by (try exact Hd; reflexivity).
    rewrite He. reflexivity.
Qed.

Lemma report_on_empty_data_witness :
  data (loaded []) = Some [] /\
  snd (generate_threat_report (fun _ => Raise LibraryError)
         (fst (build_tag_graph (fun _ => Return []) (loaded []))))
  = Raise LibraryError.
Proof.
  split; [reflexivity |].
  exact (proj2 (proj2 (report_on_empty_data (fun _ => Return []) (loaded [])
                         eq_refl eq_refl))
           (fun _ => Raise LibraryError) LibraryError eq_refl).
Defined.

(** ** Word sets *)

Lemma mem_spec x l : mem x l = true <-> In x l.
Proof. apply CorrelationFacts.mem_In. Qed.

Lemma distinct_In x l : In x (distinct l) <-> In x l.
Proof.
  induction l as [| y l IH]; simpl; [tauto |].
  destruct (mem y l) eqn:Hm.
  - rewrite IH. split; [auto |]. intros [<- | H]; [apply mem_spec; exact Hm | exact H].
  - simpl. rewrite IH. tauto.
Qed.

Lemma distinct_NoDup l : NoDup (distinct l).
Proof.
  induction l as [| y l IH]; simpl; [constructor |].
  destruct (mem y l) eqn:Hm; [exact IH |].
  constructor; [| exact IH].
  rewrite distinct_In. intro H. apply mem_spec in H. congruence.
Qed.

Lemma words_NoDup text : NoDup (words text).
Proof. apply distinct_NoDup. Qed.

Lemma intersection_In x a b : In x (intersection a b) <-> In x a /\ In x b.
Proof. unfold intersection. rewrite filter_In, mem_spec. tauto. Qed.

Lemma intersection_length_sym a b :
  NoDup a -> NoDup b ->
  List.length (intersection a b) = List.length (intersection b a).
Proof.
  intros Ha Hb. apply Nat.le_antisymm; apply NoDup_incl_length;
    try (apply NoDup_filter; assumption);
    intros x Hx; apply intersection_In in Hx; apply intersection_In; tauto.
Qed.

Lemma filter_split {A} (f : A -> bool) l :
  List.length (filter f l) + List.length (filter (fun x => negb (f x)) l)
  = List.length l.
Proof.
  induction l as [| x l IH]; simpl; [reflexivity |].
  destruct (f x); simpl; lia.
Qed.

Lemma union_length a b :
  List.length (union a b) + List.length (intersection b a)
  = List.length a + List.length b.
Proof.
  unfold union, intersection. rewrite length_app.
  pose proof (filter_split (fun w => mem w a) b). lia.
Qed.

Lemma jaccard_sym text1 text2 : jaccard text1 text2 = jaccard text2 text1.
Proof.
  unfold jaccard.
  pose proof (intersection_length_sym _ _ (words_NoDup text1) (words_NoDup text2)) as Hi.
  pose proof (union_length (words text1) (words text2)) as H1.
  pose proof (union_length (words text2) (words text1)) as H2.
  rewrite Hi. replace (List.length (union (words text1) (words text2)))
    with (List.length (union (words text2) (words text1))) by lia.
  reflexivity.
Qed.

(** The similarity of two text items does not depend on their order: both
    orders give an edge or neither does, with the same similarity and the
    same common words. *)
Theorem compare_pair_symmetric (a b : text_item) :
  match compare_pair a b, compare_pair b a with
  | Some e, Some e' =>
      similarity e = similarity e' /\
      file1 e = file2 e' /\ file2 e = file1 e' /\
      forall w, In w (common_words e) <-> In w (common_words e')
  | None, None => True
  | _, _ => False
  end.
Proof.
  rewrite !compare_pair_spec, (jaccard_sym (ti_content b) (ti_content a)).
  rewrite (andb_comm (nonempty (words (ti_content b)))).
  destruct (nonempty (words (ti_content a)) && nonempty (words (ti_content b))
            && Qgtb (jaccard (ti_content a) (ti_content b)) (1 # 10)); [| exact I].
  cbn [similarity file1 file2 common_words]. repeat split; try reflexivity;
    intro H; apply intersection_In in H; apply intersection_In; tauto.
Qed.

Lemma Zpos_of_nat n : 0 < n -> Z.pos (Pos.of_nat n) = Z.of_nat n.
Proof.
  intro H. destruct n as [| n]; [lia |].
  rewrite <- Pos.of_nat_succ, Zpos_P_of_succ_nat. lia.
Qed.

(** Two text items give an edge exactly when ten times the number of their
    common words exceeds the number of distinct words of the two together;
    in particular texts without a common word never give one. *)
Theorem edge_iff_tenfold (a b : text_item) :
  (exists e, compare_pair a b = Some e) <->
  List.length (union (words (ti_content a)) (words (ti_content b)))
  < 10 * List.length (intersection (words (ti_content a)) (words (ti_content b))).
Proof.
  rewrite compare_pair_spec. unfold jaccard.
  set (wa := words (ti_content a)). set (wb := words (ti_content b)).
  assert (Hne : 0 < List.length (intersection wa wb) ->
                nonempty wa = true /\ nonempty wb = true).
  { intro H. destruct (intersection wa wb) as [| x l] eqn:Hi; [simpl in H; lia |].
    assert (Hx : In x (intersection wa wb)) by (rewrite Hi; left; reflexivity).
    apply intersection_In in Hx. destruct Hx as [H1 H2].
    destruct wa; [contradiction |]. destruct wb; [contradiction |]. split; reflexivity. }
  assert (Hpos : nonempty wa = true -> 0 < List.length (union wa wb)).
  { intro H. unfold union. rewrite length_app. destruct wa; [discriminate H | simpl; lia]. }
  split.
  - intros [e He].
    destruct (nonempty wa) eqn:Ha; [| discriminate He].
    destruct (nonempty wb) eqn:Hb; [| discriminate He].
    destruct (Qgtb _ _) eqn:Hq; [| discriminate He].
    apply Qgtb_lt in Hq. unfold Qlt in Hq. simpl in Hq.
    rewrite Zpos_of_nat in Hq by (apply Hpos; reflexivity). lia.
  - intro H. destruct Hne as [Ha Hb]; [lia |]. rewrite Ha, Hb. cbn [andb].
    assert (Hq : Qgtb (Z.of_nat (List.length (intersection wa wb))
                       # Pos.of_nat (List.length (union wa wb))) (1 # 10) = true).
    { apply Qgtb_lt. unfold Qlt. simpl.
      rewrite Zpos_of_nat by (apply Hpos; exact Ha). lia. }
    rewrite Hq. eexists. reflexivity.
Qed.

Lemma intersection_self a : intersection a a = a.
Proof.
  unfold intersection. apply forallb_filter_id. apply forallb_forall.
  intros x Hx. apply mem_spec. exact Hx.
Qed.

Lemma union_self a : union a a = a.
Proof.
  unfold union. rewrite <- (app_nil_r a) at 3. f_equal.
  assert (H : forall l', (forall y, In y l' -> In y a) ->
                         filter (fun w => negb (mem w a)) l' = []).
  { induction l' as [| y l' IH']; intro Hin; cbn [filter]; [reflexivity |].
    assert (Hy : mem y a = true) by (apply mem_spec; apply Hin; left; reflexivity).
    rewrite Hy. cbn [negb]. apply IH'. intros z Hz. apply Hin. right. exact Hz. }
  apply H. auto.
Qed.

(** Two text items with the same content that holds a word always give an
    edge, with similarity 1 and all the words of the text in common. *)
Theorem identical_content_edge (a b : text_item) :
  ti_content a = ti_content b ->
  nonempty (words (ti_content a)) = true ->
  exists e,
    compare_pair a b = Some e /\
    (similarity e == 1)%Q /\
    common_words e = words (ti_content a).
Proof.
  intros Heq Hne. rewrite compare_pair_spec, <- Heq. unfold jaccard.
  rewrite intersection_self, union_self, Hne. cbn [andb].
  set (n := List.length (words (ti_content a))).
  assert (Hn : 0 < n) by (subst n; destruct (words (ti_content a)); [discriminate Hne | simpl; lia]).
  assert (Hq : Qgtb (Z.of_nat n # Pos.of_nat n) (1 # 10) = true).
  { apply Qgtb_lt. unfold Qlt. simpl. rewrite Zpos_of_nat by exact Hn. lia. }
  rewrite Hq. eexists. split; [reflexivity |]. cbn [similarity common_words].
  split; [| reflexivity].
  unfold Qeq. simpl. rewrite Zpos_of_nat by exact Hn. lia.
Qed.

Lemma identical_content_edge_witness :
  nonempty (words "Meet at the dock") = true /\
  exists e,
    compare_pair (mkTextItem "a.txt" "Meet at the dock" false)
                 (mkTextItem "b.txt" "Meet at the dock" true) = Some e /\
    (similarity e == 1)%Q.
Proof.
  split; [reflexivity |].
  destruct (identical_content_edge (mkTextItem "a.txt" "Meet at the dock" false)
              (mkTextItem "b.txt" "Meet at the dock" true) eq_refl eq_refl)
    as (e & He & Hs & _).
  exists e. split; assumption.
Defined.

(** The similarity ignores the letter case of the two texts. *)
Theorem jaccard_case_insensitive (text1 text2 : string) :
  jaccard (lower text1) (lower text2) = jaccard text1 text2.
Proof.
  unfold jaccard, words. rewrite !LoadFacts.lower_idempotent. reflexivity.
Qed.

End SimilarityFacts.

(* ================================================================== *)
(** * Further properties: what the patterns report *)
(* ================================================================== *)

Module EngineFacts.
Import Py Re Wow WowSpec MatchSpec.

Lemma append_assoc (a b c : string) : ((a ++ b) ++ c = a ++ (b ++ c))%string.
Proof. induction a as [| x a IH]; simpl; [reflexivity | rewrite IH; reflexivity]. Qed.

Lemma length_append (a b : string) :
  String.length (a ++ b) = String.length a + String.length b.
Proof. induction a as [| x a IH]; simpl; [reflexivity | rewrite IH; reflexivity]. Qed.

Lemma substring_append (a b : string) : substring 0 (String.length a) (a ++ b) = a.
Proof. induction a as [| x a IH]; simpl; [destruct b; reflexivity | rewrite IH; reflexivity]. Qed.

Lemma prefix_append (a b : string) : prefix a (a ++ b) = true.
Proof.
  induction a as [| x a IH]; simpl; [destruct b; reflexivity |].
  destruct (Ascii.ascii_dec x x); [exact IH | congruence].
Qed.

Lemma contains_prefix (m s : string) : prefix m s = true -> contains m s = true.
Proof. intro H. destruct s; cbn [contains]; rewrite H; reflexivity. Qed.

Lemma contains_append (pre m post : string) : contains m (pre ++ m ++ post) = true.
Proof.
  induction pre as [| x pre IH].
  - cbn [append]. apply contains_prefix, prefix_append.
  - cbn [append contains]. rewrite IH. apply orb_true_r.
Qed.

Lemma reaches_refl cur : reaches 0 (Some 0) cur cur.
Proof.
  exists EmptyString. simpl. repeat split; try lia.
  all: intros M H; injection H as <-; lia.
Qed.

Lemma reaches_trans a ha b hb c1 c2 c3 :
  reaches a ha c1 c2 -> reaches b hb c2 c3 ->
  reaches (a + b)
          (match ha, hb with Some x, Some y => Some (x + y) | _, _ => None end)
          c1 c3.
Proof.
  intros (s1 & E1 & C1 & L1 & U1) (s2 & E2 & C2 & L2 & U2).
  exists (s1 ++ s2)%string. rewrite append_assoc, <- E2, <- E1, length_append.
  repeat split; try lia.
  intros M HM. destruct ha as [x |], hb as [y |]; try discriminate HM.
  injection HM as <-. specialize (U1 x eq_refl). specialize (U2 y eq_refl). lia.
Qed.

Lemma reaches_weaken lo hi lo' hi' c c' :
  reaches lo hi c c' -> lo' <= lo ->
  (forall M', hi' = Some M' -> exists M, hi = Some M /\ M <= M') ->
  reaches lo' hi' c c'.
Proof.
  intros (s & E & C & L & U) Hlo Hhi. exists s. repeat split; try assumption; try lia.
  intros M' HM. destruct (Hhi M' HM) as (M & HM1 & HM2). specialize (U M HM1). lia.
Qed.

Lemma take_reaches ok k cur n :
  take ok k cur = Some n ->
  exists cur', k cur' = Some n /\ reaches 1 (Some 1) cur cur'.
Proof.
  unfold take. destruct (after cur) as [| x s] eqn:E; [discriminate |].
  destruct (ok x); [| discriminate]. intro H.
  eexists. split; [exact H |].
  exists (String x EmptyString). simpl. rewrite E.
  repeat split; try lia. intros M HM. injection HM as <-. lia.
Qed.

(** Every match of a pattern takes a stretch of the text whose length lies
    between [min_len] and [max_len]. *)
Lemma exec_bounds r : forall ic k cur n,
  exec ic r k cur = Some n ->
  exists cur', k cur' = Some n /\ reaches (min_len r) (max_len r) cur cur'.
Proof.
  induction r as [| a | p | | r1 IH1 r2 IH2 | r0 IH0 lo hi greedy];
    intros ic k cur n H; cbn [exec] in H; cbn [min_len max_len].
  - exists cur. split; [exact H | apply reaches_refl].
  - apply take_reaches in H. exact H.
  - apply take_reaches in H. exact H.
  - destruct (at_boundary cur); [| discriminate H].
    exists cur. split; [exact H | apply reaches_refl].
  - apply IH1 in H. destruct H as (c1 & H & R1).
    apply IH2 in H. destruct H as (c2 & H & R2).
    exists c2. split; [exact H |]. exact (reaches_trans _ _ _ _ _ _ _ R1 R2).
  - set (extra := match hi with
                  | Some h => h - lo
                  | None => String.length (after cur)
                  end) in H.
    assert (Hextra : extra = match hi with
                             | Some h => h - lo
                             | None => String.length (after cur)
                             end) by reflexivity.
    clearbody extra.
    assert (Hmay : forall e c m,
               (fix may (n : nat) (c : cursor) {struct n} : option nat :=
                  match n with
                  | O => k c
                  | S n' =>
                      if greedy then orelse (exec ic r0 (may n') c) (k c)
                      else orelse (k c) (exec ic r0 (may n') c)
                  end) e c = Some m ->
               exists c', k c' = Some m /\
                          reaches 0 (option_map (Nat.mul e) (max_len r0)) c c').
    { induction e as [| e IHe]; intros c m Hm.
      - exists c. split; [exact Hm |].
        eapply reaches_weaken; [apply reaches_refl | lia |].
        intros M' HM. exists 0. split; [reflexivity | lia].
      - assert (Hstop : k c = Some m ->
                  exists c', k c' = Some m /\
                             reaches 0 (option_map (Nat.mul (S e)) (max_len r0)) c c').
        { intro Hk. exists c. split; [exact Hk |].
          eapply reaches_weaken; [apply reaches_refl | lia |].
          intros M' HM. exists 0. split; [reflexivity | lia]. }
        assert (Hmore : forall kk,
                  (forall c1 m1, kk c1 = Some m1 ->
                     exists c', k c' = Some m1 /\
                                reaches 0 (option_map (Nat.mul e) (max_len r0)) c1 c') ->
                  exec ic r0 kk c = Some m ->
                  exists c', k c' = Some m /\
                             reaches 0 (option_map (Nat.mul (S e)) (max_len r0)) c c').
        { intros kk Hkk Hex. apply IH0 in Hex. destruct Hex as (c1 & Hc1 & R1).
          apply Hkk in Hc1. destruct Hc1 as (c' & Hc' & R2).
          exists c'. split; [exact Hc' |].
          eapply reaches_weaken; [exact (reaches_trans _ _ _ _ _ _ _ R1 R2) | lia |].
          intros M' HM. destruct (max_len r0) as [a |]; [| discriminate HM].
          simpl in HM. injection HM as <-. exists (a + e * a). split; [reflexivity | lia]. }
        destruct greedy.
        + destruct (exec ic r0 _ c) as [m' |] eqn:Hex; simpl in Hm.
          * injection Hm as <-. eapply Hmore; [exact IHe | exact Hex].
          * apply Hstop. exact Hm.
        + destruct (k c) as [m' |] eqn:Hk; simpl in Hm.
          * injection Hm as <-. apply Hstop. reflexivity.
          * eapply Hmore; [exact IHe | exact Hm]. }
    assert (Hmust : forall j c m,
               (fix must (n : nat) (c : cursor) {struct n} : option nat :=
                  match n with
                  | O =>
                      (fix may (n : nat) (c : cursor) {struct n} : option nat :=
                         match n with
                         | O => k c
                         | S n' =>
                             if greedy then orelse (exec ic r0 (may n') c) (k c)
                             else orelse (k c) (exec ic r0 (may n') c)
                         end) extra c
                  | S n' => exec ic r0 (must n') c
                  end) j c = Some m ->
               exists c', k c' = Some m /\
                          reaches (j * min_len r0)
                                  (option_map (Nat.mul (j + extra)) (max_len r0)) c c').
    { induction j as [| j IHj]; intros c m Hm.
      - apply Hmay in Hm. exact Hm.
      - apply IH0 in Hm. destruct Hm as (c1 & Hc1 & R1).
        apply IHj in Hc1. destruct Hc1 as (c' & Hc' & R2).
        exists c'. split; [exact Hc' |].
        eapply reaches_weaken; [exact (reaches_trans _ _ _ _ _ _ _ R1 R2) | simpl; lia |].
        intros M' HM. destruct (max_len r0) as [a |]; [| discriminate HM].
        simpl in HM. injection HM as <-. exists (a + (j + extra) * a).
        split; [reflexivity | lia]. }
    apply Hmust in H. destruct H as (c' & Hc' & R).
    exists c'. split; [exact Hc' |].
    eapply reaches_weaken; [exact R | lia |].
    intros M' HM. destruct (max_len r0) as [a |]; [| discriminate HM].
    destruct hi as [h |]; [| discriminate HM].
    injection HM as <-. rewrite Hextra. exists ((lo + (h - lo)) * a).
    split; [reflexivity |]. apply Nat.mul_le_mono_r. lia.
Qed.

Lemma match_at_bounds ic r prev rest len :
  match_at ic r prev rest = Some len ->
  exists s post,
    rest = (s ++ post)%string /\ len = String.length s /\
    min_len r <= len /\ (forall M, max_len r = Some M -> len <= M).
Proof.
  unfold match_at. intro H. apply exec_bounds in H.
  destruct H as (cur' & Hk & s & E & C & L & U). simpl in *.
  injection Hk as <-. exists s, (after cur'). rewrite C.
  repeat split; try assumption.
Qed.

Lemma scan_elements ic r : forall rest prev skip m,
  In m (scan ic r prev rest skip) ->
  exists pre prev' rest' len,
    rest = (pre ++ rest')%string /\
    match_at ic r prev' rest' = Some len /\ m = substring 0 len rest'.
Proof.
  induction rest as [| c rest IH]; intros prev skip m Hin.
  - destruct skip; simpl in Hin; [| contradiction].
    destruct (match_at ic r prev EmptyString) as [len |] eqn:Hm; [| contradiction].
    destruct Hin as [<- | []].
    exists EmptyString, prev, EmptyString, len. repeat split; assumption.
  - assert (Htail : forall prev1 skip1,
               In m (scan ic r prev1 rest skip1) ->
               exists pre prev' rest' len,
                 String c rest = (pre ++ rest')%string /\
                 match_at ic r prev' rest' = Some len /\ m = substring 0 len rest').
    { intros prev1 skip1 H. apply IH in H.
      destruct H as (pre & prev' & rest' & len & E & Hm & Hs).
      exists (String c pre), prev', rest', len. simpl. rewrite E.
      repeat split; assumption. }
    destruct skip as [| skip]; cbn [scan] in Hin.
    + destruct (match_at ic r prev (String c rest)) as [len |] eqn:Hm.
      * destruct Hin as [<- | Hin].
        -- exists EmptyString, prev, (String c rest), len. repeat split; assumption.
        -- eapply Htail. exact Hin.
      * eapply Htail. exact Hin.
    + eapply Htail. exact Hin.
Qed.

(** Every element of [findall] is a stretch of the text, of a length the
    pattern allows. *)
Lemma findall_elements ic r text m :
  In m (findall ic r text) ->
  (exists pre post, text = (pre ++ m ++ post)%string) /\
  min_len r <= String.length m /\
  (forall M, max_len r = Some M -> String.length m <= M).
Proof.
  unfold findall. intro H. apply scan_elements in H.
  destruct H as (pre & prev' & rest' & len & E & Hm & Hs).
  apply match_at_bounds in Hm. destruct Hm as (s & post & E' & Hl & Hmin & Hmax).
  subst rest' len. rewrite substring_append in Hs. subst m.
  split; [exists pre, post; exact E |]. split; assumption.
Qed.

Lemma findall_contains ic r text m :
  In m (findall ic r text) -> contains m text = true.
Proof.
  intro H. apply findall_elements in H. destruct H as ((pre & post & ->) & _).
  apply contains_append.
Qed.

Lemma scan_total ic r :
  1 <= min_len r ->
  forall rest prev skip,
    skip <= String.length rest ->
    total_length (scan ic r prev rest skip) + skip <= String.length rest.
Proof.
  intros Hmin. induction rest as [| c rest IH]; intros prev skip Hskip.
  - simpl in Hskip. assert (skip = 0) by lia. subst skip. cbn [scan].
    destruct (match_at ic r prev EmptyString) as [len |] eqn:Hm; [| simpl; lia].
    apply match_at_bounds in Hm. destruct Hm as (s & post & E & Hl & Hlo & _).
    destruct s; [simpl in Hl; lia | discriminate E].
  - destruct skip as [| skip]; cbn [scan].
    + destruct (match_at ic r prev (String c rest)) as [len |] eqn:Hm.
      * pose proof Hm as Hm'. apply match_at_bounds in Hm'.
        destruct Hm' as (s & post & E & Hl & Hlo & _).
        subst len.
        assert (Hrest : S (String.length rest) = String.length s + String.length post).
        { change (S (String.length rest)) with (String.length (String c rest)).
          rewrite E. apply length_append. }
        unfold total_length. cbn [map list_sum].
        replace (substring 0 (String.length s) (String c rest)) with s
          by (rewrite E; symmetry; apply substring_append).
        specialize (IH (Some c) (String.length s - 1) ltac:(lia)).
        unfold total_length in IH. cbn [String.length]. unfold list_sum in *.
        cbn [fold_right]. lia.
      * specialize (IH (Some c) 0 ltac:(lia)). simpl String.length. lia.
    + simpl in Hskip. specialize (IH (Some c) skip ltac:(lia)).
      simpl String.length. lia.
Qed.

(** The matches of a pattern that cannot match the empty text do not
    overlap: their lengths add up to at most the length of the text. *)
Lemma findall_total ic r text :
  1 <= min_len r -> total_length (findall ic r text) <= String.length text.
Proof.
  intro H. pose proof (scan_total ic r H text None 0 (Nat.le_0_l _)).
  unfold findall. lia.
Qed.

Lemma total_length_count (l : list string) n :
  (forall m, In m l -> n <= String.length m) -> n * List.length l <= total_length l.
Proof.
  unfold total_length. induction l as [| m l IH]; intro H; simpl; [lia |].
  specialize (IH (fun m' Hm => H m' (or_intror Hm))).
  specialize (H m (or_introl eq_refl)). lia.
Qed.

(** Every entity reported for a text is a stretch of that text, never empty:
    an email has at least 5 characters, a URL at least 8, a phone number
    between 10 and 14, a card number at least 13; and the phone numbers of a
    text do not overlap, so a text of [n] characters holds at most [n / 10]
    of them. *)
Theorem entities_are_stretches (text : string) :
  (forall e, In e (detect_entities text) ->
     contains (ent_value e) text = true /\
     ((ent_type e = "email" /\ 5 <= String.length (ent_value e)) \/
      (ent_type e = "url" /\ 8 <= String.length (ent_value e)) \/
      (ent_type e = "phone" /\ 10 <= String.length (ent_value e) <= 14) \/
      (ent_type e = "credit_card" /\ 13 <= String.length (ent_value e)))) /\
  10 * List.length (findall false PHONE_RE text) <= String.length text /\
  13 * List.length (findall false CREDIT_CARD_RE text) <= String.length text.
Proof.
  split.
  - intros e He. rewrite WowFacts.detect_entities_all in He. unfold found in He.
    repeat rewrite in_app_iff in He.
    destruct He as [He | [He | [He | He]]];
      apply in_map_iff in He; destruct He as (m & <- & Hm);
      (split; [exact (findall_contains _ _ _ _ Hm) |]);
      apply findall_elements in Hm; destruct Hm as (_ & Hlo & Hhi); cbn [ent_type ent_value].
    + left. split; [reflexivity | exact Hlo].
    + right. left. split; [reflexivity | exact Hlo].
    + right. right. left. split; [reflexivity |]. split; [exact Hlo |].
      apply Hhi. reflexivity.
    + right. right. right. split; [reflexivity | exact Hlo].
  - split.
    + eapply Nat.le_trans; [| apply (findall_total false PHONE_RE text); simpl; lia].
      apply total_length_count. intros m Hm.
      apply findall_elements in Hm. exact (proj1 (proj2 Hm)).
    + eapply Nat.le_trans; [| apply (findall_total false CREDIT_CARD_RE text); simpl; lia].
      apply total_length_count. intros m Hm.
      apply findall_elements in Hm. exact (proj1 (proj2 Hm)).
Qed.

(** ** Keywords *)

Lemma lit_match_lower a x : lit_match true a x = true -> lower_char x = lower_char a.
Proof. unfold lit_match. intro H. apply Ascii.eqb_eq in H. congruence. Qed.

Lemma lower_append a b : lower (a ++ b) = (lower a ++ lower b)%string.
Proof. induction a as [| x a IH]; simpl; [reflexivity | rewrite IH; reflexivity]. Qed.

Lemma exec_lits r : forall w,
  lits_of r = Some w ->
  forall k cur n,
    exec true r k cur = Some n ->
    exists cur' s,
      k cur' = Some n /\ after cur = (s ++ after cur')%string /\
      consumed cur' = consumed cur + String.length s /\ lower s = lower w.
Proof.
  induction r as [| a | p | | r1 IH1 r2 IH2 | r0 IH0 lo hi greedy];
    intros w Hw k cur n H; try discriminate Hw.
  - injection Hw as <-. exists cur, EmptyString. simpl in *. repeat split; try lia. exact H.
  - destruct r1; try discriminate Hw; cbn [lits_of] in Hw; cbn [exec] in H.
    + destruct (lits_of r2) as [w2 |] eqn:Hw2; [| discriminate Hw].
      injection Hw as <-.
      unfold take in H. destruct (after cur) as [| x s0] eqn:E; [discriminate H |].
      destruct (lit_match true c x) eqn:Hx; [| discriminate H].
      destruct (IH2 w2 eq_refl _ _ _ H) as (cur' & s & Hk & E' & C & L).
      exists cur', (String x s). simpl in *. rewrite <- E'.
      repeat split; try assumption; try lia.
      rewrite L, (lit_match_lower _ _ Hx). reflexivity.
    + destruct (at_boundary cur); [| discriminate H].
      exact (IH2 w Hw _ _ _ H).
Qed.

Lemma findall_lits r w text m :
  lits_of r = Some w -> In m (findall true r text) ->
  lower m = lower w /\ contains m text = true.
Proof.
  intros Hw Hin. split; [| exact (findall_contains _ _ _ _ Hin)].
  unfold findall in Hin. apply scan_elements in Hin.
  destruct Hin as (pre & prev' & rest' & len & E & Hm & Hs).
  unfold match_at in Hm.
  destruct (exec_lits r w Hw _ _ _ Hm) as (cur' & s & Hk & E' & C & L).
  simpl in *. injection Hk as <-. rewrite C, E', substring_append in Hs.
  subst m. exact L.
Qed.

Lemma add_idempotent (cat : string) (s : list string) : add cat (add cat s) = add cat s.
Proof.
  unfold add. destruct (mem cat s) eqn:Hm.
  - rewrite Hm. reflexivity.
  - assert (H : mem cat (s ++ [cat]) = true).
    { unfold mem. rewrite existsb_app. simpl.
      rewrite String.eqb_refl. apply orb_true_r. }
    rewrite H. reflexivity.
Qed.

Lemma keys_of_matches (cat : string) ms : forall ck : list string * list string,
  snd (fold_left (fun ck m => (add cat (fst ck), snd ck ++ [m])) ms ck) = snd ck ++ ms /\
  fst (fold_left (fun ck m => (add cat (fst ck), snd ck ++ [m])) ms ck)
  = match ms with [] => fst ck | _ :: _ => add cat (fst ck) end.
Proof.
  pose proof (add_idempotent cat) as Hadd.
  induction ms as [| m ms IH]; intro ck; cbn [fold_left].
  - rewrite app_nil_r. split; reflexivity.
  - destruct (IH (add cat (fst ck), snd ck ++ [m])) as [H1 H2].
    rewrite H1, H2. cbn [fst snd]. rewrite <- app_assoc. split; [reflexivity |].
    destruct ms; [reflexivity | apply Hadd].
Qed.

Lemma keys_of_patterns text (cat : string) pats : forall ck : list string * list string,
  snd (fold_left
         (fun acc pat =>
            fold_left (fun ck m => (add cat (fst ck), snd ck ++ [m]))
                      (findall true pat text) acc)
         pats ck)
  = snd ck ++ flat_map (fun pat => findall true pat text) pats /\
  fst (fold_left
         (fun acc pat =>
            fold_left (fun ck m => (add cat (fst ck), snd ck ++ [m]))
                      (findall true pat text) acc)
         pats ck)
  = match flat_map (fun pat => findall true pat text) pats with
    | [] => fst ck
    | _ :: _ => add cat (fst ck)
    end.
Proof.
  pose proof (add_idempotent cat) as Hadd.
  induction pats as [| pat pats IH]; intro ck; cbn [fold_left flat_map].
  - rewrite app_nil_r. split; reflexivity.
  - destruct (IH (fold_left (fun ck m => (add cat (fst ck), snd ck ++ [m]))
                            (findall true pat text) ck)) as [H1 H2].
    destruct (keys_of_matches cat (findall true pat text) ck) as [H3 H4].
    rewrite H1, H2, H3, H4, <- app_assoc. split; [reflexivity |].
    destruct (findall true pat text); cbn [app]; [reflexivity |].
    destruct (flat_map _ pats); [reflexivity | apply Hadd].
Qed.

Lemma detect_keywords_loop text (table : list (string * list regex)) :
  forall ck : list string * list string,
  NoDup (fst ck) ->
  let out :=
    fold_left
      (fun acc cp =>
         fold_left
           (fun acc pat =>
              fold_left (fun ck m => (add (fst cp) (fst ck), snd ck ++ [m]))
                        (findall true pat text) acc)
           (snd cp) acc)
      table ck in
  snd out = snd ck ++ flat_map (matches_of text) table /\
  NoDup (fst out) /\
  forall c, In c (fst out) <->
            In c (fst ck) \/
            exists cp, In cp table /\ fst cp = c /\ matches_of text cp <> [].
Proof.
  induction table as [| cp table IH]; intros ck Hnd; cbn [fold_left flat_map].
  - rewrite app_nil_r. split; [reflexivity |]. split; [exact Hnd |].
    intro c. split; [auto |]. intros [H | (cp & [] & _)]. exact H.
  - destruct (keys_of_patterns text (fst cp) (snd cp) ck) as [H1 H2].
    set (ck1 := fold_left _ (snd cp) ck) in *.
    assert (Hnd1 : NoDup (fst ck1)).
    { rewrite H2. destruct (flat_map _ (snd cp)); [exact Hnd |].
      unfold add. destruct (mem (fst cp) (fst ck)) eqn:Hm; [exact Hnd |].
      apply NoDup_app; [exact Hnd | repeat constructor; intros [] |].
      intros x Hx [<- | []].
      assert (mem (fst cp) (fst ck) = true)
        by (unfold mem; apply existsb_exists; exists (fst cp); split;
            [exact Hx | apply String.eqb_refl]).
      congruence. }
    destruct (IH ck1 Hnd1) as (K1 & K2 & K3).
    split; [rewrite K1, H1, <- app_assoc; reflexivity |].
    split; [exact K2 |].
    intro c. rewrite K3, H2. fold (matches_of text cp).
    assert (Hin_add : forall x, In x (add (fst cp) (fst ck)) <-> In x (fst ck) \/ x = fst cp).
    { intro x. unfold add. destruct (mem (fst cp) (fst ck)) eqn:Hm.
      - split; [auto |]. intros [H | ->]; [exact H |].
        unfold mem in Hm. apply existsb_exists in Hm. destruct Hm as (y & Hy & He).
        apply String.eqb_eq in He. subst y. exact Hy.
      - rewrite in_app_iff. simpl. intuition (subst; auto). }
    destruct (matches_of text cp) as [| m0 ms] eqn:Hms.
    + split.
      * intros [H | (cp' & Hin & Hc & Hne)]; [left; exact H |].
        right. exists cp'. split; [right; exact Hin | split; assumption].
      * intros [H | (cp' & [<- | Hin] & Hc & Hne)]; [left; exact H | congruence |].
        right. exists cp'. split; [exact Hin | split; assumption].
    + rewrite Hin_add. split.
      * intros [[H | ->] | (cp' & Hin & Hc & Hne)].
        -- left. exact H.
        -- right. exists cp. split; [left; reflexivity |]. split; [reflexivity |].
           rewrite Hms. discriminate.
        -- right. exists cp'. split; [right; exact Hin | split; assumption].
      * intros [H | (cp' & [<- | Hin] & Hc & Hne)].
        -- left. left. exact H.
        -- left. right. symmetry. exact Hc.
        -- right. exists cp'. split; [exact Hin | split; assumption].
Qed.

Lemma vocabulary_words :
  vocabulary
  = [ "bank card"; "approval code"; "cash receipt"; "total"; "cash"; "change";
      "aadhar"; "pan"; "passport"; "ssn"; "dl";
      "knife"; "gun"; "rifle"; "grenade"; "explosive";
      "cocaine"; "weed"; "heroin"; "meth";
      "xxx"; "nsfw"; "18+";
      "bomb"; "attack"; "isis"; "recruitmentrifle";
      "location"; "recording"; "camera"; "tracking";
      "encrypted"; "password-protected"; "stego"; "steganography" ].
Proof. vm_compute. reflexivity. Qed.

(** For a text of code points below 256 (the texts of the embedding): the
    keywords reported are stretches of the text and, in lower case, words
    of the keyword table; they are the matches of all the patterns in table
    order, nothing merged or removed.  (Above that range [re.IGNORECASE]
    also takes U+017F for [s] and U+212A for [k], and such a match is not
    a table word in lower case.) *)
Theorem keywords_from_table (text : string) :
  snd (detect_keywords text) = flat_map (matches_of text) COMPILED_THREATS /\
  forall k, In k (snd (detect_keywords text)) ->
            contains k text = true /\ In (lower k) vocabulary.
Proof.
  destruct (detect_keywords_loop text COMPILED_THREATS ([], []) (NoDup_nil _))
    as (Hk & _ & _).
  unfold detect_keywords. cbn [snd app] in Hk. split; [exact Hk |].
  intros k Hin. rewrite Hk in Hin.
  apply in_flat_map in Hin. destruct Hin as (cp & Hcp & Hm).
  unfold matches_of in Hm. apply in_flat_map in Hm. destruct Hm as (pat & Hpat & Hm).
  unfold COMPILED_THREATS in Hcp. apply in_map_iff in Hcp.
  destruct Hcp as (cp0 & <- & Hcp0). cbn [snd] in Hpat.
  apply in_map_iff in Hpat. destruct Hpat as (p0 & <- & Hp0).
  assert (Hl : exists w, lits_of (parse p0) = Some w).
  { clear - Hcp0 Hp0. unfold THREAT_KEYWORDS in Hcp0.
    repeat (destruct Hcp0 as [<- | Hcp0];
            [ cbn [snd] in Hp0;
              repeat (destruct Hp0 as [<- | Hp0]; [eexists; vm_compute; reflexivity |]);
              destruct Hp0 |]).
    destruct Hcp0. }
  destruct Hl as (w & Hw).
  destruct (findall_lits _ w text k Hw Hm) as [Hlow Hc].
  split; [exact Hc |].
  unfold vocabulary. apply in_flat_map. exists cp0. split; [exact Hcp0 |].
  apply in_flat_map. exists p0. split; [exact Hp0 |].
  rewrite Hw, Hlow. left. reflexivity.
Qed.

(** The categories reported for a text are those of the table for which a
    pattern matched, each listed once; there is no category exactly when
    there is no keyword, so a text that only holds entities is flagged with
    an empty category list. *)
Theorem categories_of_matches (text : string) :
  NoDup (fst (detect_keywords text)) /\
  (forall c, In c (fst (detect_keywords text)) <->
             exists cp, In cp COMPILED_THREATS /\ fst cp = c /\ matches_of text cp <> []) /\
  (fst (detect_keywords text) = [] <-> snd (detect_keywords text) = []).
Proof.
  destruct (detect_keywords_loop text COMPILED_THREATS ([], []) (NoDup_nil _))
    as (Hk & Hnd & Hin).
  unfold detect_keywords. cbn [fst snd app] in *.
  split; [exact Hnd |].
  assert (Hc : forall c, In c (fst (detect_keywords text)) <->
             exists cp, In cp COMPILED_THREATS /\ fst cp = c /\ matches_of text cp <> []).
  { intro c. unfold detect_keywords. rewrite Hin. split; [| auto].
    intros [[] | H]. exact H. }
  split; [exact Hc |].
  unfold detect_keywords in Hc. rewrite Hk. split.
  - intro Hnil. destruct (flat_map (matches_of text) COMPILED_THREATS) as [| m ms] eqn:Hf;
      [reflexivity |].
    assert (Hm : In m (flat_map (matches_of text) COMPILED_THREATS))
      by (rewrite Hf; left; reflexivity).
    apply in_flat_map in Hm. destruct Hm as (cp & Hcp & Hm).
    assert (Hcat : In (fst cp) []).
    { rewrite <- Hnil. apply Hc. exists cp. split; [exact Hcp |].
      split; [reflexivity |]. intro E. rewrite E in Hm. exact Hm. }
    destruct Hcat.
  - intro Hnil.
    match goal with |- ?l = [] => destruct l as [| c cs] eqn:Hl end; [reflexivity |].
    assert (Hcin : In c (c :: cs)) by (left; reflexivity).
    apply Hc in Hcin. destruct Hcin as (cp & Hcp & _ & Hne).
    exfalso. apply Hne.
    destruct (matches_of text cp) as [| m ms] eqn:Hm; [reflexivity |].
    assert (Hmin : In m (flat_map (matches_of text) COMPILED_THREATS)).
    { apply in_flat_map. exists cp. split; [exact Hcp |]. rewrite Hm. left. reflexivity. }
    rewrite Hnil in Hmin. destruct Hmin.
Qed.

End EngineFacts.

(* ================================================================== *)
(** * Further properties: the timeline *)
(* ================================================================== *)

Module DateFacts.
Import Py Re Rar Spec MoreSpec RarFacts ContentFacts DictFacts CorrelationFacts.

Lemma extract_date_patterns_steps st :
  extract_date_patterns st
  = (try d <- data_of st ;
     try file_dates <- ofold date_step d [] ;
     Return (fold_left (fun groups fd => push (strftime (snd fd)) (fst fd) groups)
                       file_dates [])).
Proof. reflexivity. Qed.

Lemma lookup_In_keys {V} k (d : dict string V) :
  In k (map fst d) <-> exists v, lookup String.eqb k d = Some v.
Proof.
  induction d as [| [k0 v0] d IH]; simpl.
  - split; [contradiction | intros (v & H); discriminate H].
  - destruct (String.eqb_spec k k0) as [-> | Hne].
    + split; [intros _; eexists; reflexivity | auto].
    + rewrite <- IH. split; [intros [H | H]; [congruence | exact H] | auto].
Qed.

Lemma date_loop l : forall fd,
  forallb has_path l = true ->
  NoDup (map fst fd) ->
  (forall k v, lookup String.eqb k fd = Some v -> date_of k = Some v) ->
  exists fd',
    ofold date_step l fd = Return fd' /\
    NoDup (map fst fd') /\
    (forall k v, lookup String.eqb k fd' = Some v -> date_of k = Some v) /\
    (forall k, In k (map fst fd') <->
               In k (map fst fd) \/
               ((exists item, In item l /\ path item = Some k) /\ date_of k <> None)).
Proof.
  induction l as [| item l IH]; intros fd Hall Hnd Hd.
  - exists fd. split; [reflexivity |]. split; [exact Hnd |]. split; [exact Hd |].
    intro k. split; [auto |]. intros [H | ((item & [] & _) & _)]. exact H.
  - simpl in Hall. apply andb_true_iff in Hall. destruct Hall as [Hp Hall].
    unfold has_path in Hp. destruct (path item) as [p |] eqn:Hpath; [| discriminate Hp].
    cbn [ofold].
    assert (Hstep : exists fd1,
               date_step fd item = Return fd1 /\
               NoDup (map fst fd1) /\
               (forall k v, lookup String.eqb k fd1 = Some v -> date_of k = Some v) /\
               (forall k, In k (map fst fd1) <->
                          In k (map fst fd) \/ (k = p /\ date_of k <> None))).
    { unfold date_step, item_path. rewrite Hpath. cbn [obind].
      pose proof (eq_refl (date_of p)) as Hdp. unfold date_of at 1 in Hdp.
      destruct (findall false DATE_RE p) as [| m0 ms].
      - exists fd. split; [reflexivity |]. split; [exact Hnd |]. split; [exact Hd |].
        intro k. split; [auto |].
        intros [H | [-> H]]; [exact H |]. rewrite <- Hdp in H. congruence.
      - destruct (strptime m0) as [date |].
        + exists (assign p date fd). split; [reflexivity |].
          split; [apply (NoDup_update String.eqb String.eqb_spec); exact Hnd |].
          split.
          * intros k v. unfold assign. rewrite (lookup_update String.eqb String.eqb_spec).
            destruct (String.eqb_spec k p) as [-> | Hne]; [| apply Hd].
            intro H. injection H as <-. symmetry. exact Hdp.
          * intro k. unfold assign. rewrite (keys_update String.eqb).
            destruct (lookup String.eqb p fd) as [v |] eqn:Hl.
            -- split; [auto |]. intros [H | [-> _]]; [exact H |].
               apply lookup_In_keys. eexists. exact Hl.
            -- rewrite in_app_iff. simpl. split.
               ++ intros [H | [<- | []]]; [left; exact H |]. right. split; [reflexivity |].
                  rewrite <- Hdp. discriminate.
               ++ intros [H | [-> _]]; auto.
        + exists fd. split; [reflexivity |]. split; [exact Hnd |]. split; [exact Hd |].
          intro k. split; [auto |].
          intros [H | [-> H]]; [exact H |]. rewrite <- Hdp in H. congruence. }
    destruct Hstep as (fd1 & Hs & Hnd1 & Hd1 & Hk1).
    destruct (IH fd1 Hall Hnd1 Hd1) as (fd' & Hrun & Hnd' & Hd' & Hk').
    exists fd'. rewrite Hs. cbn [obind].
    split; [exact Hrun |]. split; [exact Hnd' |]. split; [exact Hd' |].
    intro k. rewrite Hk', Hk1. split.
    + intros [[H | [-> H]] | ((it & Hin & Hp') & Hdt)].
      * left. exact H.
      * right. split; [exists item; split; [left; reflexivity | exact Hpath] | exact H].
      * right. split; [exists it; split; [right; exact Hin | exact Hp'] | exact Hdt].
    + intros [H | ((it & [<- | Hin] & Hp') & Hdt)].
      * left. left. exact H.
      * left. right. split; [congruence | exact Hdt].
      * right. split; [exists it; split; assumption | exact Hdt].
Qed.

Lemma push_values (k x : string) (d : dict string (list string)) :
  Permutation (flat_map snd (push k x d)) (x :: flat_map snd d).
Proof.
  unfold push. induction d as [| [k0 v] d IH]; simpl; [reflexivity |].
  destruct (String.eqb k k0); simpl.
  - rewrite <- app_assoc. simpl. symmetry. apply Permutation_middle.
  - rewrite IH. symmetry. apply Permutation_middle.
Qed.

Lemma group_loop (fds : dict string (nat * nat * nat)) :
  forall groups : dict string (list string),
  NoDup (map fst groups) ->
  let out := fold_left (fun groups fd => push (strftime (snd fd)) (fst fd) groups)
                       fds groups in
  NoDup (map fst out) /\
  Permutation (flat_map snd out) (flat_map snd groups ++ map fst fds) /\
  forall k files,
    lookup String.eqb k out = Some files ->
    forall p, In p files ->
              (exists files0, lookup String.eqb k groups = Some files0 /\ In p files0) \/
              exists date, In (p, date) fds /\ strftime date = k.
Proof.
  induction fds as [| [p0 d0] fds IH]; intros groups Hnd; cbn [fold_left].
  - simpl. rewrite app_nil_r. split; [exact Hnd |]. split; [reflexivity |].
    intros k files H p Hp. left. exists files. split; assumption.
  - destruct (IH (push (strftime d0) p0 groups)) as (H1 & H2 & H3).
    { apply (NoDup_update String.eqb String.eqb_spec). exact Hnd. }
    split; [exact H1 |]. split.
    + rewrite H2, push_values. cbn [map fst]. simpl. apply Permutation_middle.
    + intros k files Hl p Hp. destruct (H3 k files Hl p Hp) as [(files0 & Hf & Hin) | H].
      * unfold push in Hf. rewrite (lookup_update String.eqb String.eqb_spec) in Hf.
        cbn [fst snd] in Hf.
        destruct (String.eqb_spec k (strftime d0)) as [-> | Hne].
        -- injection Hf as <-. apply in_app_iff in Hin. destruct Hin as [Hin | [<- | []]].
           ++ left. destruct (lookup String.eqb (strftime d0) groups) as [x |];
                [| destruct Hin]. exists x. split; [reflexivity | exact Hin].
           ++ right. exists d0. split; [left; reflexivity | reflexivity].
        -- left. exists files0. split; assumption.
      * right. destruct H as (date & Hin & Hs). exists date. split; [right; exact Hin | exact Hs].
Qed.

Lemma In_lookup {V} k (v : V) (d : dict string V) :
  NoDup (map fst d) -> In (k, v) d -> lookup String.eqb k d = Some v.
Proof.
  induction d as [| [k0 v0] d IH]; simpl; intros Hnd Hin; [contradiction |].
  apply NoDup_cons_iff in Hnd. destruct Hnd as [Hk Hnd].
  destruct Hin as [H | H].
  - injection H as -> ->. rewrite String.eqb_refl. reflexivity.
  - destruct (String.eqb_spec k k0) as [-> | Hne]; [| apply IH; assumption].
    exfalso. apply Hk. apply in_map_iff. exists (k0, v). split; [reflexivity | exact H].
Qed.

(** When every record has a path, [extract_date_patterns] returns: a path
    without a date token, or with a token that is no calendar date, is left
    out without an error; every other path is listed once, under the date
    of its first token, however many records carry that path.  The key is
    the date as [strftime] writes it again, which is the token except for
    the leading zeros of a year below 1000. *)
Theorem extract_date_patterns_groups (st : analyzer) (recs : list record) :
  data st = Some recs ->
  Forall (fun r => path r <> None) recs ->
  exists timeline,
    extract_date_patterns st = Return timeline /\
    NoDup (map fst timeline) /\
    NoDup (flat_map snd timeline) /\
    (forall p, In p (flat_map snd timeline) <->
               (exists item, In item recs /\ path item = Some p) /\ date_of p <> None) /\
    (forall k files p,
       lookup String.eqb k timeline = Some files -> In p files ->
       exists date, date_of p = Some date /\ strftime date = k).
Proof.
  intros Hd Hall. apply Forall_has_path in Hall.
  destruct (date_loop recs [] Hall (NoDup_nil _)) as (fds & Hrun & Hnd & Hdate & Hkeys).
  { intros k v H. discriminate H. }
  destruct (group_loop fds [] (NoDup_nil _)) as (G1 & G2 & G3).
  rewrite extract_date_patterns_steps. unfold data_of. rewrite Hd. cbn [obind].
  rewrite Hrun. cbn [obind].
  eexists. split; [reflexivity |]. split; [exact G1 |].
  cbn [flat_map app] in G2.
  split; [apply (Permutation_NoDup (Permutation_sym G2)); exact Hnd |].
  split.
  - intro p. split.
    + intro H. apply (Permutation_in _ G2) in H. apply Hkeys in H.
      destruct H as [[] | H]. exact H.
    + intro H. apply (Permutation_in _ (Permutation_sym G2)). apply Hkeys. right. exact H.
  - intros k files p Hl Hp. destruct (G3 k files Hl p Hp) as [(f0 & H & _) | (date & Hin & Hs)].
    + discriminate H.
    + exists date. split; [| exact Hs]. apply Hdate. apply In_lookup; assumption.
Qed.

Lemma extract_date_patterns_groups_witness :
  Forall (fun r => path r <> None) dated_records /\
  exists timeline,
    extract_date_patterns (loaded dated_records) = Return timeline /\
    timeline = [("2024-02-29", ["log_2024-02-29.txt"]); ("999-12-31", ["scan_0999-12-31.png"])].
Proof.
  assert (H : Forall (fun r => path r <> None) dated_records)
    by (repeat constructor; discriminate).
  split; [exact H |].
  destruct (extract_date_patterns_groups (loaded dated_records) dated_records eq_refl H)
    as (tl & Hrun & _).
  exists tl. split; [exact Hrun |].
  assert (E : extract_date_patterns (loaded dated_records)
              = Return [("2024-02-29", ["log_2024-02-29.txt"]); ("999-12-31", ["scan_0999-12-31.png"])])
    by (vm_compute; reflexivity).
  congruence.
Defined.

End DateFacts.

(* ================================================================== *)
(** * Further properties: colours and sizes of the drawing *)
(* ================================================================== *)

Module VizFacts.
Import Py Rar Viz Spec MoreSpec RarFacts ContentFacts DictFacts CorrelationFacts GraphShape.

Lemma lookup_add_node n m a G :
  lookup String.eqb n (nodes (add_node m a G))
  = if String.eqb n m then Some a else lookup String.eqb n (nodes G).
Proof.
  unfold add_node, assign. cbn [nodes].
  rewrite (lookup_update String.eqb String.eqb_spec). reflexivity.
Qed.

Lemma attrs_add_file st seen G idx item fp :
  path item = Some fp ->
  attrs_ok st seen G ->
  attrs_ok st (seen ++ [(idx, item)])
    (add_node fp (FileNode (type item) (mem_nat idx (threat_items st))) G).
Proof.
  intros Hp (H1 & H2 & H3). split; [| split].
  - intros n Hl e He. rewrite lookup_add_node in Hl.
    destruct (String.eqb n fp) eqn:Hn; [discriminate Hl |].
    apply String.eqb_neq in Hn.
    apply in_app_iff in He. destruct He as [He | [<- | []]].
    + apply (H1 n Hl e He).
    + simpl. congruence.
  - intros n ft b Hl. rewrite lookup_add_node in Hl.
    destruct (String.eqb n fp) eqn:Hn.
    + apply String.eqb_eq in Hn. subst n. injection Hl as <- <-. exists (idx, item). split; [apply in_app_iff; right; left; reflexivity |].
      simpl. auto.
    + destruct (H2 n ft b Hl) as (e & He & Hrest).
      exists e. split; [apply in_app_iff; left; exact He | exact Hrest].
  - intros e p He Hpe. rewrite has_node_add_node.
    apply in_app_iff in He. destruct He as [He | [<- | []]].
    + rewrite (H3 e p He Hpe). apply orb_true_r.
    + simpl in Hpe. assert (p = fp) by congruence. subst p.
      rewrite String.eqb_refl. reflexivity.
Qed.

Lemma attrs_tag_step st seen G fp t :
  attrs_ok st seen G -> attrs_ok st seen (tag_step fp G t).
Proof.
  intros (H1 & H2 & H3). unfold tag_step.
  assert (Hedge : forall G', nodes (add_edge fp t G') = nodes G').
  { intro G'. unfold add_edge. destruct (existsb _ _); reflexivity. }
  assert (Hhas : forall n G', has_node n (add_edge fp t G') = has_node n G').
  { intros n G'. unfold has_node. rewrite Hedge. reflexivity. }
  destruct (has_node t G) eqn:Ht.
  - split; [| split].
    + intros n Hl. rewrite Hedge in Hl. apply H1. exact Hl.
    + intros n ft b Hl. rewrite Hedge in Hl. apply H2. exact Hl.
    + intros e p He Hp. rewrite Hhas. apply (H3 e p He Hp).
  - split; [| split].
    + intros n Hl e He Hp. rewrite Hedge, lookup_add_node in Hl.
      destruct (String.eqb n t) eqn:Hn.
      * apply String.eqb_eq in Hn. subst n.
        rewrite (H3 e t He Hp) in Ht. discriminate Ht.
      * apply (H1 n Hl e He Hp).
    + intros n ft b Hl. rewrite Hedge, lookup_add_node in Hl.
      destruct (String.eqb n t); [discriminate Hl |].
      apply H2. exact Hl.
    + intros e p He Hp. rewrite Hhas, has_node_add_node, (H3 e p He Hp).
      apply orb_true_r.
Qed.

Lemma attrs_tags st seen fp ts : forall G,
  attrs_ok st seen G -> attrs_ok st seen (fold_left (tag_step fp) ts G).
Proof.
  induction ts as [| t ts IH]; intros G H; simpl; [exact H |].
  apply IH. apply attrs_tag_step. exact H.
Qed.

Lemma attrs_loop st (l : list (nat * record)) : forall seen G,
  forallb has_path (map snd l) = true -> attrs_ok st seen G ->
  exists G', ofold (graph_step st) l G = Return G' /\ attrs_ok st (seen ++ l) G'.
Proof.
  induction l as [| [idx item] l IH]; intros seen G Hall H.
  - exists G. rewrite app_nil_r. split; [reflexivity | exact H].
  - simpl in Hall. apply andb_true_iff in Hall. destruct Hall as [Hp Hall].
    unfold has_path in Hp. destruct (path item) as [fp |] eqn:Hpath; [| discriminate Hp].
    cbn [ofold]. unfold graph_step at 1. cbn [fst snd]. unfold item_path.
    rewrite Hpath. cbn [obind].
    replace (seen ++ (idx, item) :: l) with ((seen ++ [(idx, item)]) ++ l)
      by (rewrite <- app_assoc; reflexivity).
    apply IH; [exact Hall |].
    apply attrs_tags. apply attrs_add_file; assumption.
Qed.

Lemma In_enumerate {A} (l : list A) idx x :
  In (idx, x) (enumerate l) -> nth_error l idx = Some x.
Proof.
  unfold enumerate.
  assert (H : forall k, In (idx, x) (combine (seq k (List.length l)) l) ->
                        k <= idx /\ nth_error l (idx - k) = Some x).
  { induction l as [| y l IH]; intros k Hin; simpl in Hin; [contradiction |].
    destruct Hin as [Hin | Hin].
    - injection Hin as -> ->. rewrite Nat.sub_diag. split; [lia | reflexivity].
    - apply IH in Hin. destruct Hin as [Hle Hn]. split; [lia |].
      replace (idx - k) with (S (idx - S k)) by lia. exact Hn. }
  intro Hin. apply H in Hin. rewrite Nat.sub_0_r in Hin. apply Hin.
Qed.

Lemma mem_nat_In n l : mem_nat n l = true <-> In n l.
Proof.
  unfold mem_nat. rewrite existsb_exists. split.
  - intros (x & Hx & He). apply Nat.eqb_eq in He. subst x. exact Hx.
  - intro H. exists n. split; [exact H | apply Nat.eqb_refl].
Qed.

Lemma In_nodes_lookup n a (G : graph) :
  NoDup (map fst (nodes G)) -> In (n, a) (nodes G) ->
  lookup String.eqb n (nodes G) = Some a.
Proof. apply DateFacts.In_lookup. Qed.

(** On a loaded record set, the drawing gets one colour and one size per
    node, in node order.  A name that is no record's path is drawn as a tag
    (light blue, size 100); a name that is the path of a record is drawn as
    a file (size 50), red exactly when the record with that path whose
    attributes the node carries is a threat index, green otherwise.  The
    drawing raises only when the community detection does. *)
Theorem visualize_colours gmc (recs : list record) :
  Forall (fun r => path r <> None) recs ->
  exists G,
    make_graph (loaded recs) recs = Return G /\
    match gmc G with
    | Return _ =>
        snd (visualize_tag_network gmc (loaded recs))
        = Return (map (fun na => node_color (snd na)) (nodes G),
                  map (fun na => node_size (snd na)) (nodes G))
    | Raise e => snd (visualize_tag_network gmc (loaded recs)) = Raise e
    end /\
    forall n a, In (n, a) (nodes G) ->
      match a with
      | TagNode =>
          node_color a = "lightblue" /\ node_size a = 100 /\
          forall item, In item recs -> path item <> Some n
      | FileNode ft b =>
          node_size a = 50 /\
          exists idx item,
            nth_error recs idx = Some item /\ path item = Some n /\ ft = type item /\
            (node_color a = "red" <-> In idx (threat_items (loaded recs))) /\
            (node_color a = "green" <-> ~ In idx (threat_items (loaded recs)))
      end.
Proof.
  intro Hall. apply Forall_has_path in Hall.
  destruct (make_graph_holds (loaded recs) recs Hall) as (G & HG & Hnd & _).
  destruct (attrs_loop (loaded recs) (enumerate recs) [] (mkGraph [] []))
    as (G' & HG' & H1 & H2 & H3).
  { rewrite enumerate_snd. exact Hall. }
  { split; [| split].
    - intros n Hl. discriminate Hl.
    - intros n ft b Hl. discriminate Hl.
    - intros e p []. }
  rewrite make_graph_steps in HG. rewrite HG in HG'. injection HG' as <-.
  exists G. split; [rewrite make_graph_steps; exact HG |]. split.
  - unfold visualize_tag_network. rewrite ReportFacts.bind_self.
    assert (Hno : no_graph (loaded recs) = true)
      by (unfold loaded; rewrite load_json_data_run; reflexivity).
    rewrite Hno.
    pose proof (GraphFacts.build_tag_graph_run gmc (loaded recs) recs G (loaded_data recs))
      as Hrun.
    rewrite make_graph_steps in Hrun. specialize (Hrun HG).
    destruct (gmc G) as [cs | e]; unfold bind at 1; unfold bind at 1;
      rewrite Hrun; reflexivity.
  - intros n a Hin. apply (In_nodes_lookup n a G Hnd) in Hin.
    destruct a as [ft b |].
    + split; [reflexivity |].
      destruct (H2 n ft b Hin) as ([idx item] & He & Hp & Hft & Hb). simpl in *.
      exists idx, item. split; [apply In_enumerate; exact He |].
      split; [exact Hp |]. split; [exact Hft |].
      rewrite <- mem_nat_In, <- Hb. destruct b; simpl; split; split;
        try congruence; try discriminate; auto.
    + split; [reflexivity |]. split; [reflexivity |].
      intros item Hitem. apply In_nth_error in Hitem. destruct Hitem as [idx Hidx].
      assert (He : In (idx, item) (enumerate recs)).
      { clear - Hidx. unfold enumerate.
        assert (H : forall k, In (k + idx, item) (combine (seq k (List.length recs)) recs)).
        { revert idx Hidx. induction recs as [| y l IH]; intros idx Hidx k.
          - destruct idx; discriminate Hidx.
          - destruct idx as [| idx]; simpl in *.
            + injection Hidx as ->. left. f_equal. lia.
            + right. replace (k + S idx) with (S k + idx) by lia. apply IH. exact Hidx. }
        exact (H 0). }
      exact (H1 n Hin (idx, item) He).
Qed.

Lemma visualize_colours_witness :
  Forall (fun r => path r <> None) two_records /\
  snd (visualize_tag_network (fun _ => Return []) (loaded two_records))
  = Return (["red"; "lightblue"; "lightblue"; "green"; "lightblue"],
            [50; 100; 100; 50; 100]).
Proof.
  assert (H : Forall (fun r => path r <> None) two_records)
    by (repeat constructor; discriminate).
  split; [exact H |].
  destruct (visualize_colours (fun _ => Return []) two_records H) as (G & HG & Hrun & _).
  injection HG as <-. exact Hrun.
Defined.

End VizFacts.

(* ================================================================== *)
(** * Further properties: the size of the graph and the whole pipeline *)
(* ================================================================== *)

Module PipelineFacts.
Import Py Rar Spec MoreSpec RarFacts ContentFacts DictFacts CorrelationFacts GraphShape.

Lemma same_length_sets {A} (dec : forall x y : A, {x = y} + {x <> y}) (l1 l2 : list A) :
  NoDup l1 -> (forall x, In x l1 <-> In x l2) ->
  List.length l1 = List.length (nodup dec l2).
Proof.
  intros Hnd H. apply Nat.le_antisymm; apply NoDup_incl_length.
  - exact Hnd.
  - intros x Hx. apply nodup_In. apply H. exact Hx.
  - apply NoDup_nodup.
  - intros x Hx. apply nodup_In in Hx. apply H. exact Hx.
Qed.

(** The graph has one node per distinct name among the paths and the tags
    of the records, and one edge per distinct (path, tag) pair, a pair and
    its reverse counting once. *)
Theorem graph_counts (st : analyzer) (d : list record) :
  Forall (fun r => path r <> None) d ->
  exists G,
    make_graph st d = Return G /\
    List.length (nodes G) = List.length (nodup string_dec (names_of d)) /\
    List.length (edges G)
    = List.length (nodup pair_dec (map normalize (memberships_of d))).
Proof.
  intro Hall. apply Forall_has_path in Hall.
  destruct (make_graph_holds st d Hall) as (G & Hrun & H1 & H2 & H3 & H4 & H5).
  exists G. split; [exact Hrun |]. split.
  - rewrite <- (length_map fst (nodes G)).
    apply same_length_sets; [exact H1 |].
    intro n. rewrite <- DegreeFacts.has_node_In. apply H2.
  - rewrite <- (length_map normalize (edges G)).
    apply same_length_sets; [exact H5 |].
    intro x. rewrite !in_map_iff. split.
    + intros ([u v] & <- & Hin). exists (u, v). split; [reflexivity | apply H3; exact Hin].
    + intros ([u v] & <- & Hin). apply H4 in Hin. apply existsb_exists in Hin.
      destruct Hin as (e & He & Hs). exists e. split; [| exact He].
      symmetry. apply same_edge_normalize. exact Hs.
Qed.

Lemma graph_counts_witness :
  Forall (fun r => path r <> None) two_records /\
  exists G, make_graph (loaded two_records) two_records = Return G /\
            List.length (nodes G) = 5 /\ List.length (edges G) = 3.
Proof.
  assert (H : Forall (fun r => path r <> None) two_records)
    by (repeat constructor; discriminate).
  split; [exact H |].
  destruct (graph_counts (loaded two_records) two_records H) as (G & Hrun & _).
  exists G. split; [exact Hrun |]. injection Hrun as <-. split; reflexivity.
Defined.

(** ** The pipeline *)

Lemma threat_paths_loop st d :
  data st = Some d -> forallb has_path d = true ->
  forall idxs acc, (forall i, In i idxs -> i < List.length d) ->
  exists ps,
    ofold (fun ps idx =>
             try item <- data_at st idx ;
             try p <- item_path item ;
             Return (ps ++ [p]))
          idxs acc = Return ps.
Proof.
  intros Hd Hall idxs. induction idxs as [| idx idxs IH]; intros acc Hin.
  - exists acc. reflexivity.
  - cbn [ofold]. unfold data_at at 1, data_of. rewrite Hd. cbn [obind].
    destruct (nth_error d idx) as [item |] eqn:Hn.
    2:{ apply nth_error_None in Hn. specialize (Hin idx (or_introl eq_refl)). lia. }
    cbn [obind].
    assert (Hp : has_path item = true).
    { rewrite forallb_forall in Hall. apply Hall. eapply nth_error_In; eassumption. }
    unfold has_path in Hp. unfold item_path at 1.
    destruct (path item) as [p |]; [| discriminate Hp]. cbn [obind].
    apply IH. intros i Hi. apply Hin. right. exact Hi.
Qed.

Lemma analyze_content_outcome (st : analyzer) (recs : list record) :
  data st = Some recs -> forallb has_path recs = true ->
  (forall i, In i (threat_items st) -> i < List.length recs) ->
  (existsb is_object_record recs = true ->
   analyze_content st = (st, Raise AttributeError)) /\
  (existsb is_object_record recs = false ->
   exists items,
     text_contents st recs = Return (map entry_of items) /\
     analyze_content st
     = (st, Return (mkContentAnalysis (keyword_occurrences_of items)
                                      (content_similarity_of items)))).
Proof.
  intros Hd Hall Hidx.
  assert (Hany : forall p, exists b, any_threat_path st p (threat_items st) = Return b).
  { intro p. apply (any_threat_path_returns st recs p Hd Hall). exact Hidx. }
  destruct (text_contents_returns st Hany recs [] Hall) as (entries & Htc & _ & Hcontents).
  assert (Htc' : text_contents st recs = Return entries) by exact Htc.
  split; intro Hobj.
  - apply (analyze_content_object st recs entries Hd Htc').
    apply object_entries in Hobj. destruct Hobj as (cv & fields & Hin & ->).
    rewrite <- Hcontents in Hin. apply in_map_iff in Hin.
    destruct Hin as (e & He & Hin). exists e, fields. split; assumption.
  - destruct (entries_strings entries) as (items & Hitems).
    { intros e He. destruct (te_content e) as [s | fields] eqn:Hcv; [exists s; reflexivity |].
      assert (H : existsb is_object_record recs = true).
      { apply object_entries. exists (CDict fields), fields. split; [| reflexivity].
        rewrite <- Hcontents, <- Hcv. apply in_map. exact He. }
      rewrite H in Hobj. discriminate Hobj. }
    subst entries. exists items. split; [exact Htc' |].
    exact (analyze_content_strings st recs items Hd Htc').
Qed.

(** When every record has a path, the session after the steps of
    [process_metadata] that come before the report is good for a report,
    up to the form of the contents.  When a file-type record has a content
    in the object form, the report raises [AttributeError].  Otherwise the
    report returns, counts all the records and all the threat indices,
    lists each related file once, repeats the stored co-occurrence map and
    takes its similarity edges from those of the text items. *)
Theorem report_returns (st : analyzer) (recs : list record) (c : correlations_t) (g : graph) :
  Forall (fun r => path r <> None) recs ->
  data st = Some recs ->
  (forall i, In i (threat_items st) -> i < List.length recs) ->
  correlations st = Some c -> tag_graph st = Some g -> nodes g <> [] ->
  forall gmc,
    (existsb is_object_record recs = true ->
     generate_threat_report gmc st = (st, Raise AttributeError)) /\
    (existsb is_object_record recs = false ->
     exists r items,
       generate_threat_report gmc st = (st, Return r) /\
       summary_total_items r = List.length recs /\
       summary_threat_items r = List.length (threat_items st) /\
       summary_weapon_related_items r <= List.length recs /\
       NoDup (related_files r) /\
       tag_connections r = tag_cooccurrence c /\
       text_contents st recs = Return (map entry_of items) /\
       incl (content_similarities r) (content_similarity_of items)).
Proof.
  intros Hall Hd Hidx Hc Hg Hn gmc. apply Forall_has_path in Hall.
  rewrite (ReportFacts.cached_report gmc st c g Hc Hg Hn).
  destruct (analyze_content_outcome st recs Hd Hall Hidx) as [Hraise Hreturn].
  split; intro Hobj.
  { unfold bind at 1. rewrite (Hraise Hobj). reflexivity. }
  destruct (Hreturn Hobj) as (items & Htc & Hac).
  destruct (DateFacts.date_loop recs [] Hall (NoDup_nil _)) as (fds & Hdates & _).
  { intros k v H. discriminate H. }
  assert (Hdp : exists tl, extract_date_patterns st = Return tl).
  { rewrite DateFacts.extract_date_patterns_steps. unfold data_of. rewrite Hd.
    cbn [obind]. rewrite Hdates. cbn [obind]. eexists. reflexivity. }
  destruct Hdp as (tl & Hdp).
  destruct (SessionFacts.threat_loop st recs Hd Hall (threat_items st)
              (mkThreatAnalysis (List.length (threat_items st)) [] [] []) Hidx)
    as (ta & Hta & _).
  rewrite <- SessionFacts.analyze_threats_steps in Hta.
  destruct (threat_paths_loop st recs Hd Hall (threat_items st) [] Hidx) as (ps & Hps).
  unfold bind at 1. rewrite Hac. rewrite ReportFacts.bind_self.
  unfold bind at 1. unfold lift at 1. rewrite Hdp.
  unfold bind at 1. unfold lift at 1. rewrite Hta.
  unfold bind at 1. rewrite Hc. unfold ret at 1.
  unfold bind at 1. unfold lift at 1. rewrite Hps.
  unfold bind at 1. unfold lift at 1. unfold data_of. rewrite Hd.
  unfold ret.
  eexists. exists items. split; [reflexivity |].
  cbn [summary_total_items summary_threat_items summary_weapon_related_items
       related_files tag_connections content_similarities content_similarity].
  split; [reflexivity |]. split; [reflexivity |].
  split; [apply filter_length_le |].
  split; [apply SimilarityFacts.distinct_NoDup |].
  split; [reflexivity |].
  split; [exact Htc |].
  apply incl_filter.
Qed.

Lemma report_returns_witness :
  (exists r,
     generate_threat_report (fun _ => Raise LibraryError)
       (fst (process_metadata (fun _ => Return []) two_records fresh))
     = (fst (process_metadata (fun _ => Return []) two_records fresh), Return r) /\
     summary_total_items r = 2) /\
  generate_threat_report (fun _ => Raise LibraryError)
    (set_tag_graph example_graph
       (set_correlations (mkCorrelations [] []) (loaded object_texts)))
  = (set_tag_graph example_graph
       (set_correlations (mkCorrelations [] []) (loaded object_texts)),
     Raise AttributeError).
Proof.
  assert (H : Forall (fun r => path r <> None) two_records)
    by (repeat constructor; discriminate).
  assert (H' : Forall (fun r => path r <> None) object_texts)
    by (repeat constructor; discriminate).
  split.
  - destruct (report_returns
                (fst (process_metadata (fun _ => Return []) two_records fresh))
                two_records (mkCorrelations [] [(("mask", "rifle"), 1)]) example_graph
                H eq_refl)
      with (gmc := fun _ : graph => @Raise (list (list string)) LibraryError)
      as (_ & Hret).
    + intros i [<- | []]. simpl. lia.
    + reflexivity.
    + reflexivity.
    + discriminate.
    + destruct (Hret eq_refl) as (r & items & Hrun & Ht & _).
      exists r. split; [exact Hrun | exact Ht].
  - refine (proj1 (report_returns
                     (set_tag_graph example_graph
                        (set_correlations (mkCorrelations [] []) (loaded object_texts)))
                     object_texts (mkCorrelations [] []) example_graph
                     H' eq_refl _ eq_refl eq_refl _ _) eq_refl).
    + intros i [].
    + discriminate.
Defined.

End PipelineFacts.

(* ================================================================== *)
(** * Further properties: the weapon words among the tags *)
(* ================================================================== *)

Module TagFacts.
Import Py Rar Spec MoreSpec EngineFacts.

Lemma prefix_occurs (w s : string) : prefix w s = true -> exists post, s = (w ++ post)%string.
Proof.
  revert s. induction w as [| x w IH]; intros s H.
  - exists s. reflexivity.
  - destruct s as [| y s]; [discriminate H |]. cbn [prefix] in H.
    destruct (Ascii.ascii_dec x y) as [-> | _]; [| discriminate H].
    destruct (IH s H) as (post & ->). exists post. reflexivity.
Qed.

Lemma contains_occurs (w s : string) : contains w s = true <-> occurs w s.
Proof.
  split.
  - induction s as [| y s IH]; cbn [contains]; intro H.
    + rewrite orb_false_r in H. apply prefix_occurs in H. destruct H as (post & H).
      exists EmptyString, post. exact H.
    + apply orb_true_iff in H. destruct H as [H | H].
      * apply prefix_occurs in H. destruct H as (post & H).
        exists EmptyString, post. exact H.
      * destruct (IH H) as (pre & post & ->). exists (String y pre), post. reflexivity.
  - intros (pre & post & ->). apply contains_append.
Qed.

Lemma occurs_inside (w x a b : string) : occurs w x -> occurs w (a ++ x ++ b).
Proof.
  intros (pre & post & ->). exists (a ++ pre)%string, (post ++ b)%string.
  rewrite !append_assoc. reflexivity.
Qed.

Lemma lower_split (t a b : string) :
  lower t = (a ++ b)%string ->
  exists t1 t2, t = (t1 ++ t2)%string /\ lower t1 = a /\ lower t2 = b.
Proof.
  revert t. induction a as [| x a IH]; intros t H.
  - exists EmptyString, t. repeat split. exact H.
  - destruct t as [| y t]; [discriminate H |]. cbn [lower append] in H.
    injection H as Hx Ht. destruct (IH t Ht) as (t1 & t2 & -> & H1 & H2).
    exists (String y t1), t2. cbn [lower append]. rewrite Hx, H1. repeat split. exact H2.
Qed.

Lemma repr_char_plain (c : ascii) :
  plain (lower_char c) = true ->
  repr_char quote c = chr c /\ repr_char dquote c = chr c.
Proof.
  destruct c as [[] [] [] [] [] [] [] []]; vm_compute; intro H;
    first [discriminate H | split; reflexivity].
Qed.

Lemma repr_body_plain (q : ascii) (m : string) :
  q = quote \/ q = dquote -> all_plain (lower m) = true -> repr_body q m = m.
Proof.
  intro Hq. induction m as [| c m IH]; cbn [lower all_plain repr_body]; intro H.
  - reflexivity.
  - apply andb_true_iff in H. destruct H as [Hc Hm].
    destruct (repr_char_plain c Hc) as [H1 H2].
    rewrite (IH Hm). destruct Hq as [-> | ->]; [rewrite H1 | rewrite H2]; reflexivity.
Qed.

Lemma repr_body_append (q : ascii) (a b : string) :
  repr_body q (a ++ b) = (repr_body q a ++ repr_body q b)%string.
Proof.
  induction a as [| c a IH]; cbn [append repr_body]; [reflexivity |].
  rewrite IH, append_assoc. reflexivity.
Qed.

(** A plain word that occurs in the lower-cased tag occurs in the
    lower-cased [repr] of the tag. *)
Lemma occurs_repr (w t : string) :
  all_plain w = true -> occurs w (lower t) -> occurs w (lower (repr t)).
Proof.
  intros Hw (pre & post & H).
  apply lower_split in H. destruct H as (t1 & t' & -> & H1 & H).
  apply lower_split in H. destruct H as (m & t2 & -> & Hm & H2).
  unfold repr.
  set (q := if contains (chr quote) (t1 ++ m ++ t2)
               && negb (contains (chr dquote) (t1 ++ m ++ t2))
            then dquote else quote).
  assert (Hq : q = quote \/ q = dquote).
  { unfold q. destruct (_ && _); [right | left]; reflexivity. }
  rewrite !repr_body_append, (repr_body_plain q m Hq) by (rewrite Hm; exact Hw).
  exists (lower (String q (repr_body q t1))), (lower (repr_body q t2 ++ chr q)).
  cbn [lower]. rewrite !lower_append, Hm, !append_assoc. reflexivity.
Qed.

Lemma append_empty (a : string) : (a ++ EmptyString)%string = a.
Proof. induction a as [| c a IH]; cbn [append]; [| rewrite IH]; reflexivity. Qed.

Lemma occurs_join (sep x : string) (l : list string) :
  In x l -> exists pre post, join sep l = (pre ++ x ++ post)%string.
Proof.
  induction l as [| y l IH]; intros Hin; [destruct Hin |].
  destruct l as [| z l].
  - destruct Hin as [-> | []]. exists EmptyString, EmptyString.
    cbn [join append]. rewrite append_empty. reflexivity.
  - destruct Hin as [-> | Hin].
    + exists EmptyString, (sep ++ join sep (z :: l))%string. reflexivity.
    + destruct (IH Hin) as (pre & post & E).
      exists (y ++ sep ++ pre)%string, post.
      change (join sep (y :: z :: l)) with (y ++ sep ++ join sep (z :: l))%string.
      rewrite E, !append_assoc. reflexivity.
Qed.

Lemma occurs_str_list (w t : string) (l : list string) :
  all_plain w = true -> In t l -> occurs w (lower t) -> occurs w (lower (str_list l)).
Proof.
  intros Hw Hin Ht. apply (occurs_repr w t Hw) in Ht.
  destruct (occurs_join ", " (repr t) (map repr l) (in_map repr l t Hin)) as (pre & post & E).
  unfold str_list. rewrite E.
  replace ("[" ++ (pre ++ repr t ++ post) ++ "]")%string
    with (("[" ++ pre) ++ repr t ++ (post ++ "]"))%string
    by (rewrite !append_assoc; reflexivity).
  rewrite !lower_append. apply occurs_inside. exact Ht.
Qed.

(** A record one of whose tags holds a weapon word, in any case, is
    labelled a threat, unless its path marks it safe: the quoting of the
    tags by [str] never hides such a word. *)
Theorem weapon_tag_is_threat (p : string) (item : record) (t w : string) :
  In t (item_tags item) -> In w weapon_words ->
  contains w (lower t) = true ->
  contains "_safe" (lower p) = false ->
  decide_label p item = Threat.
Proof.
  intros Ht Hw Hc Hsafe.
  assert (Hplain : all_plain w = true).
  { destruct Hw as [<- | [<- | [<- | [<- | [<- | []]]]]]; reflexivity. }
  assert (Hany : any_in weapon_words (lower (str_list (item_tags item))) = true).
  { unfold any_in. apply existsb_exists. exists w. split; [exact Hw |].
    apply contains_occurs. apply (occurs_str_list w t _ Hplain Ht).
    apply contains_occurs. exact Hc. }
  unfold decide_label. rewrite Hsafe, Hany.
  destruct (_ || _); [reflexivity |]. destruct (_ && _); reflexivity.
Qed.

Lemma weapon_tag_is_threat_witness :
  decide_label "cam/IMG_1.jpg" (mkRecord (Some "cam/IMG_1.jpg") "image" None
                                        (Some ["night"; "Hunter's RIFLE"]))
  = Threat.
Proof.
  apply (weapon_tag_is_threat _ _ "Hunter's RIFLE" "rifle").
  - right. left. reflexivity.
  - right. left. reflexivity.
  - reflexivity.
  - reflexivity.
Defined.

End TagFacts.
